(** * VoxGem Studio: the media encoding and export pipeline

    A shallow embedding of [src/utils/audioUtils.ts] (base64 decoding,
    the PCM to WAV encoder, the still-frame word wrap and the audio+frame
    muxer) and of [handleExportAll] in [src/App.tsx], with the properties
    the specification states about them (C1 to C10); and of the code
    around them: speech and image synthesis in
    [src/services/geminiService.ts], the state of the studio and of the
    visual studio in [src/App.tsx], the audio of the live session in
    [src/components/ScriptAssistant.tsx] and the player's video download,
    with further properties read off the code (X1 to X30).

    Conventions.
    - A [Uint8Array] / [ArrayBuffer] is a [list byte].
    - A JavaScript string is a [string]; [charCodeAt] is [N_of_ascii].
    - A thrown exception or a rejected promise is [None].
    - A JavaScript [number] holding an integer is a [Z]; the conversions
      [ToUint8], [ToUint16] and [ToUint32] performed by [DataView] setters
      are written out as [mod].
    - A React handler is a function on the component's state that also
      records what it does to the outside; a handler runs to its end
      before the next action. What the host answers (a backend's reply, a
      fresh id, the clock) is a parameter. *)

From Stdlib Require Import ZArith NArith QArith Lia List String Ascii.
From Stdlib Require Import Strings.Byte.
From Stdlib Require Import DecimalString DecimalNat.
From stdpp Require Import base option list strings gmap.

Local Open Scope Z_scope.

(* ================================================================== *)
(** * Bytes *)
(* ================================================================== *)

Definition byte_of_Z (z : Z) : byte :=
  match Byte.of_N (Z.to_N (z mod 256)) with
  | Some b => b
  | None => "000"%byte
  end.

Definition Z_of_byte (b : byte) : Z := Z.of_N (Byte.to_N b).

(** [new Blob(parts, { type })] *)
Record Blob := mkBlob { blob_bytes : list byte; blob_type : string }.

(* ================================================================== *)
(** * The PCM to WAV encoder ([pcmToWav], audioUtils.ts lines 12-46) *)
(* ================================================================== *)

Module Wav.

(** [new ArrayBuffer(n)]: [n] zero bytes. *)
Definition new_ArrayBuffer (n : nat) : list byte := replicate n "000"%byte.

(** [view.setUint8(byteOffset, value)]; a [RangeError] when the byte does
    not lie inside the view. *)
Definition setUint8 (view : list byte) (byteOffset : nat) (value : Z)
  : option (list byte) :=
  if (byteOffset + 1 <=? length view)%nat
  then Some (<[byteOffset := byte_of_Z value]> view)
  else None.

(** [view.setUint16(byteOffset, value, littleEndian)] *)
Definition setUint16 (view : list byte) (byteOffset : nat) (value : Z)
    (littleEndian : bool) : option (list byte) :=
  if (byteOffset + 2 <=? length view)%nat then
    let v := value mod 2 ^ 16 in
    let lo := byte_of_Z v in
    let hi := byte_of_Z (v / 2 ^ 8) in
    Some (if littleEndian
          then <[byteOffset + 1 := hi]> (<[byteOffset := lo]> view)
          else <[byteOffset + 1 := lo]> (<[byteOffset := hi]> view))%nat
  else None.

(** [view.setUint32(byteOffset, value, littleEndian)] *)
Definition setUint32 (view : list byte) (byteOffset : nat) (value : Z)
    (littleEndian : bool) : option (list byte) :=
  if (byteOffset + 4 <=? length view)%nat then
    let v := value mod 2 ^ 32 in
    let b0 := byte_of_Z v in
    let b1 := byte_of_Z (v / 2 ^ 8) in
    let b2 := byte_of_Z (v / 2 ^ 16) in
    let b3 := byte_of_Z (v / 2 ^ 24) in
    Some (if littleEndian
          then <[byteOffset + 3 := b3]> (<[byteOffset + 2 := b2]>
                 (<[byteOffset + 1 := b1]> (<[byteOffset := b0]> view)))
          else <[byteOffset + 3 := b0]> (<[byteOffset + 2 := b1]>
                 (<[byteOffset + 1 := b2]> (<[byteOffset := b3]> view))))%nat
  else None.

(** [writeString(view, offset, string)]: one [setUint8] per character,
    the loop index is carried in [offset]. *)
Fixpoint writeString (view : list byte) (offset : nat) (s : string)
  : option (list byte) :=
  match s with
  | EmptyString => Some view
  | String c s' =>
      view' ← setUint8 view offset (Z.of_N (N_of_ascii c));
      writeString view' (S offset) s'
  end.

(** [new Uint8Array(buffer, byteOffset).set(source)]: the view covers the
    buffer from [byteOffset] to its end; both the constructor and [set]
    raise a [RangeError] when the range does not fit. *)
Definition Uint8Array_set (buffer : list byte) (byteOffset : nat)
    (source : list byte) : option (list byte) :=
  if (byteOffset <=? length buffer)%nat then
    if (length source <=? length buffer - byteOffset)%nat then
      Some (take byteOffset buffer ++ source
            ++ drop (byteOffset + length source) buffer)
    else None
  else None.

Definition pcmToWav (pcmData : list byte) (sampleRate : Z) : option Blob :=
  let numChannels := 1 in
  let bitsPerSample := 16 in
  let byteRate := (sampleRate * numChannels * bitsPerSample) / 8 in
  let blockAlign := (numChannels * bitsPerSample) / 8 in
  let dataSize := length pcmData in
  let buffer := new_ArrayBuffer (44 + dataSize) in
  view ← writeString buffer 0 "RIFF";
  view ← setUint32 view 4 (36 + Z.of_nat dataSize) true;
  view ← writeString view 8 "WAVE";
  view ← writeString view 12 "fmt ";
  view ← setUint32 view 16 16 true;
  view ← setUint16 view 20 1 true;
  view ← setUint16 view 22 numChannels true;
  view ← setUint32 view 24 sampleRate true;
  view ← setUint32 view 28 byteRate true;
  view ← setUint16 view 32 blockAlign true;
  view ← setUint16 view 34 bitsPerSample true;
  view ← writeString view 36 "data";
  view ← setUint32 view 40 (Z.of_nat dataSize) true;
  buffer ← Uint8Array_set view 44 pcmData;
  Some (mkBlob buffer "audio/wav").

(** Reading the container back, as a WAV reader does. *)
Fixpoint le_uint (bs : list byte) : Z :=
  match bs with
  | [] => 0
  | b :: bs' => Z_of_byte b + 256 * le_uint bs'
  end.

Definition slice (off len : nat) (buf : list byte) : list byte :=
  take len (drop off buf).

Definition getUint32_le (buf : list byte) (off : nat) : Z :=
  le_uint (slice off 4 buf).
Definition getUint16_le (buf : list byte) (off : nat) : Z :=
  le_uint (slice off 2 buf).

Definition ascii_bytes (s : string) : list byte :=
  map byte_of_ascii (list_ascii_of_string s).

(** The 44 header bytes for a payload of [n] bytes at rate [r]. *)
Definition le_bytes (width : nat) (v : Z) : list byte :=
  map (fun i => byte_of_Z (v / 2 ^ (8 * Z.of_nat i))) (seq 0 width).

Definition wav_header (n : nat) (r : Z) : list byte :=
  ascii_bytes "RIFF" ++ le_bytes 4 ((36 + Z.of_nat n) mod 2 ^ 32)
  ++ ascii_bytes "WAVE" ++ ascii_bytes "fmt "
  ++ le_bytes 4 16 ++ le_bytes 2 1 ++ le_bytes 2 1
  ++ le_bytes 4 (r mod 2 ^ 32) ++ le_bytes 4 ((r * 2) mod 2 ^ 32)
  ++ le_bytes 2 2 ++ le_bytes 2 16
  ++ ascii_bytes "data" ++ le_bytes 4 (Z.of_nat n mod 2 ^ 32).

End Wav.

(* ================================================================== *)
(** * Base64 ([decodeBase64], audioUtils.ts lines 2-10; [encode],
      ScriptAssistant.tsx lines 20-27) *)
(* ================================================================== *)

Module Base64.
Local Open Scope N_scope.

(** ASCII whitespace: TAB, LF, FF, CR and SPACE. *)
Definition is_ascii_whitespace (c : ascii) : bool :=
  let n := N_of_ascii c in
  (n =? 9) || (n =? 10) || (n =? 12) || (n =? 13) || (n =? 32).

(** Position of a character in the base64 alphabet [A-Za-z0-9+/]
    (RFC 4648, table 1). *)
Definition b64_index (c : ascii) : option N :=
  let n := N_of_ascii c in
  if (65 <=? n) && (n <=? 90) then Some (n - 65)
  else if (97 <=? n) && (n <=? 122) then Some (n - 71)
  else if (48 <=? n) && (n <=? 57) then Some (n + 4)
  else if n =? 43 then Some 62
  else if n =? 47 then Some 63
  else None.

Definition b64_char (i : N) : ascii :=
  ascii_of_N (if i <? 26 then i + 65
              else if i <? 52 then i + 71
              else if i <? 62 then i - 4
              else if i =? 62 then 43 else 47).

Definition byte_of_N (n : N) : byte := byte_of_Z (Z.of_N n).

(** Step 2 of forgiving-base64 decode: when the length is a multiple of
    four and the data ends with one or two [=], they are removed. *)
Definition ends_with_eq (data : list ascii) : bool :=
  match last data with
  | Some c => Ascii.eqb c "="%char
  | None => false
  end.

Definition remove_padding (data : list ascii) : list ascii :=
  if (N.of_nat (length data) mod 4 =? 0) then
    if ends_with_eq data then
      let data := removelast data in
      if ends_with_eq data then removelast data else data
    else data
  else data.

(** Steps 5-9: a bit buffer receives six bits per character and is
    flushed as three bytes whenever it holds 24 bits. *)
Definition decode_step (st : N * N * list byte) (x : N) : N * N * list byte :=
  let '(buffer, bits, output) := st in
  let buffer := buffer * 64 + x in
  let bits := bits + 6 in
  if bits =? 24
  then (0, 0, output ++ [byte_of_N (buffer / 65536);
                         byte_of_N (buffer / 256 mod 256);
                         byte_of_N (buffer mod 256)])
  else (buffer, bits, output).

(** Step 10: 12 leftover bits give one byte (the last four are
    discarded), 18 leftover bits give two (the last two are discarded). *)
Definition decode_finish (st : N * N * list byte) : list byte :=
  let '(buffer, bits, output) := st in
  if bits =? 12 then output ++ [byte_of_N (buffer / 16)]
  else if bits =? 18
  then output ++ [byte_of_N (buffer / 4 / 256); byte_of_N (buffer / 4 mod 256)]
  else output.

Definition chars (s : string) : list ascii := list_ascii_of_string s.

(** [atob(data)], the host function: forgiving-base64 decode of the HTML
    Standard. [None] is the [InvalidCharacterError] exception; the result
    is a binary string, one character per byte. *)
Definition atob (data : string) : option string :=
  let data := filter (fun c => is_ascii_whitespace c = false) (chars data) in
  let data := remove_padding data in
  if (N.of_nat (length data) mod 4 =? 1) then None
  else
    sextets ← mapM b64_index data;
    Some (string_of_list_ascii
            (map ascii_of_byte
               (decode_finish (fold_left decode_step sextets (0, 0, []))))).

(** [decodeBase64] (audioUtils.ts lines 2-10): the loop stores
    [charCodeAt(i)] at index [i] of a fresh [Uint8Array]. *)
Definition decodeBase64 (base64 : string) : option (list byte) :=
  binaryString ← atob base64;
  Some (map (fun c => byte_of_Z (Z.of_N (N_of_ascii c)))
            (list_ascii_of_string binaryString)).

(** [btoa(binary)], the host function: RFC 4648 base64 with padding, on
    the character codes of the binary string (all below 256 here). *)
Fixpoint b64_encode (l : list N) : list ascii :=
  match l with
  | [] => []
  | [a] => [b64_char (a / 4); b64_char (a mod 4 * 16); "="%char; "="%char]
  | [a; b] => [b64_char (a / 4); b64_char (a mod 4 * 16 + b / 16);
               b64_char (b mod 16 * 4); "="%char]
  | a :: b :: c :: rest =>
      b64_char (a / 4) :: b64_char (a mod 4 * 16 + b / 16)
      :: b64_char (b mod 16 * 4 + c / 64) :: b64_char (c mod 64)
      :: b64_encode rest
  end.

(** The encoding without its padding, as positions in the alphabet, and
    the padding on its own: [b64_encode] is the one followed by the
    other. *)
Fixpoint sextets_of (l : list N) : list N :=
  match l with
  | [] => []
  | [a] => [a / 4; a mod 4 * 16]
  | [a; b] => [a / 4; a mod 4 * 16 + b / 16; b mod 16 * 4]
  | a :: b :: c :: rest =>
      a / 4 :: (a mod 4 * 16 + b / 16) :: (b mod 16 * 4 + c / 64)
      :: c mod 64 :: sextets_of rest
  end.

Fixpoint padding (l : list N) : list ascii :=
  match l with
  | [] => []
  | [a] => ["="%char; "="%char]
  | [a; b] => ["="%char]
  | a :: b :: c :: rest => padding rest
  end.

Definition sextets64 : list N := map N.of_nat (seq 0 64).

Definition btoa (binary : string) : string :=
  string_of_list_ascii (b64_encode (map N_of_ascii (list_ascii_of_string binary))).

(** [encode] (ScriptAssistant.tsx lines 20-27): the loop appends
    [String.fromCharCode(bytes[i])], then [btoa]. *)
Definition encode (bytes : list byte) : string :=
  btoa (string_of_list_ascii (map ascii_of_byte bytes)).

End Base64.

(* ================================================================== *)
(** * The decoded byte sequence (RFC 4648, section 4, read from the
      characters to the bytes) *)
(* ================================================================== *)

Module Rfc4648.
Local Open Scope N_scope.

(** The octets that a text of 6-bit values stands for: four values give
    three octets; of two values left over the first octet is taken, of
    three the first two, and the unused low bits are dropped. *)
Fixpoint octets (sextets : list N) : list N :=
  match sextets with
  | a :: b :: c :: d :: rest =>
      (a * 4 + b / 16) :: (b mod 16 * 16 + c / 4) :: (c mod 4 * 64 + d)
      :: octets rest
  | [a; b] => [a * 4 + b / 16]
  | [a; b; c] => [a * 4 + b / 16; b mod 16 * 16 + c / 4]
  | _ => []
  end.

(** The same text with the unused low bits cleared, as an encoder
    writes it. *)
Fixpoint canonical (sextets : list N) : list N :=
  match sextets with
  | a :: b :: c :: d :: rest => a :: b :: c :: d :: canonical rest
  | [a; b] => [a; b / 16 * 16]
  | [a; b; c] => [a; b; c / 4 * 4]
  | _ => sextets
  end.

End Rfc4648.

(* ================================================================== *)
(** * The still-frame word wrap ([audioBlobToVideo], audioUtils.ts
      lines 85-107) *)
(* ================================================================== *)

Module Frame.

(** One [ctx.fillText(text, x, y)] call. *)
Record FillText := fillText { ft_text : string; ft_x : Z; ft_y : Z }.

(** [text.split(' ')]: the pieces between single spaces; the result is
    never empty ([''.split(' ')] is [['']]). *)
Fixpoint split_space (s : string) : list string :=
  match s with
  | EmptyString => [EmptyString]
  | String c s' =>
      if Ascii.eqb c " "%char then EmptyString :: split_space s'
      else match split_space s' with
           | w :: ws => String c w :: ws
           | [] => [String c EmptyString]
           end
  end.

Definition width : Z := 1280.
Definition height : Z := 720.
Definition maxWidth : Z := width - 120.
Definition lineHeight : Z := 45.

(** The state of the [for] loop: the line buffer, the vertical cursor and
    the lines drawn so far. *)
Record WrapState := mkWrap { line : string; y : Z; drawn : list FillText }.

(** [line = ''] and [y = height / 2 - 50] before the loop. *)
Definition wrap_init : WrapState := mkWrap "" (height / 2 - 50) [].

Section WordWrap.

(** [ctx.measureText(s).width] under the body font; a width is a finite
    non-integer number in general, hence a rational. *)
Variable measureText : string -> Q.

(** One iteration on [words[n]], before the [break] test. *)
Definition wrap_step (n : nat) (word : string) (st : WrapState) : WrapState :=
  let testLine := (line st ++ word ++ " ")%string in
  let testWidth := measureText testLine in
  if negb (Qle_bool testWidth (inject_Z maxWidth)) && (0 <? n)%nat then
    mkWrap (word ++ " ")%string (y st + lineHeight)
           (drawn st ++ [fillText (line st) 60 (y st)])
  else mkWrap testLine (y st) (drawn st).

(** The loop from index [n] over the remaining words. *)
Fixpoint wrap_loop (n : nat) (words : list string) (st : WrapState) : WrapState :=
  match words with
  | [] => st
  | word :: rest =>
      let st' := wrap_step n word st in
      if y st' >? height - 100 then st'
      else wrap_loop (S n) rest st'
  end.

(** The body text of the frame: the loop, then the residual line. *)
Definition body_lines (text : string) : list FillText :=
  let words := split_space text in
  let st := wrap_loop 0 words wrap_init in
  drawn st ++ [fillText (line st) 60 (y st)].

End WordWrap.

(** Reading a frame back: the texts of the lines in drawing order, all of
    them in one string, and the words each followed by its space. *)
Fixpoint concat_strings (l : list string) : string :=
  match l with
  | [] => EmptyString
  | s :: l' => (s ++ concat_strings l')%string
  end.

Definition line_texts (lines : list FillText) : list string :=
  map ft_text lines.

Definition spaced (words : list string) : list string :=
  map (fun w => w ++ " ")%string words.

(** A line that fits the maximum width, or that is one of the words
    followed by its space. *)
Definition line_ok (measureText : string -> Q) (words : list string)
    (t : string) : Prop :=
  (measureText t <= inject_Z maxWidth)%Q
  \/ exists w, w ∈ words /\ t = (w ++ " ")%string.

(** Lines drawn at [x = 60], the [i]-th one [i] line heights below the
    first. *)
Definition placed (lines : list FillText) : Prop :=
  forall i l, lines !! i = Some l ->
    ft_x l = 60 /\ ft_y l = height / 2 - 50 + lineHeight * Z.of_nat i.

End Frame.

(* ================================================================== *)
(** * The audio+frame muxer ([audioBlobToVideo], audioUtils.ts
      lines 52-150), as the handlers it installs *)
(* ================================================================== *)

Module Mux.

Inductive RejectReason :=
  | CanvasContextNotAvailable   (* [reject("Canvas context not available")] *)
  | AudioErrorEvent.            (* [reject(e)] from [audio.onerror] *)

Inductive PromiseState :=
  | Pending
  | Resolved (finalBlob : Blob)
  | Rejected (reason : RejectReason).

(** The events the host delivers to the handlers the function installs. *)
Inductive Event :=
  | CanPlayThrough                       (* [audio.oncanplaythrough] *)
  | AudioError                           (* [audio.onerror] *)
  | Ended                                (* [audio.onended] *)
  | DataAvailable (data : list byte)     (* [recorder.ondataavailable] *)
  | RecorderStop.                        (* [recorder.onstop] *)

Inductive RecorderState := NoRecorder | Recording | Inactive.

(** What one call of [audioBlobToVideo] owns and has done so far. *)
Record State := mkState {
  promise : PromiseState;
  frame : list Frame.FillText;     (* [fillText] calls on the canvas *)
  handlers_installed : bool;       (* [oncanplaythrough] and [onerror] set *)
  object_url_live : bool;          (* [createObjectURL] not yet revoked *)
  open_audio_contexts : nat;       (* [AudioContext]s created and not closed *)
  capture_started : bool;          (* [canvas.captureStream] was called *)
  source_connected : bool;         (* [createMediaElementSource(audio)] done *)
  recorder : RecorderState;
  mimeType : string;
  chunks : list (list byte);
  playback_started : bool;         (* [audio.play()] was called *)
  onended_installed : bool
}.

(** [resolve] and [reject] settle a promise once; later calls do nothing. *)
Definition settle (p new : PromiseState) : PromiseState :=
  match p with
  | Pending => new
  | _ => p
  end.

Section Host.

Variable measureText : string -> Q.
(** [canvas.getContext('2d')] returned a context. *)
Variable context2d_available : bool.
(** [MediaRecorder.isTypeSupported('video/mp4')] *)
Variable mp4_supported : bool.

(** The synchronous part: the promise executor. *)
Definition audioBlobToVideo (audioBlob : Blob) (text voiceName : string) : State :=
  if negb context2d_available then
    mkState (Rejected CanvasContextNotAvailable) [] false false 0 false false
            NoRecorder "" [] false false
  else
    let title := Frame.fillText "VOXGEM AI" 60 60 in
    let label := Frame.fillText ("Voice: " ++ voiceName) 60 90 in
    mkState Pending
            (title :: label :: Frame.body_lines measureText text)
            true true 0 false false NoRecorder "" [] false false.

(** [audio.oncanplaythrough]. A second [createMediaElementSource] on the
    same element throws, which ends the handler there. *)
Definition on_canplaythrough (s : State) : State :=
  let s := mkState (promise s) (frame s) (handlers_installed s)
             (object_url_live s) (S (open_audio_contexts s)) true
             (source_connected s) (recorder s) (mimeType s) (chunks s)
             (playback_started s) (onended_installed s) in
  if source_connected s then s
  else
    mkState (promise s) (frame s) (handlers_installed s)
      (object_url_live s) (open_audio_contexts s) true
      true Recording (if mp4_supported then "video/mp4" else "video/webm") []
      true true.

(** [audio.onerror = (e) => reject(e)] *)
Definition on_error (s : State) : State :=
  mkState (settle (promise s) (Rejected AudioErrorEvent)) (frame s)
    (handlers_installed s) (object_url_live s) (open_audio_contexts s)
    (capture_started s) (source_connected s) (recorder s) (mimeType s)
    (chunks s) (playback_started s) (onended_installed s).

(** [audio.onended]: [recorder.stop(); audioCtx.close()]. Once the
    recorder is inactive and the context closed, a further [ended] changes
    nothing. *)
Definition on_ended (s : State) : State :=
  match recorder s with
  | Recording =>
      mkState (promise s) (frame s) (handlers_installed s)
        (object_url_live s) (Nat.pred (open_audio_contexts s))
        (capture_started s) (source_connected s) Inactive (mimeType s)
        (chunks s) (playback_started s) (onended_installed s)
  | _ => s
  end.

(** [recorder.ondataavailable = (e) => chunks.push(e.data)] *)
Definition on_dataavailable (data : list byte) (s : State) : State :=
  mkState (promise s) (frame s) (handlers_installed s)
    (object_url_live s) (open_audio_contexts s)
    (capture_started s) (source_connected s) (recorder s) (mimeType s)
    (chunks s ++ [data]) (playback_started s) (onended_installed s).

(** [recorder.onstop]: resolve with the collected chunks, then revoke the
    object URL. *)
Definition on_stop (s : State) : State :=
  mkState (settle (promise s) (Resolved (mkBlob (concat (chunks s)) (mimeType s))))
    (frame s) (handlers_installed s) false (open_audio_contexts s)
    (capture_started s) (source_connected s) (recorder s) (mimeType s)
    (chunks s) (playback_started s) (onended_installed s).

(** Dispatch: an event whose handler is not installed does nothing. *)
Definition handle (s : State) (e : Event) : State :=
  match e with
  | CanPlayThrough => if handlers_installed s then on_canplaythrough s else s
  | AudioError => if handlers_installed s then on_error s else s
  | Ended => if onended_installed s then on_ended s else s
  | DataAvailable data =>
      match recorder s with NoRecorder => s | _ => on_dataavailable data s end
  | RecorderStop =>
      match recorder s with NoRecorder => s | _ => on_stop s end
  end.

Definition run (s : State) (events : list Event) : State :=
  fold_left handle events s.

End Host.

(** Nothing has been captured, opened, recorded or played, and the
    promise is not resolved; the handlers are installed unless the call
    was rejected at once. *)
Definition not_started (s : State) : Prop :=
  capture_started s = false
  /\ open_audio_contexts s = 0%nat
  /\ recorder s = NoRecorder
  /\ playback_started s = false
  /\ onended_installed s = false
  /\ (forall finalBlob, promise s <> Resolved finalBlob)
  /\ (handlers_installed s = true \/ exists reason, promise s = Rejected reason).

End Mux.

(* ================================================================== *)
(** * The bulk export packager ([handleExportAll], App.tsx lines 91-136) *)
(* ================================================================== *)

Module Packager.

(** [Generation] (types.ts). *)
Record Generation := mkGeneration {
  id : string;
  text : string;
  voiceId : string;
  timestamp : Z;
  audioUrl : string;
  blob : Blob
}.

Inductive ToastType := error | success | info.

(** An entry of the JSZip object, which maps full names to entries: a
    folder, a file holding a blob, or a file holding text. *)
Inductive ZipEntry :=
  | ZipFolder
  | ZipBlob (data : Blob)
  | ZipText (data : string).

Definition is_file (e : ZipEntry) : bool :=
  match e with ZipFolder => false | _ => true end.

(** [zip.folder(name)]: adds the entry [name/] unless it exists. *)
Definition zip_folder (name : string) (zip : gmap string ZipEntry)
  : gmap string ZipEntry :=
  match zip !! (name +:+ "/") with
  | Some _ => zip
  | None => <[name +:+ "/" := ZipFolder]> zip
  end.

(** [folder.file(name, data)] on the folder [root]: sets the entry
    [root/name], replacing an entry of that name. (For a name that holds
    a [/] of its own JSZip also adds entries for the parent folders; they
    are folders, never files, and are left out here.) *)
Definition zip_file (root name : string) (data : ZipEntry)
    (zip : gmap string ZipEntry) : gmap string ZipEntry :=
  <[root +:+ name := data]> zip.

(** What the handler does to the outside: React state setters, the calls
    of [audioBlobToVideo], the download and the toasts. *)
Inductive Effect :=
  | SetIsExporting (b : bool)
  | SetExportProgress (current total : nat)
  | DeriveVideo (i : nat) (gen : Generation)
  | Download (filename : string) (archive : gmap string ZipEntry)
  | ShowToast (message : string) (type : ToastType).

Definition nl : string := String "010"%char EmptyString.

(** Template literal of a number. *)
Definition string_of_nat (n : nat) : string :=
  NilEmpty.string_of_uint (Nat.to_uint n).
Definition string_of_Z (z : Z) : string :=
  NilEmpty.string_of_int (Z.to_int z).

Definition is_digit (c : ascii) : bool :=
  let n := N_of_ascii c in ((48 <=? n) && (n <=? 57))%N.

Fixpoint digits_only (s : string) : bool :=
  match s with
  | EmptyString => true
  | String c s' => is_digit c && digits_only s'
  end.

(** [/[^a-z0-9]/gi] *)
Definition is_alnum (c : ascii) : bool :=
  let n := N_of_ascii c in
  ((48 <=? n) && (n <=? 57) || (65 <=? n) && (n <=? 90)
   || (97 <=? n) && (n <=? 122))%N.

Fixpoint replace_non_alnum (s : string) : string :=
  match s with
  | EmptyString => EmptyString
  | String c s' =>
      String (if is_alnum c then c else "_"%char) (replace_non_alnum s')
  end.

(** [s.includes(sub)] *)
Fixpoint includes (sub s : string) : bool :=
  String.prefix sub s
  || match s with
     | EmptyString => false
     | String _ s' => includes sub s'
     end.

Definition baseFilename (i : nat) (gen : Generation) : string :=
  let safeName := replace_non_alnum (voiceId gen) in
  string_of_nat (i + 1) +:+ "_" +:+ safeName +:+ "_" +:+ substring 0 8 (id gen).

Definition video_ext (mp4Blob : Blob) : string :=
  if includes "mp4" (blob_type mp4Blob) then "mp4" else "webm".

Section Handler.

(** Outcome of the call [audioBlobToVideo(gen.blob, gen.text, gen.voiceId)]
    made for the record at index [i]; [None] is a rejected promise. *)
Variable audioBlobToVideo : nat -> Blob -> string -> string -> option Blob.
(** [new Date(t).toLocaleString()] *)
Variable toLocaleString : Z -> string.
(** The clock at [new Date()] and at [Date.now()]. *)
Variable startTime endTime : Z.

Definition manifest_item (i : nat) (gen : Generation) (ext : string) : string :=
  "[Item " +:+ string_of_nat (i + 1) +:+ "]" +:+ nl
  +:+ "Voice: " +:+ voiceId gen +:+ nl
  +:+ "Date: " +:+ toLocaleString (timestamp gen) +:+ nl
  +:+ "Text: " +:+ text gen +:+ nl
  +:+ "Files: " +:+ baseFilename i gen +:+ ".wav, "
  +:+ baseFilename i gen +:+ "." +:+ ext +:+ nl +:+ nl.

(** The [for] loop from index [i]; [None] when an [await] threw. *)
Fixpoint export_loop (i : nat) (gens : list Generation) (total : nat)
    (zip : gmap string ZipEntry) (manifest : string) (log : list Effect)
  : option (gmap string ZipEntry * string) * list Effect :=
  match gens with
  | [] => (Some (zip, manifest), log)
  | gen :: rest =>
      let zip := zip_file "wav_audio/" (baseFilename i gen +:+ ".wav")
                          (ZipBlob (blob gen)) zip in
      let log := log ++ [DeriveVideo i gen] in
      match audioBlobToVideo i (blob gen) (text gen) (voiceId gen) with
      | None => (None, log)
      | Some mp4Blob =>
          let ext := video_ext mp4Blob in
          let zip := zip_file "mp4_video/" (baseFilename i gen +:+ "." +:+ ext)
                              (ZipBlob mp4Blob) zip in
          let manifest := manifest +:+ manifest_item i gen ext in
          export_loop (S i) rest total zip manifest
                      (log ++ [SetExportProgress (i + 1) total])
      end
  end.

Definition handleExportAll (history : list Generation) : list Effect :=
  if (length history =? 0)%nat then []
  else
    let log := [SetIsExporting true; SetExportProgress 0 (length history)] in
    let zip := zip_folder "mp4_video" (zip_folder "wav_audio" ∅) in
    let manifest := "VoxGem AI Voiceover Export" +:+ nl +:+ "Generated: "
                    +:+ toLocaleString startTime +:+ nl +:+ nl in
    let '(result, log) :=
      export_loop 0 history (length history) zip manifest log in
    let log :=
      match result with
      | Some (zip, manifest) =>
          let zip := zip_file "" "manifest.txt" (ZipText manifest) zip in
          log ++ [Download ("voxgem-studio-export-" +:+ string_of_Z endTime
                            +:+ ".zip") zip;
                  ShowToast "Studio bundle export completed." success]
      | None =>
          log ++ [ShowToast "Bulk export failed during video synthesis." error]
      end in
    log ++ [SetIsExporting false; SetExportProgress 0 0].

End Handler.

(** The outcome of the call made for one record. *)
Definition derive
    (audioBlobToVideo : nat -> Blob -> string -> string -> option Blob)
    (i : nat) (gen : Generation) : option Blob :=
  audioBlobToVideo i (blob gen) (text gen) (voiceId gen).

(** Reading a log back: the toasts shown, the archives offered for
    download, and the video derivations requested, each in order. *)
Definition toasts (log : list Effect) : list (string * ToastType) :=
  omap (fun e => match e with
                 | ShowToast message type => Some (message, type)
                 | _ => None
                 end) log.

Definition downloads (log : list Effect)
  : list (string * gmap string ZipEntry) :=
  omap (fun e => match e with
                 | Download filename archive => Some (filename, archive)
                 | _ => None
                 end) log.

Definition derivations (log : list Effect) : list (nat * Generation) :=
  omap (fun e => match e with
                 | DeriveVideo i gen => Some (i, gen)
                 | _ => None
                 end) log.

(** The records paired with their indices from [i] on. *)
Fixpoint indexed (i : nat) (gens : list Generation)
  : list (nat * Generation) :=
  match gens with
  | [] => []
  | gen :: rest => (i, gen) :: indexed (S i) rest
  end.

(** The file entries of an archive (folders left out). *)
Definition file_entries (zip : gmap string ZipEntry) : gmap string ZipEntry :=
  filter (fun kv => is_file kv.2 = true) zip.

(** The names the archive can hold once the records below index [i] are
    stored: the two folders, and under each the names numbered up to [i]. *)
Definition known (i : nat) (key : string) : Prop :=
  key = "wav_audio/" \/ key = "mp4_video/"
  \/ exists j r, (j < i)%nat
       /\ (key = "wav_audio/" +:+ string_of_nat (j + 1) +:+ "_" +:+ r
           \/ key = "mp4_video/" +:+ string_of_nat (j + 1) +:+ "_" +:+ r).

(** The archive when the loop reaches index [i]: the two folders and two
    files per record stored so far. *)
Definition stored (i : nat) (zip : gmap string ZipEntry) : Prop :=
  (forall key, is_Some (zip !! key) -> known i key)
  /\ size zip = (2 + 2 * i)%nat
  /\ size (file_entries zip) = (2 * i)%nat.

(** The names under which the record at index [i] is stored. *)
Definition wav_name (i : nat) (gen : Generation) : string :=
  "wav_audio/" +:+ baseFilename i gen +:+ ".wav".

Definition video_name (i : nat) (gen : Generation) (mp4Blob : Blob) : string :=
  "mp4_video/" +:+ baseFilename i gen +:+ "." +:+ video_ext mp4Blob.

(** Two records of a session, and a host on which the second video
    derivation fails. *)
Definition record1 : Generation :=
  mkGeneration "123e4567-e89b-12d3-a456-426614174000" "hello world"
               "Kore (1x)" 1700000000000 "blob:1" (mkBlob [] "audio/wav").

Definition record2 : Generation :=
  mkGeneration "223e4567-e89b-12d3-a456-426614174000" "good bye"
               "Puck (1.5x)" 1700000001000 "blob:2" (mkBlob [] "audio/wav").

Definition second_fails (i : nat) (b : Blob) (t v : string) : option Blob :=
  if (i =? 1)%nat then None else Some (mkBlob [] "video/webm").

(** A host on which every derivation gives a WebM video. *)
Definition always_webm (i : nat) (b : Blob) (t v : string) : option Blob :=
  Some (mkBlob [] "video/webm").

End Packager.

(* ================================================================== *)
(** * Speech synthesis ([generateSpeech], geminiService.ts lines 5-48) *)
(* ================================================================== *)

Module Speech.

(** What the returned promise can be rejected with. *)
Inductive SpeechError :=
  | ApiKeyMissing                    (* [Error("API Key is missing. ...")] *)
  | NoAudioData                      (* [Error("No audio data returned ...")] *)
  | BackendFailure (message : string)  (* what [generateContent] rejected with *)
  | InvalidCharacterError            (* thrown by [atob] *)
  | RangeError.                      (* thrown by a [DataView] setter *)

(** The backend's answer: a rejection, or a response whose
    [candidates?.[0]?.content?.parts?.[0]?.inlineData?.data] is absent or a
    string. *)
Inductive Reply :=
  | Failure (message : string)
  | Response (data : option string).

Inductive Effect :=
  | GenerateContent (prompt voiceName : string)
  | ConsoleError.

Section Host.

(** [getApiKey()]: the configured key, [''] when there is none. *)
Variable apiKey : string.
Variable generateContent : string -> string -> Reply.
(** Template literal of a number. *)
Variable number_to_string : Q -> string.

Definition speedInstruction (speed : Q) : string :=
  if Qeq_bool speed 1 then ""
  else "Speak at " +:+ number_to_string speed +:+ "x speed. ".

Definition fullPrompt (text : string) (speed : Q) : string :=
  speedInstruction speed +:+ text.

(** The body of the [try] block after the response arrived. *)
Definition wav_of_response (data : option string) : SpeechError + Blob :=
  match data with
  | None => inl NoAudioData
  | Some base64Audio =>
      if String.eqb base64Audio "" then inl NoAudioData
      else
        match Base64.decodeBase64 base64Audio with
        | None => inl InvalidCharacterError
        | Some pcmData =>
            match Wav.pcmToWav pcmData 24000 with
            | None => inl RangeError
            | Some wav => inr wav
            end
        end
  end.

(** [generateSpeech]: the result and what was done on the way. An error
    raised inside the [try] block is logged and thrown again. *)
Definition generateSpeech (text voiceName : string) (speed : Q)
  : (SpeechError + Blob) * list Effect :=
  if String.eqb apiKey "" then (inl ApiKeyMissing, [])
  else
    let call := GenerateContent (fullPrompt text speed) voiceName in
    match generateContent (fullPrompt text speed) voiceName with
    | Failure message => (inl (BackendFailure message), [call; ConsoleError])
    | Response data =>
        match wav_of_response data with
        | inl error => (inl error, [call; ConsoleError])
        | inr wav => (inr wav, [call])
        end
    end.

End Host.

(** The calls made to the backend. *)
Definition backend_calls (log : list Effect) : list (string * string) :=
  omap (fun e => match e with
                 | GenerateContent prompt voiceName => Some (prompt, voiceName)
                 | ConsoleError => None
                 end) log.

End Speech.

(* ================================================================== *)
(** * The studio's state ([handleGenerate], [applyAssistantText],
      [removeHistoryItem] and the editor's setters, App.tsx lines 40-151
      and 213-229) *)
(* ================================================================== *)

Module Studio.
Import Packager.

(** [MAX_CHARS] (types.ts) *)
Definition MAX_CHARS : nat := 5000.

(** [WhiteSpace] and [LineTerminator] of ECMAScript among the character
    codes below 256: TAB, LF, VT, FF, CR, SPACE and NBSP. *)
Definition is_js_space (c : ascii) : bool :=
  let n := N_of_ascii c in
  ((n =? 9) || (n =? 10) || (n =? 11) || (n =? 12) || (n =? 13)
   || (n =? 32) || (n =? 160))%N.

Fixpoint trim_start (s : string) : string :=
  match s with
  | EmptyString => EmptyString
  | String c s' => if is_js_space c then trim_start s' else s
  end.

(** [s.trim()] *)
Definition trim (s : string) : string :=
  String.rev (trim_start (String.rev (trim_start s))).

(** [s.slice(0, n)] *)
Definition slice0 (n : nat) (s : string) : string := substring 0 n s.

Inductive Tab := editor | assistant | visual | cinema.

Inductive Effect :=
  | ShowToast (message : string) (type : ToastType)
  | SetIsGenerating (b : bool)
  | GenerateSpeech (text voiceName : string) (speed : Q)
  | FocusTextarea.

(** The component's state, the object URLs the browser holds for it,
    and what it did to the outside so far. *)
Record State := mkState {
  text : string;
  activeTab : Tab;
  selectedVoice : string;          (* [selectedVoice.id] *)
  speechSpeed : Q;
  isGenerating : bool;
  history : list Generation;
  objectUrls : list string;        (* created and not revoked *)
  log : list Effect
}.

Definition with_log (s : State) (effects : list Effect) : State :=
  mkState (text s) (activeTab s) (selectedVoice s) (speechSpeed s)
          (isGenerating s) (history s) (objectUrls s) (log s ++ effects).

Definition with_text (s : State) (t : string) : State :=
  mkState t (activeTab s) (selectedVoice s) (speechSpeed s)
          (isGenerating s) (history s) (objectUrls s) (log s).

(** What the host answers during one [handleGenerate]: the outcome of
    [generateSpeech] ([err.message] or the blob), and the values of
    [URL.createObjectURL], [crypto.randomUUID()] and [Date.now()]. *)
Record GenerateHost := mkGenerateHost {
  outcome : string + Blob;
  audioUrl_new : string;
  uuid : string;
  now : Z
}.

Section Host.

(** Template literal of a number. *)
Variable number_to_string : Q -> string.

Definition handleGenerate (host : GenerateHost) (s : State) : State :=
  if String.eqb (trim (text s)) "" then
    with_log s [ShowToast
      "Validation Error: Please enter some text to generate audio." error]
  else
    let call := GenerateSpeech (text s) (selectedVoice s) (speechSpeed s) in
    match outcome host with
    | inr audioBlob =>
        let newGeneration :=
          mkGeneration (uuid host) (text s)
            (selectedVoice s +:+ " (" +:+ number_to_string (speechSpeed s)
             +:+ "x)")
            (now host) (audioUrl_new host) audioBlob in
        mkState (text s) (activeTab s) (selectedVoice s) (speechSpeed s)
          false (newGeneration :: history s)
          (audioUrl_new host :: objectUrls s)
          (log s ++ [SetIsGenerating true; call;
                     ShowToast "Audio synthesis successful!" success;
                     SetIsGenerating false])
    | inl message =>
        mkState (text s) (activeTab s) (selectedVoice s) (speechSpeed s)
          false (history s) (objectUrls s)
          (log s ++ [SetIsGenerating true; call;
                     ShowToast
                       (if String.eqb message ""
                        then "Failed to generate speech. Please try again."
                        else message) error;
                     SetIsGenerating false])
    end.

End Host.

(** [applyAssistantText]; the textarea is mounted, and its ref set, on
    the editor tab only. *)
Definition applyAssistantText (assistantText : string) (s : State) : State :=
  mkState (slice0 MAX_CHARS assistantText) editor (selectedVoice s)
          (speechSpeed s) (isGenerating s) (history s) (objectUrls s)
          (log s
           ++ match activeTab s with
              | editor => [FocusTextarea]
              | _ => []
              end
           ++ [ShowToast "Script applied to editor" info]).

(** The textarea's [onChange] and the Clear button. *)
Definition onChange (value : string) (s : State) : State :=
  with_text s (slice0 MAX_CHARS value).

Definition clear (s : State) : State := with_text s "".

(** [prev.find(i => i.id === id)] *)
Definition find_by_id (id0 : string) (l : list Generation) : option Generation :=
  List.find (fun i => String.eqb (id i) id0) l.

(** [URL.revokeObjectURL(url)] *)
Definition revoke (url : string) (urls : list string) : list string :=
  List.filter (fun u => negb (String.eqb u url)) urls.

(** [removeHistoryItem] *)
Definition removeHistoryItem (id0 : string) (s : State) : State :=
  let prev := history s in
  let urls :=
    match find_by_id id0 prev with
    | Some item => revoke (audioUrl item) (objectUrls s)
    | None => objectUrls s
    end in
  mkState (text s) (activeTab s) (selectedVoice s) (speechSpeed s)
          (isGenerating s)
          (List.filter (fun i => negb (String.eqb (id i) id0)) prev)
          urls (log s).

(** [setActiveTab], [setSelectedVoice] and [setSpeechSpeed], as the tab
    buttons and the voice selector call them. *)
Definition with_settings (s : State) (tab : Tab) (voice : string) (speed : Q)
  : State :=
  mkState (text s) tab voice speed (isGenerating s) (history s)
          (objectUrls s) (log s).

(** What the user and the host can do, one after the other. *)
Inductive Action :=
  | Generate (host : GenerateHost)
  | Remove (id0 : string)
  | Apply (assistantText : string)
  | Change (value : string)
  | Clear
  | SetTab (tab : Tab)
  | SelectVoice (voice : string)
  | SetSpeed (speed : Q).

Definition perform (number_to_string : Q -> string) (s : State) (a : Action)
  : State :=
  match a with
  | Generate host => handleGenerate number_to_string host s
  | Remove id0 => removeHistoryItem id0 s
  | Apply assistantText => applyAssistantText assistantText s
  | Change value => onChange value s
  | Clear => clear s
  | SetTab tab => with_settings s tab (selectedVoice s) (speechSpeed s)
  | SelectVoice voice => with_settings s (activeTab s) voice (speechSpeed s)
  | SetSpeed speed => with_settings s (activeTab s) (selectedVoice s) speed
  end.

Definition perform_all (number_to_string : Q -> string) (s : State)
    (actions : list Action) : State :=
  fold_left (perform number_to_string) actions s.

(** [crypto.randomUUID()] and [URL.createObjectURL] give values not in
    use: the host's side of a [Generate]. *)
Definition fresh (s : State) (a : Action) : Prop :=
  match a with
  | Generate host =>
      (uuid host ∉ map id (history s)) /\ (audioUrl_new host ∉ objectUrls s)
  | _ => True
  end.

Fixpoint all_fresh (number_to_string : Q -> string) (s : State)
    (actions : list Action) : Prop :=
  match actions with
  | [] => True
  | a :: rest =>
      fresh s a /\ all_fresh number_to_string (perform number_to_string s a) rest
  end.

(** Reading a log back: the toasts shown and the calls of
    [generateSpeech], each in order. *)
Definition shown (l : list Effect) : list (string * ToastType) :=
  omap (fun e => match e with
                 | ShowToast message type => Some (message, type)
                 | _ => None
                 end) l.

Definition speech_calls (l : list Effect) : list (string * string * Q) :=
  omap (fun e => match e with
                 | GenerateSpeech t v speed => Some (t, v, speed)
                 | _ => None
                 end) l.

(** A text made of white space only (the empty text included). *)
Definition is_blank (s : string) : bool :=
  forallb is_js_space (list_ascii_of_string s).

(** The ids of the history differ, the object URLs held are exactly the
    audio URLs of its records (none twice), and the text respects the
    limit. *)
Definition consistent (s : State) : Prop :=
  NoDup (map id (history s))
  /\ NoDup (objectUrls s)
  /\ objectUrls s = map audioUrl (history s)
  /\ (String.length (text s) <= MAX_CHARS)%nat.

(** The state of a new session. *)
Definition new_session : State :=
  mkState "" editor "Kore" 1 false [] [] [].

End Studio.

(* ================================================================== *)
(** * Reading the muxer and the exporter back *)
(* ================================================================== *)

Module Views.

(** The container type the recorder is created with. *)
Definition container (mp4_supported : bool) : string :=
  if mp4_supported then "video/mp4" else "video/webm".

(** The recorder, once created, has the container type of the host, and
    a resolved promise holds a blob of that type. *)
Definition typed (mp4_supported : bool) (s : Mux.State) : Prop :=
  (Mux.recorder s <> Mux.NoRecorder ->
   Mux.mimeType s = container mp4_supported)
  /\ forall finalBlob, Mux.promise s = Mux.Resolved finalBlob ->
       blob_type finalBlob = container mp4_supported.





(** Every character is a letter, a digit or [_]. *)
Definition safe (s : string) : Prop :=
  Forall (fun c => Packager.is_alnum c = true \/ c = "_"%char)
         (list_ascii_of_string s).

Section Manifest.

Variable audioBlobToVideo : nat -> Blob -> string -> string -> option Blob.
Variable toLocaleString : Z -> string.

(** The manifest entries of the records from index [i] on, as long as
    their videos are derived. *)
Fixpoint manifest_items (i : nat) (gens : list Packager.Generation) : string :=
  match gens with
  | [] => ""
  | gen :: rest =>
      match Packager.derive audioBlobToVideo i gen with
      | Some mp4Blob =>
          Packager.manifest_item toLocaleString i gen
            (Packager.video_ext mp4Blob)
          +:+ manifest_items (S i) rest
      | None => ""
      end
  end.

End Manifest.

End Views.

(* ================================================================== *)
(** * The live session's audio ([decode], [decodeAudioData] and the
      [onaudioprocess] handler, ScriptAssistant.tsx lines 30-57 and
      146-158) *)
(* ================================================================== *)

Module Live.

(** A sample of a [Float32Array]. The finite values that arise here are
    16-bit integers over [2 ^ 15] and their products with [2 ^ 15], which
    the floating-point formats hold exactly, hence rationals. *)
Inductive Float :=
  | Finite (q : Q)
  | NaN
  | Infinity (negative : bool).

(** [ToInt16]: truncate towards zero, wrap modulo [2 ^ 16] into the
    signed range; [NaN] and the infinities give 0. *)
Definition wrap16 (z : Z) : Z :=
  let m := z mod 2 ^ 16 in
  if 2 ^ 15 <=? m then m - 2 ^ 16 else m.

Definition truncate (q : Q) : Z := Z.quot (Qnum q) (Z.pos (Qden q)).

Definition ToInt16 (x : Float) : Z :=
  match x with
  | Finite q => wrap16 (truncate q)
  | _ => 0
  end.

(** [x * 32768] and [x / 32768.0] *)
Definition times_32768 (x : Float) : Float :=
  match x with
  | Finite q => Finite (q * 32768)
  | _ => x
  end.

Definition over_32768 (x : option Z) : Float :=
  match x with
  | Some z => Finite (z # 32768)
  | None => NaN                       (* [undefined / 32768.0] *)
  end.

(** [ToUint32], the conversion of an [unsigned long] argument. *)
Definition ToUint32 (n : nat) : nat := Z.to_nat (Z.of_nat n mod 2 ^ 32).

(** [AudioBuffer] *)
Record AudioBuffer := mkAudioBuffer {
  sampleRate : Q;
  channels : list (list Float)
}.

(** [decode] (lines 30-38), the same loop as [decodeBase64]. *)
Definition decode (base64 : string) : option (list byte) :=
  binaryString ← Base64.atob base64;
  Some (map (fun c => byte_of_Z (Z.of_N (N_of_ascii c)))
            (list_ascii_of_string binaryString)).

Section Host.

(** The byte order of the host, which typed arrays over a shared buffer
    expose. *)
Variable little_endian : bool.
(** Whether [ctx.createBuffer(numberOfChannels, length, sampleRate)]
    returns a buffer (it throws [NotSupportedError] otherwise). *)
Variable createBuffer : nat -> nat -> Q -> bool.

(** One element of an [Int16Array] over two bytes of the buffer, and
    back. *)
Definition int16_of_bytes (b0 b1 : byte) : Z :=
  if little_endian then wrap16 (Z_of_byte b0 + 256 * Z_of_byte b1)
  else wrap16 (Z_of_byte b1 + 256 * Z_of_byte b0).

Definition bytes_of_int16 (z : Z) : list byte :=
  let lo := byte_of_Z (z mod 256) in
  let hi := byte_of_Z (z / 256 mod 256) in
  if little_endian then [lo; hi] else [hi; lo].

(** [new Int16Array(data.buffer)], for a [data] that spans its buffer:
    a [RangeError] when the byte length is odd. *)
Fixpoint Int16Array (buffer : list byte) : option (list Z) :=
  match buffer with
  | [] => Some []
  | [_] => None
  | b0 :: b1 :: rest =>
      elements ← Int16Array rest;
      Some (int16_of_bytes b0 b1 :: elements)
  end.

(** [new Uint8Array(int16.buffer)] *)
Definition Uint8Array_of (int16 : list Z) : list byte :=
  concat (map bytes_of_int16 int16).

(** The inner loop: [channelData[i] = dataInt16[i * numChannels +
    channel] / 32768.0] for the [iterations] indices below [frameCount];
    a write beyond the end of [channelData] does nothing. *)
Definition fill_channel (dataInt16 : list Z) (numChannels channel : nat)
    (iterations : nat) (channelData : list Float) : list Float :=
  fold_left
    (fun channelData i =>
       <[i := over_32768 (dataInt16 !! (i * numChannels + channel)%nat)]>
         channelData)
    (seq 0 iterations) channelData.

(** [decodeAudioData] (lines 39-57). [frameCount] is the quotient
    [dataInt16.length / numChannels], a fraction in general: the buffer
    has [ToUint32] of it frames (0 for the [Infinity] or [NaN] that a
    division by zero gives), and the inner loop runs over the integers
    below it. *)
Definition decodeAudioData (data : list byte) (sampleRate : Q)
    (numChannels : nat) : option AudioBuffer :=
  dataInt16 ← Int16Array data;
  let frames := ToUint32 (length dataInt16 / numChannels) in
  let iterations :=
    ((length dataInt16 + numChannels - 1) / numChannels)%nat in
  if createBuffer numChannels frames sampleRate then
    Some (mkAudioBuffer sampleRate
            (map (fun channel =>
                    fill_channel dataInt16 numChannels channel iterations
                                 (replicate frames (Finite 0)))
                 (seq 0 numChannels)))
  else None.

(** The [onaudioprocess] handler (lines 146-158): the samples of the
    input channel scaled by [32768] and stored in an [Int16Array], whose
    bytes are sent base64-encoded. *)
Definition int16_of_input (inputData : list Float) : list Z :=
  map (fun x => ToInt16 (times_32768 x)) inputData.

Definition onaudioprocess (inputData : list Float) : string * string :=
  (Base64.encode (Uint8Array_of (int16_of_input inputData)),
   "audio/pcm;rate=16000"%string).

End Host.

End Live.

(* ================================================================== *)
(** * Image synthesis ([generateImage], geminiService.ts lines 79-173)
      and the visual studio's state (VisualStudio, App.tsx lines
      544-700) *)
(* ================================================================== *)

Module Visual.

Inductive RefType := image | text.

(** [RefItem] and [ImageReferences]; an absent field is [None]. *)
Record RefItem := mkRefItem { type : RefType; data : string }.

Record ImageReferences := mkImageReferences {
  subjects : list RefItem;
  style : option RefItem;
  scene : option RefItem;
  mainImage : option string
}.

(** A part of the request. *)
Inductive Part :=
  | InlineData (mimeType data : string)
  | Text (text : string).

(** A part of the response: [part.inlineData] absent, or present with
    its optional [data]. *)
Inductive ResponsePart :=
  | NoInlineData
  | Inline (data : option string).

(** The backend's answer: a rejection, or a response whose
    [candidates[0].content.parts] cannot be reached ([None], a
    [TypeError]) or is a list. *)
Inductive Reply :=
  | Failure (message : string)
  | Response (parts : option (list ResponsePart)).

Inductive ImageError :=
  | ApiKeyMissing              (* [Error("API Key is missing for ...")] *)
  | NoImageData                (* [Error("No image data generated")] *)
  | BackendFailure (message : string)
  | TypeError.

Inductive Effect :=
  | GenerateContent (parts : list Part) (aspectRatio : string)
  | ConsoleError.

(** A non-empty string is truthy. *)
Definition truthy (s : string) : bool := negb (String.eqb s "").

(** The parts pushed so far and [complexPrompt]. *)
Definition Builder : Type := list Part * string.

Definition push_image (d : string) (b : Builder) : Builder :=
  (b.1 ++ [InlineData "image/png" d], b.2).

Definition append (line : string) (b : Builder) : Builder :=
  (b.1, b.2 +:+ line).

Definition start (prompt : string) : Builder :=
  ([], if truthy prompt
       then "Primary Instructions: " +:+ prompt +:+ Packager.nl +:+ Packager.nl
       else "Generate an image based on the provided visual and descriptive references."
            +:+ Packager.nl +:+ Packager.nl).

Definition add_main (mainImage : option string) (b : Builder) : Builder :=
  match mainImage with
  | Some d =>
      if truthy d then
        append ("CORE FOUNDATION: Use the attached [Main Reference] image as the structural starting point. Modify it according to the instructions."
                +:+ Packager.nl) (push_image d b)
      else b
  | None => b
  end.

(** [references.subjects.forEach((ref, idx) => ...)] from index [idx]. *)
Fixpoint forEach_subject (idx : nat) (refs : list RefItem) (b : Builder)
  : Builder :=
  match refs with
  | [] => b
  | ref :: rest =>
      forEach_subject (S idx) rest
        match type ref with
        | image =>
            append ("- [Subject Image Reference "
                    +:+ Packager.string_of_nat (idx + 1)
                    +:+ "]: Incorporate this character/object precisely."
                    +:+ Packager.nl) (push_image (data ref) b)
        | text =>
            append ("- [Subject Description "
                    +:+ Packager.string_of_nat (idx + 1) +:+ "]: "
                    +:+ data ref +:+ Packager.nl) b
        end
  end.

Definition add_subjects (refs : list RefItem) (b : Builder) : Builder :=
  match refs with
  | [] => b
  | _ => forEach_subject 0 refs (append ("SUBJECTS/CHARACTERS:" +:+ Packager.nl) b)
  end.

Definition add_style (style : option RefItem) (b : Builder) : Builder :=
  match style with
  | Some ref =>
      match type ref with
      | image =>
          append ("AESTHETIC STYLE: Apply the exact lighting, art style, and mood from the attached [Style Image Reference]."
                  +:+ Packager.nl) (push_image (data ref) b)
      | text => append ("AESTHETIC STYLE: " +:+ data ref +:+ Packager.nl) b
      end
  | None => b
  end.

Definition add_scene (scene : option RefItem) (b : Builder) : Builder :=
  match scene with
  | Some ref =>
      match type ref with
      | image =>
          append ("SCENE/ENVIRONMENT: Use the layout and environment structure from the attached [Scene Image Reference]."
                  +:+ Packager.nl) (push_image (data ref) b)
      | text => append ("SCENE/ENVIRONMENT: " +:+ data ref +:+ Packager.nl) b
      end
  | None => b
  end.

(** The parts of the request: the references in the order main,
    subjects, style, scene, then [parts.unshift({ text: complexPrompt })]. *)
Definition request (prompt : string) (references : option ImageReferences)
  : list Part :=
  let b := start prompt in
  let b :=
    match references with
    | Some r =>
        add_scene (scene r)
          (add_style (style r)
             (add_subjects (subjects r) (add_main (mainImage r) b)))
    | None => b
    end in
  Text b.2 :: b.1.

(** The loop over the parts of the response: the first part with
    [inlineData] is returned. *)
Fixpoint first_inline (parts : list ResponsePart) : option (option string) :=
  match parts with
  | [] => None
  | NoInlineData :: rest => first_inline rest
  | Inline data :: _ => Some data
  end.

(** [`${base64}`] for a [base64] that may be [undefined]. *)
Definition template (base64 : option string) : string :=
  match base64 with
  | Some s => s
  | None => "undefined"
  end.

(** What [generateImage] resolves with. *)
Record ImageResult := mkImageResult { base64 : option string; url : string }.

Section Host.

(** [getApiKey()] *)
Variable apiKey : string.
Variable generateContent : list Part -> string -> Reply.

Definition generateImage (prompt aspectRatio : string)
    (references : option ImageReferences)
  : (ImageError + ImageResult) * list Effect :=
  if String.eqb apiKey "" then (inl ApiKeyMissing, [])
  else
    let parts := request prompt references in
    let call := GenerateContent parts aspectRatio in
    match generateContent parts aspectRatio with
    | Failure message => (inl (BackendFailure message), [call; ConsoleError])
    | Response None => (inl TypeError, [call; ConsoleError])
    | Response (Some parts) =>
        match first_inline parts with
        | Some base64 =>
            (inr (mkImageResult base64
                    ("data:image/png;base64," +:+ template base64)), [call])
        | None => (inl NoImageData, [call; ConsoleError])
        end
    end.

End Host.

(** Reading back: the image data a request attaches, the images the
    references hold, and the calls made to the backend. *)
Definition attached (parts : list Part) : list string :=
  omap (fun p => match p with
                 | InlineData _ d => Some d
                 | Text _ => None
                 end) parts.

Definition image_of (ref : RefItem) : option string :=
  match type ref with
  | image => Some (data ref)
  | text => None
  end.

Definition images_of (r : ImageReferences) : list string :=
  match mainImage r with
  | Some d => if truthy d then [d] else []
  | None => []
  end
  ++ omap image_of (subjects r)
  ++ from_option (fun ref => option_list (image_of ref)) [] (style r)
  ++ from_option (fun ref => option_list (image_of ref)) [] (scene r).

Definition requests_sent (log : list Effect) : list (list Part * string) :=
  omap (fun e => match e with
                 | GenerateContent parts aspectRatio => Some (parts, aspectRatio)
                 | ConsoleError => None
                 end) log.

(** [b'] is [b] with the images [imgs] pushed and the prompt
    extended. *)
Definition extends (b b' : Builder) (imgs : list string) : Prop :=
  b'.1 = b.1 ++ map (InlineData "image/png") imgs
  /\ exists tail, b'.2 = b.2 +:+ tail.

(** ** The studio's state *)

Inductive Slot := subject | styleSlot | sceneSlot | mainSlot.

(** [`${type}`] *)
Definition slot_name (t : Slot) : string :=
  match t with
  | subject => "subject"
  | styleSlot => "style"
  | sceneSlot => "scene"
  | mainSlot => "main"
  end.

(** [ImageGeneration] (types.ts) *)
Record ImageGeneration := mkImageGeneration {
  id : string;
  prompt_of : string;
  img_url : string;
  timestamp : Z;
  img_base64 : option string;
  aspectRatio_of : string
}.

(** The component's state and the toasts and backend calls so far.
    [isGenerating], [isUpscaling] and [isRefLoading] are raised and
    lowered within one handler and are off between handlers. *)
Record State := mkState {
  prompt : string;
  aspectRatio : string;
  subjectRefs : list RefItem;
  styleRef : option RefItem;
  sceneRef : option RefItem;
  mainImageRef : option string;
  textModal : option Slot;
  textInputValue : string;
  images : list ImageGeneration;
  selectedImage : option ImageGeneration;
  toasts : list (string * Packager.ToastType);
  calls : list Effect
}.

Definition set_inputs (prompt aspectRatio : string) (s : State) : State :=
  mkState prompt aspectRatio (subjectRefs s) (styleRef s) (sceneRef s)
          (mainImageRef s) (textModal s) (textInputValue s) (images s)
          (selectedImage s) (toasts s) (calls s).

Definition set_refs (subjectRefs : list RefItem)
    (styleRef sceneRef : option RefItem) (mainImageRef : option string)
    (s : State) : State :=
  mkState (prompt s) (aspectRatio s) subjectRefs styleRef sceneRef
          mainImageRef (textModal s) (textInputValue s) (images s)
          (selectedImage s) (toasts s) (calls s).

Definition set_modal (textModal : option Slot) (textInputValue : string)
    (s : State) : State :=
  mkState (prompt s) (aspectRatio s) (subjectRefs s) (styleRef s) (sceneRef s)
          (mainImageRef s) textModal textInputValue (images s)
          (selectedImage s) (toasts s) (calls s).

Definition set_gallery (images : list ImageGeneration)
    (selectedImage : option ImageGeneration) (s : State) : State :=
  mkState (prompt s) (aspectRatio s) (subjectRefs s) (styleRef s) (sceneRef s)
          (mainImageRef s) (textModal s) (textInputValue s) images
          selectedImage (toasts s) (calls s).

(** [showToast(message, type)] *)
Definition showToast (message : string) (type : Packager.ToastType)
    (s : State) : State :=
  mkState (prompt s) (aspectRatio s) (subjectRefs s) (styleRef s) (sceneRef s)
          (mainImageRef s) (textModal s) (textInputValue s) (images s)
          (selectedImage s) (toasts s ++ [(message, type)]) (calls s).

Definition called (effects : list Effect) (s : State) : State :=
  mkState (prompt s) (aspectRatio s) (subjectRefs s) (styleRef s) (sceneRef s)
          (mainImageRef s) (textModal s) (textInputValue s) (images s)
          (selectedImage s) (toasts s) (calls s ++ effects).

(** [l.slice(0, n)] for an [n] that may be negative. *)
Definition slice_front {A} (n : Z) (l : list A) : list A :=
  if 0 <=? n then take (Z.to_nat n) l
  else take (length l - Z.to_nat (- n)) l.

(** [handleUpload] (lines 594-619): the files as the results of
    [fileToBase64] on each, [None] for a reader that failed. *)
Definition handleUpload (files : list (option string)) (t : Slot) (s : State)
  : State :=
  match files with
  | [] => s
  | first :: _ =>
      let added :=
        showToast ("Visual asset added to " +:+ slot_name t +:+ " buffer.")
                  Packager.info in
      let failed :=
        showToast ("Failed to process " +:+ slot_name t +:+ " image.")
                  Packager.error in
      match t with
      | subject =>
          match mapM (fun result => result)
                  (slice_front (5 - Z.of_nat (length (subjectRefs s))) files) with
          | Some newBase64s =>
              let newItems := map (mkRefItem image) newBase64s in
              added (set_refs (take 5 (subjectRefs s ++ newItems))
                              (styleRef s) (sceneRef s) (mainImageRef s) s)
          | None => failed s
          end
      | _ =>
          match first with
          | Some base64 =>
              let newItem := mkRefItem image base64 in
              added
                match t with
                | styleSlot =>
                    set_refs (subjectRefs s) (Some newItem) (sceneRef s)
                             (mainImageRef s) s
                | sceneSlot =>
                    set_refs (subjectRefs s) (styleRef s) (Some newItem)
                             (mainImageRef s) s
                | _ =>
                    set_refs (subjectRefs s) (styleRef s) (sceneRef s)
                             (Some base64) s
                end
          | None => failed s
          end
      end
  end.

(** [handleAddTextRef] (lines 621-634) *)
Definition handleAddTextRef (s : State) : State :=
  match textModal s with
  | None => s
  | Some t =>
      if String.eqb (Studio.trim (textInputValue s)) "" then s
      else
        let newItem := mkRefItem text (textInputValue s) in
        let s' :=
          match t with
          | subject =>
              set_refs (take 5 (subjectRefs s ++ [newItem])) (styleRef s)
                       (sceneRef s) (mainImageRef s) s
          | styleSlot =>
              set_refs (subjectRefs s) (Some newItem) (sceneRef s)
                       (mainImageRef s) s
          | sceneSlot =>
              set_refs (subjectRefs s) (styleRef s) (Some newItem)
                       (mainImageRef s) s
          | mainSlot => s
          end in
        showToast "Semantic reference locked." Packager.info
                  (set_modal None "" s')
  end.

(** [prev.filter((_, i) => i !== idx)] *)
Definition remove_at {A} (idx : nat) (l : list A) : list A :=
  take idx l ++ drop (S idx) l.

(** [err.message || fallback] *)
Definition message_or (message fallback : string) : string :=
  if truthy message then message else fallback.

(** [x || undefined] for a string or [null]. *)
Definition or_undefined (x : option string) : option string :=
  match x with
  | Some d => if truthy d then Some d else None
  | None => None
  end.

(** The effect on [images] (lines 576-580): with images and none
    selected, the first is selected. *)
Definition select_first (s : State) : State :=
  match images s, selectedImage s with
  | img :: _, None => set_gallery (images s) (Some img) s
  | _, _ => s
  end.

(** [setImages(prev => [img, ...prev])] and [setSelectedImage(img)],
    after which the effect on [images] runs. *)
Definition add_image (img : ImageGeneration) (s : State) : State :=
  select_first (set_gallery (img :: images s) (Some img) s).

(** [removeHistoryItem] (lines 692-700) *)
Definition removeHistoryItem (id0 : string) (s : State) : State :=
  let filtered :=
    List.filter (fun img => negb (String.eqb (id img) id0)) (images s) in
  set_gallery filtered
    match selectedImage s with
    | Some img => if String.eqb (id img) id0 then head filtered else Some img
    | None => None
    end
    s.

(** What the host hands out during one handler: [crypto.randomUUID()]
    and [Date.now()]. *)
Record Fresh := mkFresh { uuid : string; now : Z }.

Definition error_message (e : ImageError) (typeError : string) : string :=
  match e with
  | ApiKeyMissing => "API Key is missing for visual synthesis."
  | NoImageData => "No image data generated"
  | BackendFailure message => message
  | TypeError => typeError
  end.

Section Host.

Variable apiKey : string.
(** The message of the engine's [TypeError]. *)
Variable typeError : string.

(** [handleGenerate] (lines 636-666), for a backend that answers
    [reply]. *)
Definition handleGenerate (host : Fresh) (reply : Reply) (s : State)
  : State :=
  if String.eqb (Studio.trim (prompt s)) ""
     && negb (from_option truthy false (mainImageRef s))
     && (length (subjectRefs s) =? 0)%nat
     && negb (bool_decide (is_Some (styleRef s)))
     && negb (bool_decide (is_Some (sceneRef s)))
  then
    showToast "Generation Blocked: Please provide a prompt or any reference."
              Packager.error s
  else
    let references :=
      mkImageReferences (subjectRefs s) (styleRef s) (sceneRef s)
                        (or_undefined (mainImageRef s)) in
    let '(result, effects) :=
      generateImage apiKey (fun _ _ => reply) (prompt s) (aspectRatio s)
                    (Some references) in
    let s := called effects s in
    match result with
    | inr result =>
        let newImage :=
          mkImageGeneration (uuid host)
            (if truthy (prompt s) then prompt s else "Guided Asset Generation")
            (url result) (now host) (base64 result) (aspectRatio s) in
        showToast "Visual asset synthesized." Packager.success
                  (add_image newImage s)
    | inl e =>
        showToast (message_or (error_message e typeError)
                              "Visual generation failed.")
                  Packager.error s
    end.

(** [handleUpscale] (lines 668-690), for an [upscaleImage] that ends
    with [outcome]: [err.message], or the result. *)
Definition handleUpscale (host : Fresh) (outcome : string + ImageResult)
    (s : State) : State :=
  match selectedImage s with
  | None => s
  | Some selected =>
      let s := showToast "Initiating 2K Master Upscale..." Packager.info s in
      match outcome with
      | inr result =>
          let upscaledImage :=
            mkImageGeneration (uuid host)
              ("[UPSCALED 2K] " +:+ prompt_of selected) (url result)
              (now host) (base64 result) (aspectRatio_of selected) in
          showToast "Upscaling successful. High-res version added."
                    Packager.success (add_image upscaledImage s)
      | inl message =>
          showToast (message_or message "Upscaling failed.") Packager.error s
      end
  end.

(** What the user does; a handler runs to its end before the next
    action. After a removal, which sets [images], the effect on
    [images] runs. *)
Inductive Action :=
  | SetPrompt (value : string)
  | SetAspectRatio (value : string)
  | Upload (files : list (option string)) (t : Slot)
  | AddTextRef
  | OpenTextModal (t : Slot)           (* [setTextModal({ type })] *)
  | TypeText (value : string)          (* [setTextInputValue] *)
  | CancelModal
  | ResetSubjects                      (* [setSubjects([])] *)
  | RemoveSubject (idx : nat)
  | ClearStyle
  | ClearScene
  | ClearMain
  | Generate (host : Fresh) (reply : Reply)
  | Upscale (host : Fresh) (outcome : string + ImageResult)
  | RemoveImage (id0 : string)
  | Select (i : nat).                  (* click on the [i]-th thumbnail *)

Definition react (s : State) (a : Action) : State :=
  match a with
  | SetPrompt value => set_inputs value (aspectRatio s) s
  | SetAspectRatio value => set_inputs (prompt s) value s
  | Upload files t => handleUpload files t s
  | AddTextRef => handleAddTextRef s
  | OpenTextModal t => set_modal (Some t) (textInputValue s) s
  | TypeText value => set_modal (textModal s) value s
  | CancelModal => set_modal None "" s
  | ResetSubjects => set_refs [] (styleRef s) (sceneRef s) (mainImageRef s) s
  | RemoveSubject idx =>
      set_refs (remove_at idx (subjectRefs s)) (styleRef s) (sceneRef s)
               (mainImageRef s) s
  | ClearStyle => set_refs (subjectRefs s) None (sceneRef s) (mainImageRef s) s
  | ClearScene => set_refs (subjectRefs s) (styleRef s) None (mainImageRef s) s
  | ClearMain => set_refs (subjectRefs s) (styleRef s) (sceneRef s) None s
  | Generate host reply => handleGenerate host reply s
  | Upscale host outcome => handleUpscale host outcome s
  | RemoveImage id0 => select_first (removeHistoryItem id0 s)
  | Select i =>
      match images s !! i with
      | Some img => set_gallery (images s) (Some img) s
      | None => s
      end
  end.

Definition react_all (s : State) (actions : list Action) : State :=
  fold_left react actions s.

End Host.

(** Nothing to generate from: a blank prompt and no reference. *)
Definition nothing_given (s : State) : bool :=
  Studio.is_blank (prompt s)
  && negb (from_option truthy false (mainImageRef s))
  && bool_decide (subjectRefs s = [])
  && bool_decide (styleRef s = None)
  && bool_decide (sceneRef s = None).

(** The references [handleGenerate] passes on. *)
Definition references_of (s : State) : ImageReferences :=
  mkImageReferences (subjectRefs s) (styleRef s) (sceneRef s)
                    (or_undefined (mainImageRef s)).

(** At most five subjects; an image is selected exactly when there are
    images, and it is one of them. *)
Definition well_formed (s : State) : Prop :=
  (length (subjectRefs s) <= 5)%nat
  /\ match selectedImage s with
     | Some img => img ∈ images s
     | None => images s = []
     end.

(** The state of a new session. *)
Definition empty_studio : State :=
  mkState "" "16:9" [] None None None None "" [] None [] [].

End Visual.

(* ================================================================== *)
(** * The player's video download ([handleDownloadMp4],
      AudioPlayer, CinemaStudio.tsx lines 216-234) *)
(* ================================================================== *)

Module Player.

Inductive Effect :=
  | SetIsGeneratingMp4 (b : bool)
  | CreateObjectURL (blob : Blob)
  | Click (href download : string)      (* [a.click()] *)
  | RevokeObjectURL (url : string)
  | ConsoleError.

Section Host.

(** [URL.createObjectURL] *)
Variable createObjectURL : Blob -> string.

(** [handleDownloadMp4], given how the promise of [audioBlobToVideo]
    ends; while it is pending the [await] does not return. *)
Definition handleDownloadMp4 (generation : Packager.Generation)
    (promise : Mux.PromiseState) : list Effect :=
  SetIsGeneratingMp4 true
  :: match promise with
     | Mux.Pending => []
     | Mux.Resolved mp4Blob =>
         let url := createObjectURL mp4Blob in
         let ext := Packager.video_ext mp4Blob in
         [CreateObjectURL mp4Blob;
          Click url ("voxgem-" +:+ substring 0 8 (Packager.id generation)
                     +:+ "." +:+ ext);
          RevokeObjectURL url;
          SetIsGeneratingMp4 false]
     | Mux.Rejected _ => [ConsoleError; SetIsGeneratingMp4 false]
     end.

(** The handler on top of the muxer, for the events the host delivers
    to the muxer's handlers. *)
Definition download_video (measureText : string -> Q)
    (context2d_available mp4_supported : bool)
    (generation : Packager.Generation) (events : list Mux.Event)
  : list Effect :=
  handleDownloadMp4 generation
    (Mux.promise
       (Mux.run mp4_supported
          (Mux.audioBlobToVideo measureText context2d_available
             (Packager.blob generation) (Packager.text generation)
             (Packager.voiceId generation))
          events)).

End Host.

(** The downloads offered. *)
Definition clicks (log : list Effect) : list (string * string) :=
  omap (fun e => match e with
                 | Click href download => Some (href, download)
                 | _ => None
                 end) log.

End Player.

(* ================================================================== *)
(** * Properties of the byte conversions *)
(* ================================================================== *)

Lemma Z_of_byte_of_Z z : Z_of_byte (byte_of_Z z) = z mod 256.
Proof.
  unfold Z_of_byte, byte_of_Z.
  assert (H : 0 <= z mod 256 < 256) by (apply Z.mod_pos_bound; lia).
  destruct (Byte.of_N (Z.to_N (z mod 256))) as [b|] eqn:E.
  - apply Byte.to_of_N in E. rewrite E. lia.
  - apply Byte.of_N_None_iff in E. lia.
Qed.

Lemma byte_of_Z_of_byte b : byte_of_Z (Z_of_byte b) = b.
Proof.
  unfold Z_of_byte, byte_of_Z.
  pose proof (Byte.to_N_bounded b).
  rewrite Z.mod_small by lia. rewrite N2Z.id, Byte.of_to_N. reflexivity.
Qed.


(* ================================================================== *)
(** * Properties of string concatenation *)
(* ================================================================== *)

Lemma string_app_cons (x : ascii) (a b : string) :
  String x a +:+ b = String x (a +:+ b).
Proof. reflexivity. Qed.

Lemma string_app_assoc (a b c : string) : (a +:+ b) +:+ c = a +:+ (b +:+ c).
Proof.
  induction a as [|x a IH]; [reflexivity|].
  by rewrite !string_app_cons, IH.
Qed.

Lemma string_app_nil_r (a : string) : a +:+ "" = a.
Proof.
  induction a as [|x a IH]; [reflexivity|]. by rewrite string_app_cons, IH.
Qed.

(* ================================================================== *)
(** * Properties of the WAV encoder *)
(* ================================================================== *)

Module WavProofs.
Import Wav.

Lemma le_bytes_2 v :
  le_bytes 2 v = [byte_of_Z v; byte_of_Z (v / 2 ^ 8)].
Proof.
  unfold le_bytes. cbn [seq map]. change (2 ^ (8 * Z.of_nat 0)) with 1.
  by rewrite Z.div_1_r.
Qed.

Lemma le_bytes_4 v :
  le_bytes 4 v = [byte_of_Z v; byte_of_Z (v / 2 ^ 8);
                  byte_of_Z (v / 2 ^ 16); byte_of_Z (v / 2 ^ 24)].
Proof.
  unfold le_bytes. cbn [seq map]. change (2 ^ (8 * Z.of_nat 0)) with 1.
  by rewrite Z.div_1_r.
Qed.

Lemma le_uint_le_bytes_2 v : 0 <= v < 2 ^ 16 -> le_uint (le_bytes 2 v) = v.
Proof.
  intros Hv. rewrite le_bytes_2. cbn [le_uint]. rewrite !Z_of_byte_of_Z.
  change (2 ^ 8) with 256.
  rewrite (Z.mod_small (v / 256))
    by (split; [apply Z.div_pos; lia | apply Z.div_lt_upper_bound; lia]).
  pose proof (Z.div_mod v 256). lia.
Qed.

Lemma le_uint_le_bytes_4 v : 0 <= v < 2 ^ 32 -> le_uint (le_bytes 4 v) = v.
Proof.
  intros Hv. rewrite le_bytes_4. cbn [le_uint]. rewrite !Z_of_byte_of_Z.
  change (2 ^ 8) with 256. change (2 ^ 16) with (256 * 256).
  change (2 ^ 24) with (256 * 256 * 256).
  rewrite <- !Z.div_div by lia.
  set (a := v / 256). set (b := a / 256). set (c := b / 256).
  pose proof (Z.div_mod v 256). pose proof (Z.div_mod a 256).
  pose proof (Z.div_mod b 256).
  assert (0 <= c < 256).
  { subst c b a. split; [repeat apply Z.div_pos; lia|].
    repeat (apply Z.div_lt_upper_bound; [lia|]). lia. }
  rewrite (Z.mod_small c) by lia. fold a b. lia.
Qed.

Lemma byteRate_eq r : r * 1 * 16 / 8 = r * 2.
Proof.
  replace (r * 1 * 16) with (r * 2 * 8) by lia. apply Z_div_mult; lia.
Qed.

Lemma pcmToWav_eq pcm r :
  pcmToWav pcm r = Some (mkBlob (wav_header (length pcm) r ++ pcm) "audio/wav").
Proof.
  unfold pcmToWav, new_ArrayBuffer.
  rewrite byteRate_eq.
  change (1 * 16 / 8) with 2.
  change (44 + length pcm)%nat with (Nat.iter 44 S (length pcm)).
  cbn [Nat.iter replicate].
  cbn -[byte_of_Z Z.modulo Z.div Z.pow Z.mul Z.add Z.of_nat wav_header].
  rewrite length_replicate, Nat.sub_0_r, Nat.leb_refl.
  rewrite drop_ge by (rewrite length_replicate; lia).
  rewrite app_nil_r.
  unfold wav_header. rewrite !le_bytes_4, !le_bytes_2.
  reflexivity.
Qed.

(** One byte of PCM at 24000 Hz: the 44 header bytes, then the byte. *)
Example pcmToWav_one_byte :
  option_map (fun wav => map Z_of_byte (blob_bytes wav))
             (pcmToWav ["001"%byte] 24000)
  = Some [82; 73; 70; 70; 37; 0; 0; 0; 87; 65; 86; 69;
          102; 109; 116; 32; 16; 0; 0; 0; 1; 0; 1; 0;
          192; 93; 0; 0; 128; 187; 0; 0; 2; 0; 16; 0;
          100; 97; 116; 97; 1; 0; 0; 0; 1].
Proof. vm_compute. reflexivity. Qed.

Lemma pcmToWav_total pcm r : is_Some (pcmToWav pcm r).
Proof. rewrite pcmToWav_eq. eauto. Qed.

Lemma wav_header_length n r : length (wav_header n r) = 44%nat.
Proof. reflexivity. Qed.

(** The header fields as a reader decodes them; the four-byte fields hold
    their value modulo [2 ^ 32]. *)
Lemma wav_header_fields n r pcm :
  let out := wav_header n r ++ pcm in
  slice 0 4 out = ascii_bytes "RIFF"
  /\ getUint32_le out 4 = (36 + Z.of_nat n) mod 2 ^ 32
  /\ slice 8 4 out = ascii_bytes "WAVE"
  /\ slice 12 4 out = ascii_bytes "fmt "
  /\ getUint32_le out 16 = 16
  /\ getUint16_le out 20 = 1
  /\ getUint16_le out 22 = 1
  /\ getUint32_le out 24 = r mod 2 ^ 32
  /\ getUint32_le out 28 = (r * 2) mod 2 ^ 32
  /\ getUint16_le out 32 = 2
  /\ getUint16_le out 34 = 16
  /\ slice 36 4 out = ascii_bytes "data"
  /\ getUint32_le out 40 = Z.of_nat n mod 2 ^ 32
  /\ drop 44 out = pcm.
Proof.
  cbv zeta. unfold getUint32_le, getUint16_le, slice, wav_header.
  pose proof (Z.mod_pos_bound (36 + Z.of_nat n) (2 ^ 32) ltac:(lia)).
  pose proof (Z.mod_pos_bound r (2 ^ 32) ltac:(lia)).
  pose proof (Z.mod_pos_bound (r * 2) (2 ^ 32) ltac:(lia)).
  pose proof (Z.mod_pos_bound (Z.of_nat n) (2 ^ 32) ltac:(lia)).
  repeat split;
    try reflexivity;
    lazymatch goal with
    | |- le_uint _ = ?v =>
        transitivity (le_uint (le_bytes 4 v));
        [reflexivity | apply le_uint_le_bytes_4; assumption]
    end.
Qed.

(** C1 (as amended): for every PCM byte sequence of length [n] and every
    sample rate [r > 0] such that [36 + n] and [r * 2] fit in 32 bits,
    [pcmToWav] returns a buffer of exactly [44 + n] bytes: the RIFF/WAVE
    header with little-endian fields (bytes 4-7 equal [36 + n], format
    code 1, one channel, sample rate [r], byte rate [r * 2], block align 2,
    16 bits per sample, bytes 40-43 equal [n]) followed by the PCM bytes
    verbatim from offset 44. *)
Theorem pcmToWav_layout (pcm : list byte) (r : Z) :
  0 < r -> r * 2 < 2 ^ 32 -> 36 + Z.of_nat (length pcm) < 2 ^ 32 ->
  exists wav,
    pcmToWav pcm r = Some wav
    /\ blob_type wav = "audio/wav"
    /\ length (blob_bytes wav) = (44 + length pcm)%nat
    /\ slice 0 4 (blob_bytes wav) = ascii_bytes "RIFF"
    /\ getUint32_le (blob_bytes wav) 4 = 36 + Z.of_nat (length pcm)
    /\ slice 8 4 (blob_bytes wav) = ascii_bytes "WAVE"
    /\ slice 12 4 (blob_bytes wav) = ascii_bytes "fmt "
    /\ getUint32_le (blob_bytes wav) 16 = 16
    /\ getUint16_le (blob_bytes wav) 20 = 1
    /\ getUint16_le (blob_bytes wav) 22 = 1
    /\ getUint32_le (blob_bytes wav) 24 = r
    /\ getUint32_le (blob_bytes wav) 28 = r * 2
    /\ getUint16_le (blob_bytes wav) 32 = 2
    /\ getUint16_le (blob_bytes wav) 34 = 16
    /\ slice 36 4 (blob_bytes wav) = ascii_bytes "data"
    /\ getUint32_le (blob_bytes wav) 40 = Z.of_nat (length pcm)
    /\ drop 44 (blob_bytes wav) = pcm.
Proof.
  intros Hr Hr2 Hn. eexists. split; [apply pcmToWav_eq|].
  cbn [blob_bytes blob_type].
  pose proof (wav_header_fields (length pcm) r pcm) as H. cbv zeta in H.
  rewrite !Z.mod_small in H by lia.
  split; [reflexivity|]. split; [|exact H].
  rewrite length_app, wav_header_length. reflexivity.
Qed.

(** The end-to-end scenario of the specification: 48,000 bytes at 24000 Hz
    give 48,044 bytes with 48,036 in bytes 4-7 and 48,000 in bytes 40-43. *)
Lemma pcmToWav_layout_witness :
  exists wav,
    pcmToWav (replicate (Z.to_nat 48000) "000"%byte) 24000 = Some wav
    /\ Z.of_nat (length (blob_bytes wav)) = 48044
    /\ getUint32_le (blob_bytes wav) 4 = 48036
    /\ getUint32_le (blob_bytes wav) 40 = 48000.
Proof.
  destruct (pcmToWav_layout (replicate (Z.to_nat 48000) "000"%byte) 24000)
    as (wav & Hw & _ & Hlen & _ & H4 & _ & _ & _ & _ & _ & _ & _ & _ & _ & _
        & H40 & _).
  - lia.
  - lia.
  - rewrite length_replicate. lia.
  - rewrite length_replicate in Hlen, H4, H40.
    exists wav. repeat split; [assumption | lia | lia | lia].
Defined.

(** C1 as stated fails for a rate that does not fit the 32-bit field:
    at [r = 2 ^ 32] the header declares sample rate 0. *)
Lemma pcmToWav_rate_field_wraps :
  exists wav,
    pcmToWav [] 4294967296 = Some wav
    /\ getUint32_le (blob_bytes wav) 24 = 0
    /\ getUint32_le (blob_bytes wav) 24 <> 4294967296.
Proof.
  eexists. split; [apply pcmToWav_eq|].
  cbn [blob_bytes]. split; [vm_compute; reflexivity | vm_compute; discriminate].
Qed.

(** C9: [pcmToWav] is deterministic: two calls on the same bytes and the
    same rate both return, and return the same byte-identical buffer. *)
Theorem pcmToWav_deterministic (pcm1 pcm2 : list byte) (r1 r2 : Z) :
  pcm1 = pcm2 -> r1 = r2 ->
  exists wav, pcmToWav pcm1 r1 = Some wav /\ pcmToWav pcm2 r2 = Some wav.
Proof. intros -> ->. eexists. split; apply pcmToWav_eq. Qed.

Lemma pcmToWav_deterministic_witness :
  exists wav,
    pcmToWav ["001"%byte; "002"%byte] 24000 = Some wav
    /\ pcmToWav ["001"%byte; "002"%byte] 24000 = Some wav.
Proof.
  apply (pcmToWav_deterministic ["001"%byte; "002"%byte]
           ["001"%byte; "002"%byte] 24000 24000); reflexivity.
Defined.

End WavProofs.

(* ================================================================== *)
(** * Properties of the base64 codec *)
(* ================================================================== *)

Module Base64Proofs.
Import Base64.
Local Open Scope N_scope.

(** ** The alphabet *)

Lemma elem_of_sextets64 i : i < 64 -> i ∈ sextets64.
Proof.
  intros Hi. unfold sextets64. apply list_elem_of_fmap.
  exists (N.to_nat i). split; [lia|]. apply elem_of_seq. lia.
Qed.

Lemma sextet_cases (P : N -> Prop) :
  Forall P sextets64 -> forall i, i < 64 -> P i.
Proof.
  intros H i Hi. apply elem_of_sextets64 in Hi.
  eapply (proj1 (Forall_forall P sextets64)) in H; eassumption.
Qed.

Ltac by_sextet_cases :=
  lazymatch goal with
  | |- forall i, i < 64 -> @?P i =>
      apply (sextet_cases P); unfold sextets64; cbn [seq map];
      repeat (apply Forall_cons; split; [reflexivity|]); constructor
  end.

Lemma b64_index_char : forall i, i < 64 -> b64_index (b64_char i) = Some i.
Proof. by_sextet_cases. Qed.

Lemma b64_char_not_space :
  forall i, i < 64 -> is_ascii_whitespace (b64_char i) = false.
Proof. by_sextet_cases. Qed.

Lemma b64_char_not_eq : forall i, i < 64 -> Ascii.eqb (b64_char i) "=" = false.
Proof. by_sextet_cases. Qed.

Lemma b64_index_lt c i : b64_index c = Some i -> i < 64.
Proof.
  unfold b64_index. cbv zeta. generalize (N_of_ascii c). intros n.
  destruct (N.leb_spec 65 n), (N.leb_spec n 90), (N.leb_spec 97 n),
    (N.leb_spec n 122), (N.leb_spec 48 n), (N.leb_spec n 57),
    (N.eqb_spec n 43), (N.eqb_spec n 47);
    cbn [andb]; intros [= <-]; lia.
Qed.

Lemma b64_index_eq_sign : b64_index "=" = None.
Proof. reflexivity. Qed.

Lemma b64_index_space c : is_ascii_whitespace c = true -> b64_index c = None.
Proof.
  unfold is_ascii_whitespace, b64_index. cbv zeta. intros H.
  repeat (apply orb_prop in H; destruct H as [H|H]);
    apply N.eqb_eq in H; rewrite H; reflexivity.
Qed.


(** The test vectors of RFC 4648, section 10. *)
Example btoa_rfc4648 :
  map btoa ["f"; "fo"; "foo"; "foob"; "fooba"; "foobar"]%string
  = ["Zg=="; "Zm8="; "Zm9v"; "Zm9vYg=="; "Zm9vYmE="; "Zm9vYmFy"]%string.
Proof. vm_compute. reflexivity. Qed.

Example atob_rfc4648 :
  map atob ["Zg=="; "Zm8="; "Zm9v"; "Zm9vYg=="; "Zm9vYmE="; "Zm9vYmFy"]%string
  = map Some ["f"; "fo"; "foo"; "foob"; "fooba"; "foobar"]%string.
Proof. vm_compute. reflexivity. Qed.

(** Padding is accepted only where it completes a group of four. *)
Example atob_padding :
  map atob ["QQ"; "QQ=="; "QQ="; "Q=Q="; "===="]%string
  = [Some "A"; Some "A"; None; None; None]%string.
Proof. vm_compute. reflexivity. Qed.

(** ** Lists three elements at a time *)

Lemma list_ind3 {A} (P : list A -> Prop) :
  P [] -> (forall a, P [a]) -> (forall a b, P [a; b]) ->
  (forall a b c l, P l -> P (a :: b :: c :: l)) ->
  forall l, P l.
Proof.
  intros H0 H1 H2 H3.
  refine (fix F l := match l with
                     | [] => H0
                     | [a] => H1 a
                     | [a; b] => H2 a b
                     | a :: b :: c :: r => H3 a b c r (F r)
                     end).
Qed.

Ltac div_lia := zify; Z.to_euclidean_division_equations; lia.

(** ** The encoder's output *)

Lemma b64_encode_split l :
  b64_encode l = map b64_char (sextets_of l) ++ padding l.
Proof.
  induction l as [| a | a b | a b c l IH] using list_ind3; try reflexivity.
  cbn [b64_encode sextets_of padding map app]. by rewrite IH.
Qed.

Lemma sextets_of_lt l :
  Forall (fun x => x < 256) l -> Forall (fun x => x < 64) (sextets_of l).
Proof.
  induction l as [| a | a b | a b c l IH] using list_ind3; intros H;
    cbn [sextets_of].
  - constructor.
  - inversion_clear H. repeat constructor; div_lia.
  - inversion_clear H as [|? ? ? H']. inversion_clear H'.
    repeat constructor; div_lia.
  - inversion_clear H as [|? ? ? H']. inversion_clear H' as [|? ? ? H''].
    inversion_clear H''.
    repeat (constructor; [div_lia|]). auto.
Qed.

Lemma sextets_of_length l : N.of_nat (length (sextets_of l)) mod 4 <> 1.
Proof.
  induction l as [| a | a b | a b c l IH] using list_ind3;
    cbn [sextets_of length]; [discriminate..|].
  intros H. apply IH. revert H. generalize (length (sextets_of l)).
  intros n. div_lia.
Qed.

Lemma b64_encode_length l : N.of_nat (length (b64_encode l)) mod 4 = 0.
Proof.
  induction l as [| a | a b | a b c l IH] using list_ind3;
    cbn [b64_encode length]; [reflexivity..|].
  revert IH. generalize (length (b64_encode l)). intros n. div_lia.
Qed.

Lemma padding_cases l :
  padding l = [] \/ padding l = ["="%char] \/ padding l = ["="%char; "="%char].
Proof.
  induction l as [| a | a b | a b c l IH] using list_ind3; cbn [padding]; auto.
Qed.

(** ** Decoding an encoder output *)

Lemma filter_all {A} (P : A -> Prop) `{!forall x, Decision (P x)} (l : list A) :
  Forall P l -> filter P l = l.
Proof.
  induction 1 as [|x l Hx _ IH]; [reflexivity|].
  rewrite filter_cons_True by assumption. by rewrite IH.
Qed.

Lemma b64_encode_no_space l :
  Forall (fun x => x < 256) l ->
  Forall (fun c => is_ascii_whitespace c = false) (b64_encode l).
Proof.
  intros H. rewrite b64_encode_split. apply Forall_app. split.
  - apply Forall_fmap. eapply Forall_impl; [apply sextets_of_lt, H|].
    intros x Hx. by apply b64_char_not_space.
  - destruct (padding_cases l) as [-> | [-> | ->]]; repeat constructor.
Qed.

Lemma ends_with_eq_snoc data c :
  ends_with_eq (data ++ [c]) = Ascii.eqb c "=".
Proof. unfold ends_with_eq. by rewrite last_snoc. Qed.

Lemma ends_with_eq_body sx :
  Forall (fun x => x < 64) sx -> ends_with_eq (map b64_char sx) = false.
Proof.
  destruct sx as [|x sx _] using rev_ind; [reflexivity|].
  intros H. apply Forall_app in H as [_ H]. inversion_clear H.
  rewrite map_app. cbn [map]. rewrite ends_with_eq_snoc.
  by apply b64_char_not_eq.
Qed.

Lemma remove_padding_encode l :
  Forall (fun x => x < 256) l ->
  remove_padding (b64_encode l) = map b64_char (sextets_of l).
Proof.
  intros H. unfold remove_padding. rewrite b64_encode_length. cbn [N.eqb].
  rewrite b64_encode_split.
  pose proof (ends_with_eq_body _ (sextets_of_lt _ H)) as Hbody.
  destruct (padding_cases l) as [-> | [-> | ->]].
  - rewrite app_nil_r, Hbody. reflexivity.
  - rewrite ends_with_eq_snoc. cbn [Ascii.eqb Bool.eqb].
    cbv zeta. rewrite removelast_last, Hbody. reflexivity.
  - change [ "="%char; "="%char ] with ([ "="%char ] ++ [ "="%char ]).
    rewrite app_assoc, ends_with_eq_snoc. cbn [Ascii.eqb Bool.eqb].
    cbv zeta. rewrite removelast_last, ends_with_eq_snoc.
    cbn [Ascii.eqb Bool.eqb]. by rewrite removelast_last.
Qed.

Lemma mapM_b64_index_char sx :
  Forall (fun x => x < 64) sx -> mapM b64_index (map b64_char sx) = Some sx.
Proof.
  induction 1 as [|x sx Hx _ IH]; [reflexivity|].
  cbn [map mapM]. rewrite b64_index_char by assumption.
  cbn. rewrite IH. reflexivity.
Qed.

Lemma decode_step_0 buffer output x :
  decode_step (buffer, 0, output) x = (buffer * 64 + x, 6, output).
Proof. reflexivity. Qed.

Lemma decode_step_6 buffer output x :
  decode_step (buffer, 6, output) x = (buffer * 64 + x, 12, output).
Proof. reflexivity. Qed.

Lemma decode_step_12 buffer output x :
  decode_step (buffer, 12, output) x = (buffer * 64 + x, 18, output).
Proof. reflexivity. Qed.

Lemma decode_step_18 buffer output x :
  decode_step (buffer, 18, output) x
  = (0, 0, output ++ [byte_of_N ((buffer * 64 + x) / 65536);
                      byte_of_N ((buffer * 64 + x) / 256 mod 256);
                      byte_of_N ((buffer * 64 + x) mod 256)]).
Proof. reflexivity. Qed.

Lemma decode_sextets_of l :
  Forall (fun x => x < 256) l -> forall output,
  decode_finish (fold_left decode_step (sextets_of l) (0, 0, output))
  = output ++ map byte_of_N l.
Proof.
  induction l as [| a | a b | a b c l IH] using list_ind3; intros H output;
    cbn [sextets_of fold_left map].
  - cbn. by rewrite app_nil_r.
  - inversion_clear H.
    rewrite decode_step_0, decode_step_6. cbn [decode_finish N.eqb Pos.eqb].
    do 3 f_equal. div_lia.
  - inversion_clear H as [|? ? ? H']. inversion_clear H'.
    rewrite decode_step_0, decode_step_6, decode_step_12.
    cbn [decode_finish N.eqb Pos.eqb].
    set (B := (_ * 64 + _ mod 16 * 4)).
    assert (HB : B = 4 * (a * 256 + b)) by (subst B; div_lia).
    rewrite HB. do 2 f_equal; [f_equal; div_lia|]. do 2 f_equal. div_lia.
  - inversion_clear H as [|? ? ? H']. inversion_clear H' as [|? ? ? H''].
    inversion_clear H'' as [|? ? ? H3].
    rewrite decode_step_0, decode_step_6, decode_step_12, decode_step_18.
    rewrite IH by assumption. rewrite <- app_assoc. f_equal.
    set (B := (_ * 64 + _ mod 64)).
    assert (HB : B = a * 65536 + b * 256 + c) by (subst B; div_lia).
    rewrite HB. cbn [app]. repeat f_equal; div_lia.
Qed.

Lemma atob_b64_encode l :
  Forall (fun x => x < 256) l ->
  atob (string_of_list_ascii (b64_encode l))
  = Some (string_of_list_ascii (map ascii_of_byte (map byte_of_N l))).
Proof.
  intros H. unfold atob. rewrite list_ascii_of_string_of_list_ascii.
  rewrite (filter_all _ _ (b64_encode_no_space _ H)).
  rewrite remove_padding_encode by assumption.
  rewrite length_map.
  destruct (N.eqb_spec (N.of_nat (length (sextets_of l)) mod 4) 1) as [E|_];
    [by apply sextets_of_length in E|].
  rewrite mapM_b64_index_char by (by apply sextets_of_lt).
  cbn [mbind option_bind]. rewrite decode_sextets_of by assumption.
  reflexivity.
Qed.

Lemma byte_roundtrip (b : byte) :
  byte_of_Z (Z.of_N (N_of_ascii (ascii_of_byte
    (byte_of_N (N_of_ascii (ascii_of_byte b)))))) = b.
Proof. destruct b; reflexivity. Qed.

(** C8: decoding the standard padded base64 encoding of any byte
    sequence, the empty one included, returns exactly that sequence. *)
Theorem decodeBase64_encode (bytes : list byte) :
  decodeBase64 (encode bytes) = Some bytes.
Proof.
  unfold decodeBase64, encode, btoa.
  rewrite list_ascii_of_string_of_list_ascii, map_map.
  rewrite atob_b64_encode.
  - cbn [mbind option_bind]. rewrite list_ascii_of_string_of_list_ascii.
    rewrite !map_map. f_equal.
    rewrite <- (map_id bytes) at 2. apply map_ext. intros b.
    apply byte_roundtrip.
  - apply Forall_fmap, Forall_forall. intros b _. apply N_ascii_bounded.
Qed.


(** ** When decoding fails *)

Lemma decodeBase64_None base64 : decodeBase64 base64 = None <-> atob base64 = None.
Proof.
  unfold decodeBase64. destruct (atob base64); cbn; split; congruence.
Qed.

Lemma mapM_b64_index_None data :
  mapM b64_index data = None <-> exists c, c ∈ data /\ b64_index c = None.
Proof.
  rewrite eq_None_not_Some, mapM_is_Some. split.
  - intros H. apply not_Forall_Exists in H; [|apply _].
    apply Exists_exists in H as (c & Hc & Hn). exists c. split; [done|].
    cbn in Hn. by apply eq_None_not_Some.
  - intros (c & Hc & Hn) HF. rewrite Forall_forall in HF.
    specialize (HF c Hc). cbn in HF. rewrite Hn in HF. by destruct HF.
Qed.

Lemma atob_None base64 :
  atob base64 = None <->
  let data := remove_padding
                (filter (fun c => is_ascii_whitespace c = false) (chars base64)) in
  N.of_nat (length data) mod 4 = 1 \/ exists c, c ∈ data /\ b64_index c = None.
Proof.
  cbv zeta. unfold atob. fold (chars base64).
  set (data := remove_padding _).
  destruct (N.eqb_spec (N.of_nat (length data) mod 4) 1) as [E|E].
  - split; auto.
  - rewrite <- mapM_b64_index_None.
    destruct (mapM b64_index data); cbn; split; try congruence; auto.
    intros [?|?]; congruence.
Qed.

Lemma ends_with_eq_true data :
  ends_with_eq data = true -> data = removelast data ++ ["="%char].
Proof.
  destruct data as [|c data _] using rev_ind; [discriminate|].
  rewrite ends_with_eq_snoc, removelast_last. intros H.
  apply Ascii.eqb_eq in H. by subst.
Qed.

Lemma elem_of_removelast data c :
  ends_with_eq data = true -> c ∈ data -> c <> "="%char -> c ∈ removelast data.
Proof.
  intros He Hc Hne. apply ends_with_eq_true in He. rewrite He in Hc.
  apply elem_of_app in Hc as [Hc|Hc]; [done|].
  apply list_elem_of_singleton in Hc. done.
Qed.

Lemma elem_of_remove_padding data c :
  c ∈ data -> c <> "="%char -> c ∈ remove_padding data.
Proof.
  intros Hc Hne. unfold remove_padding.
  destruct (_ =? 0); [|done].
  destruct (ends_with_eq data) eqn:E1; [|done]. cbv zeta.
  destruct (ends_with_eq (removelast data)) eqn:E2;
    auto using elem_of_removelast.
Qed.

Lemma ends_with_eq_alphabet data :
  Forall (fun c => is_Some (b64_index c)) data -> ends_with_eq data = false.
Proof.
  destruct data as [|c data _] using rev_ind; [reflexivity|].
  intros H. apply Forall_app in H as [_ H]. inversion_clear H as [|? ? Hc _].
  rewrite ends_with_eq_snoc. destruct (Ascii.eqb_spec c "=") as [->|]; [|done].
  by destruct Hc.
Qed.

(** ** When decoding succeeds *)

Lemma list_ind4 {A} (P : list A -> Prop) :
  P [] -> (forall a, P [a]) -> (forall a b, P [a; b]) ->
  (forall a b c, P [a; b; c]) ->
  (forall a b c d l, P l -> P (a :: b :: c :: d :: l)) ->
  forall l, P l.
Proof.
  intros H0 H1 H2 H3 H4.
  refine (fix F l := match l with
                     | [] => H0
                     | [a] => H1 a
                     | [a; b] => H2 a b
                     | [a; b; c] => H3 a b c
                     | a :: b :: c :: d :: r => H4 a b c d r (F r)
                     end).
Qed.

Lemma mapM_b64_index_lt data sextets :
  mapM b64_index data = Some sextets ->
  length sextets = length data /\ Forall (fun x => x < 64) sextets.
Proof.
  intros H. apply mapM_Some in H. split.
  - symmetry. by eapply Forall2_length.
  - induction H as [|c x data sextets Hc _ IH]; constructor; [|done].
    by eapply b64_index_lt.
Qed.

Lemma octets_lt sextets :
  Forall (fun x => x < 64) sextets ->
  Forall (fun x => x < 256) (Rfc4648.octets sextets).
Proof.
  induction sextets as [| a | a b | a b c | a b c d l IH] using list_ind4;
    intros H; cbn [Rfc4648.octets].
  - constructor.
  - constructor.
  - inversion_clear H as [|? ? ? H']. inversion_clear H'.
    repeat constructor; div_lia.
  - inversion_clear H as [|? ? ? H']. inversion_clear H' as [|? ? ? H''].
    inversion_clear H''. repeat constructor; div_lia.
  - inversion_clear H as [|? ? ? H']. inversion_clear H' as [|? ? ? H''].
    inversion_clear H'' as [|? ? ? H3]. inversion_clear H3.
    repeat (constructor; [div_lia|]). auto.
Qed.

Lemma octets_length sextets :
  length (Rfc4648.octets sextets) = (3 * length sextets / 4)%nat.
Proof.
  induction sextets as [| a | a b | a b c | a b c d l IH] using list_ind4;
    cbn [Rfc4648.octets length]; [reflexivity..|].
  rewrite IH. generalize (length l). intros n.
  replace (3 * S (S (S (S n))))%nat with (3 * n + 3 * 4)%nat by lia.
  rewrite Nat.div_add by lia. lia.
Qed.

(** Encoding the octets gives the text back, its unused bits cleared. *)
Lemma sextets_of_octets sextets :
  Forall (fun x => x < 64) sextets ->
  N.of_nat (length sextets) mod 4 <> 1 ->
  sextets_of (Rfc4648.octets sextets) = Rfc4648.canonical sextets.
Proof.
  induction sextets as [| a | a b | a b c | a b c d l IH] using list_ind4;
    intros H Hlen; cbn [Rfc4648.octets Rfc4648.canonical sextets_of].
  - reflexivity.
  - done.
  - inversion_clear H as [|? ? ? H']. inversion_clear H'.
    repeat f_equal; div_lia.
  - inversion_clear H as [|? ? ? H']. inversion_clear H' as [|? ? ? H''].
    inversion_clear H''. repeat f_equal; div_lia.
  - inversion_clear H as [|? ? ? H']. inversion_clear H' as [|? ? ? H''].
    inversion_clear H'' as [|? ? ? H3]. inversion_clear H3.
    rewrite IH; [repeat f_equal; div_lia|done|].
    intros E. apply Hlen. revert E. cbn [length].
    generalize (length l). intros n. div_lia.
Qed.

(** The bit buffer of [atob] yields the octets. *)
Lemma decode_octets sextets :
  Forall (fun x => x < 64) sextets -> forall output,
  decode_finish (fold_left decode_step sextets (0, 0, output))
  = output ++ map byte_of_N (Rfc4648.octets sextets).
Proof.
  induction sextets as [| a | a b | a b c | a b c d l IH] using list_ind4;
    intros H output; cbn [Rfc4648.octets fold_left map].
  - cbn. by rewrite app_nil_r.
  - rewrite decode_step_0. cbn. by rewrite app_nil_r.
  - inversion_clear H as [|? ? ? H']. inversion_clear H'.
    rewrite decode_step_0, decode_step_6. cbn [decode_finish N.eqb Pos.eqb].
    do 3 f_equal. div_lia.
  - inversion_clear H as [|? ? ? H']. inversion_clear H' as [|? ? ? H''].
    inversion_clear H''.
    rewrite decode_step_0, decode_step_6, decode_step_12.
    cbn [decode_finish N.eqb Pos.eqb].
    do 2 f_equal; [f_equal; div_lia|]. do 2 f_equal. div_lia.
  - inversion_clear H as [|? ? ? H']. inversion_clear H' as [|? ? ? H''].
    inversion_clear H'' as [|? ? ? H3]. inversion_clear H3.
    rewrite decode_step_0, decode_step_6, decode_step_12, decode_step_18.
    rewrite IH by assumption. rewrite <- app_assoc. f_equal.
    cbn [app]. repeat f_equal; div_lia.
Qed.

Lemma code_of_byte_of_N x :
  x < 256 -> N_of_ascii (ascii_of_byte (byte_of_N x)) = x.
Proof.
  intros H. unfold byte_of_N.
  rewrite <- (N2Z.id (N_of_ascii _)).
  assert (Hz : Z.of_N (N_of_ascii (ascii_of_byte (byte_of_Z (Z.of_N x))))
               = Z_of_byte (byte_of_Z (Z.of_N x))).
  { unfold Z_of_byte. f_equal. by destruct (byte_of_Z (Z.of_N x)). }
  rewrite Hz, Z_of_byte_of_Z, Z.mod_small by lia. lia.
Qed.

Lemma decodeBase64_Some base64 sextets :
  let data := remove_padding
                (filter (fun c => is_ascii_whitespace c = false) (chars base64)) in
  N.of_nat (length data) mod 4 <> 1 ->
  mapM b64_index data = Some sextets ->
  decodeBase64 base64 = Some (map byte_of_N (Rfc4648.octets sextets)).
Proof.
  cbv zeta. intros Hlen Hs. unfold decodeBase64, atob. fold (chars base64).
  destruct (N.eqb_spec (N.of_nat (length
              (remove_padding
                 (filter (fun c => is_ascii_whitespace c = false)
                         (chars base64)))) mod 4) 1) as [E|_]; [done|].
  rewrite Hs. cbn [mbind option_bind].
  rewrite decode_octets by (by eapply mapM_b64_index_lt).
  rewrite list_ascii_of_string_of_list_ascii, map_map. cbn [app].
  f_equal. rewrite <- (map_id (map byte_of_N _)) at 2.
  apply map_ext. intros b. by destruct b.
Qed.

(** C5 (as amended): [decodeBase64] fails exactly when, after ASCII
    whitespace is removed and, the remaining length being a multiple of
    four, one or two trailing [=] are removed, the remaining text has a
    length that leaves remainder 1 modulo 4 or holds a character outside
    [A-Za-z0-9+/]. So it fails on every input holding a character that is
    neither in the alphabet, nor [=], nor ASCII whitespace; and on an input
    made of alphabet characters only it fails exactly when the length
    leaves remainder 1 modulo 4. In every other case it succeeds and
    returns the decoded byte sequence: for [n] remaining characters the
    [3 n / 4] (rounded down) bytes that their 6-bit values stand for, four
    characters giving three bytes; encoding these bytes again gives the
    remaining characters back, the unused low bits of the last one
    cleared, followed by the padding. *)
Theorem decodeBase64_fails_iff (base64 : string) :
  let data := remove_padding
                (filter (fun c => is_ascii_whitespace c = false) (chars base64)) in
  (decodeBase64 base64 = None <->
     N.of_nat (length data) mod 4 = 1
     \/ exists c, c ∈ data /\ b64_index c = None)
  /\ ((exists c, c ∈ chars base64 /\ b64_index c = None
                 /\ c <> "="%char /\ is_ascii_whitespace c = false) ->
      decodeBase64 base64 = None)
  /\ (Forall (fun c => is_Some (b64_index c)) (chars base64) ->
      (decodeBase64 base64 = None <->
         N.of_nat (length (chars base64)) mod 4 = 1))
  /\ (N.of_nat (length data) mod 4 <> 1 ->
      (forall c, c ∈ data -> is_Some (b64_index c)) ->
      exists sextets bytes,
        mapM b64_index data = Some sextets
        /\ decodeBase64 base64 = Some bytes
        /\ bytes = map byte_of_N (Rfc4648.octets sextets)
        /\ length bytes = (3 * length data / 4)%nat
        /\ chars (encode bytes)
           = map b64_char (Rfc4648.canonical sextets)
             ++ padding (Rfc4648.octets sextets)).
Proof.
  cbv zeta. rewrite decodeBase64_None. split; [apply atob_None|]. split.
  { intros (c & Hc & Hn & Hne & Hsp). apply atob_None. right. exists c.
    split; [|done]. apply elem_of_remove_padding; [|done].
    apply list_elem_of_filter. done. }
  split.
  { intros HF. rewrite atob_None. cbv zeta.
    rewrite filter_all.
    2:{ eapply Forall_impl; [exact HF|]. intros c Hc. cbn beta in Hc.
        destruct (is_ascii_whitespace c) eqn:E; [|done].
        apply b64_index_space in E. rewrite E in Hc. by destruct Hc. }
    assert (Hrp : remove_padding (chars base64) = chars base64).
    { unfold remove_padding. rewrite ends_with_eq_alphabet by done.
      by destruct (_ =? 0). }
    rewrite Hrp. split; [|auto].
    intros [H|(c & Hc & Hn)]; [done|].
    rewrite Forall_forall in HF. specialize (HF c Hc).
    rewrite Hn in HF. by destruct HF. }
  set (data := remove_padding _). intros Hlen Hall.
  destruct (mapM b64_index data) as [sextets|] eqn:Hs.
  2:{ apply mapM_b64_index_None in Hs as (c & Hc & Hn).
      specialize (Hall c Hc). rewrite Hn in Hall. by destruct Hall. }
  destruct (mapM_b64_index_lt _ _ Hs) as [Hl Hlt].
  exists sextets, (map byte_of_N (Rfc4648.octets sextets)).
  split; [done|]. split; [by apply decodeBase64_Some|]. split; [done|].
  split; [by rewrite length_map, octets_length, Hl|].
  unfold chars at 1. unfold encode, btoa.
  rewrite !list_ascii_of_string_of_list_ascii, !map_map.
  assert (Hcodes : map (fun x => N_of_ascii (ascii_of_byte (byte_of_N x)))
                       (Rfc4648.octets sextets)
                   = Rfc4648.octets sextets).
  { rewrite <- (map_id (Rfc4648.octets sextets)) at 2.
    apply map_ext_in. intros x Hx.
    pose proof (octets_lt _ Hlt) as Ho. rewrite Forall_forall in Ho.
    apply code_of_byte_of_N, Ho. by apply list_elem_of_In. }
  rewrite Hcodes, b64_encode_split, sextets_of_octets; [done|done|].
  by rewrite Hl.
Qed.

Lemma decodeBase64_fails_iff_witness :
  decodeBase64 "QUJDR" = None
  /\ exists bytes, decodeBase64 " QUI=" = Some bytes /\ length bytes = 2%nat.
Proof.
  split.
  - apply (proj1 (proj2 (proj2 (decodeBase64_fails_iff "QUJDR")))).
    + repeat constructor; eexists; reflexivity.
    + reflexivity.
  - destruct (proj2 (proj2 (proj2 (decodeBase64_fails_iff " QUI="))))
      as (sextets & bytes & _ & Hb & _ & Hl & _).
    + vm_compute. discriminate.
    + intros c Hc. change (c ∈ ["Q"; "U"; "I"]%char) in Hc.
      repeat (apply elem_of_cons in Hc as [->|Hc]; [by eexists|]).
      by apply elem_of_nil in Hc.
    + exists bytes. split; [exact Hb|exact Hl].
Defined.

(** C5 as stated fails: every character of ["A"] is in the base64
    alphabet, and decoding fails. *)
Lemma decodeBase64_alphabet_only_fails :
  Forall (fun c => is_Some (b64_index c)) (chars "A")
  /\ decodeBase64 "A" = None.
Proof. split; [repeat constructor; eexists; reflexivity | reflexivity]. Qed.

(** The other direction fails too: a space is outside the alphabet, and
    decoding succeeds. *)
Example decodeBase64_whitespace_accepted :
  decodeBase64 "QUI= " = Some ["A"%byte; "B"%byte].
Proof. reflexivity. Qed.

End Base64Proofs.

(* ================================================================== *)
(** * Properties of the still-frame word wrap *)
(* ================================================================== *)

Module FrameProofs.
Import Frame.

Lemma concat_strings_app l1 l2 :
  concat_strings (l1 ++ l2) = concat_strings l1 +:+ concat_strings l2.
Proof.
  induction l1 as [|x l1 IH]; cbn [app concat_strings]; [reflexivity|].
  by rewrite IH, string_app_assoc.
Qed.

Example split_space_example :
  split_space "a b  c " = ["a"; "b"; ""; "c"; ""]%string.
Proof. reflexivity. Qed.

Lemma split_space_nonempty text : split_space text <> [].
Proof.
  induction text as [|c text IH]; cbn; [discriminate|].
  destruct (Ascii.eqb c " "); [discriminate|].
  destruct (split_space text); discriminate.
Qed.

(** The first piece is the text up to its first space. *)
Lemma split_space_first text :
  exists first words rest,
    split_space text = first :: words
    /\ text = first +:+ rest
    /\ Forall (fun c => c <> " "%char) (list_ascii_of_string first)
    /\ (rest = ""%string \/ exists rest', rest = String " " rest').
Proof.
  induction text as [|c text (first & words & rest & Hs & Ht & Hf & Hr)].
  - exists ""%string, [], ""%string. repeat split; [constructor|by left].
  - cbn [split_space]. destruct (Ascii.eqb_spec c " ") as [->|Hc].
    + exists ""%string, (split_space text), (String " " text).
      repeat split; [constructor|right; eauto].
    + rewrite Hs. exists (String c first), words, rest.
      split; [done|]. split; [by rewrite string_app_cons, <- Ht|].
      split; [by constructor|done].
Qed.

(** Splitting at the spaces and putting a space behind every piece
    gives the text back, followed by one space. *)
Lemma split_space_spaced (text : string) :
  concat_strings (spaced (split_space text)) = text +:+ " ".
Proof.
  induction text as [|c text IH]; [reflexivity|].
  cbn [split_space]. destruct (Ascii.eqb_spec c " ") as [->|Hc].
  - cbn [spaced map concat_strings]. fold (spaced (split_space text)).
    by rewrite IH.
  - destruct (split_space text) as [|w ws] eqn:E;
      [by apply split_space_nonempty in E|].
    cbn [spaced map concat_strings] in *. fold (spaced ws) in *.
    by rewrite !string_app_cons, IH.
Qed.

Ltac geometry :=
  change (height / 2 - 50) with 310 in *;
  change (height - 100) with 620 in *;
  change lineHeight with 45 in *.

Section WordWrap.

Variable measureText : string -> Q.

(** ** One iteration after the first *)

Lemma wrap_step_cases n word st :
  let st' := wrap_step measureText (S n) word st in
  (st' = mkWrap (word +:+ " ") (y st + lineHeight)
                (drawn st ++ [fillText (line st) 60 (y st)]))
  \/ (st' = mkWrap (line st +:+ word +:+ " ") (y st) (drawn st)
      /\ (measureText (line st +:+ word +:+ " ") <= inject_Z maxWidth)%Q).
Proof.
  cbv zeta. unfold wrap_step. cbn [Nat.ltb Nat.leb]. rewrite andb_true_r.
  destruct (Qle_bool _ _) eqn:E; cbn [negb]; [right|left; reflexivity].
  split; [reflexivity|]. by apply Qle_bool_iff.
Qed.

(** The first iteration never flushes. *)
Lemma wrap_step_first word st :
  wrap_step measureText 0 word st
  = mkWrap (line st +:+ word +:+ " ") (y st) (drawn st).
Proof. unfold wrap_step. cbn [Nat.ltb Nat.leb]. by rewrite andb_false_r. Qed.

(** ** Line widths *)

Lemma wrap_loop_ok all n words st :
  (forall w, w ∈ words -> w ∈ all) ->
  Forall (fun l => line_ok measureText all (ft_text l)) (drawn st) ->
  line_ok measureText all (line st) ->
  let st' := wrap_loop measureText (S n) words st in
  Forall (fun l => line_ok measureText all (ft_text l)) (drawn st')
  /\ line_ok measureText all (line st').
Proof.
  cbv zeta. revert n st.
  induction words as [|word rest IH]; intros n st Hall Hd Hl; [done|].
  cbn [wrap_loop].
  assert (Hnext : Forall (fun l => line_ok measureText all (ft_text l))
                    (drawn (wrap_step measureText (S n) word st))
                  /\ line_ok measureText all (line (wrap_step measureText (S n) word st))).
  { destruct (wrap_step_cases n word st) as [-> | [-> Hfit]]; cbn.
    - split.
      + apply Forall_app. split; [done|]. by constructor.
      + right. exists word. split; [|done]. apply Hall. by left.
    - split; [done|]. by left. }
  destruct Hnext as [Hd' Hl'].
  destruct (y _ >? height - 100); [done|].
  apply IH; [|done..]. intros w Hw. apply Hall. by right.
Qed.

(** ** Line positions *)

Lemma placed_snoc lines t :
  placed lines ->
  placed (lines ++ [fillText t 60
                      (height / 2 - 50 + lineHeight * Z.of_nat (length lines))]).
Proof.
  intros H i l Hi. destruct (decide (i < length lines)%nat) as [Hlt|Hge].
  - rewrite lookup_app_l in Hi by done. by apply H.
  - rewrite lookup_app_r in Hi by lia.
    destruct (i - length lines)%nat as [|k] eqn:E; [|by destruct k].
    injection Hi as <-. cbn [ft_x ft_y]. split; [done|]. do 3 f_equal. lia.
Qed.

Lemma wrap_loop_placed n words st :
  y st = height / 2 - 50 + lineHeight * Z.of_nat (length (drawn st)) ->
  y st <= height - 100 ->
  placed (drawn st) ->
  let st' := wrap_loop measureText (S n) words st in
  y st' = height / 2 - 50 + lineHeight * Z.of_nat (length (drawn st'))
  /\ (length (drawn st') <= 7)%nat
  /\ placed (drawn st').
Proof.
  cbv zeta. revert n st.
  induction words as [|word rest IH]; intros n st Hy Hle Hp.
  - cbn [wrap_loop]. split; [done|]. split; [|done].
    geometry. lia.
  - cbn [wrap_loop].
    destruct (wrap_step_cases n word st) as [-> | [-> Hfit]]; cbn [y drawn line].
    + assert (Hy' : y st + lineHeight
                    = height / 2 - 50
                      + lineHeight * Z.of_nat (length (drawn st ++ [fillText (line st) 60 (y st)]))).
      { rewrite length_app. cbn [length]. rewrite Hy. geometry. lia. }
      assert (Hp' : placed (drawn st ++ [fillText (line st) 60 (y st)])).
      { rewrite Hy at 1. by apply placed_snoc. }
      destruct (Z.gtb_spec (y st + lineHeight) (height - 100)) as [Hgt|Hngt].
      * cbn [y drawn]. split; [done|]. split; [|done].
        rewrite length_app in *. cbn [length] in *. geometry. lia.
      * apply IH; cbn [y drawn]; done.
    + destruct (Z.gtb_spec (y st) (height - 100)) as [Hgt|Hngt]; [lia|].
      apply IH; cbn [y drawn]; done.
Qed.

(** ** What is drawn: a prefix of the words, nothing lost in between *)

Lemma wrap_loop_content n words st :
  y st <= height - 100 ->
  let st' := wrap_loop measureText (S n) words st in
  exists m, (m <= length words)%nat
    /\ concat_strings (line_texts (drawn st')) +:+ line st'
       = (concat_strings (line_texts (drawn st)) +:+ line st)
         +:+ concat_strings (spaced (take m words))
    /\ ((m < length words)%nat -> y st' > height - 100).
Proof.
  cbv zeta. revert n st.
  induction words as [|word rest IH]; intros n st Hle.
  - exists 0%nat. cbn. rewrite string_app_nil_r. split; [lia|]. split; [done|lia].
  - cbn [wrap_loop].
    set (st1 := wrap_step measureText (S n) word st).
    assert (H1 : concat_strings (line_texts (drawn st1)) +:+ line st1
                 = (concat_strings (line_texts (drawn st)) +:+ line st)
                   +:+ (word +:+ " ")).
    { subst st1.
      destruct (wrap_step_cases n word st) as [-> | [-> Hfit]]; cbn [y drawn line].
      - unfold line_texts. rewrite map_app, concat_strings_app. cbn.
        by rewrite string_app_nil_r.
      - by rewrite !string_app_assoc. }
    destruct (Z.gtb_spec (y st1) (height - 100)) as [Hgt|Hngt].
    + exists 1%nat. cbn [length take spaced map concat_strings].
      rewrite string_app_nil_r. split; [lia|]. split; [done|lia].
    + destruct (IH (S n) st1 Hngt) as (m & Hm & Hc & Hbrk).
      exists (S m). cbn [length take spaced map concat_strings].
      split; [lia|]. split; [|lia].
      rewrite Hc, H1. fold (spaced (take m rest)).
      by rewrite !string_app_assoc.
Qed.


(** ** The whole body *)

Lemma body_lines_eq text :
  exists w0 rest st,
    split_space text = w0 :: rest
    /\ st = wrap_loop measureText 1 rest (mkWrap (w0 +:+ " ") (height / 2 - 50) [])
    /\ body_lines measureText text
       = drawn st ++ [fillText (line st) 60 (y st)].
Proof.
  unfold body_lines.
  destruct (split_space text) as [|w0 rest] eqn:E;
    [by apply split_space_nonempty in E|].
  exists w0, rest. eexists. split; [done|]. split; [reflexivity|].
  cbn [wrap_loop]. rewrite wrap_step_first. unfold wrap_init.
  cbn [y line drawn]. geometry. reflexivity.
Qed.

(** C3 (as amended): for every text and every text-measurement function,
    each emitted line either has a measured width of at most the maximum
    width or is a single word followed by its space (the first word, and a
    word that overflows on its own, are placed without a width check);
    lines are drawn at x = 60, one line height apart starting at
    [height / 2 - 50], every line but the last with [y <= height - 100],
    at most 8 in all; the lines hold the first [m] words in order, and
    words are left out only when the loop stopped on the vertical limit. *)
Theorem word_wrap_lines (text : string) :
  let lines := body_lines measureText text in
  let words := split_space text in
  Forall (fun l => line_ok measureText words (ft_text l)) lines
  /\ placed lines
  /\ (length lines <= 8)%nat
  /\ (forall i l, lines !! i = Some l -> (i + 1 < length lines)%nat ->
        ft_y l <= height - 100)
  /\ exists m, (1 <= m <= length words)%nat
       /\ concat_strings (line_texts lines)
          = concat_strings (spaced (take m words))
       /\ ((m < length words)%nat -> length lines = 8%nat).
Proof.
  cbv zeta.
  destruct (body_lines_eq text) as (w0 & rest & st & Hw & Hst & ->).
  rewrite Hw.
  set (st0 := mkWrap (w0 +:+ " ") (height / 2 - 50) []) in Hst.
  assert (Hle0 : y st0 <= height - 100) by (cbn; geometry; lia).
  destruct (wrap_loop_ok (w0 :: rest) 0 rest st0) as [Hd Hl].
  { intros w Hin. by right. }
  { constructor. }
  { right. exists w0. split; [by left|done]. }
  destruct (wrap_loop_placed 0 rest st0) as (Hy & Hlen & Hp);
    [cbn; geometry; lia | done | intros i l Hi; by destruct i |].
  destruct (wrap_loop_content 0 rest st0 Hle0) as (m & Hm & Hc & Hbrk).
  rewrite <- Hst in *. clear Hst.
  assert (Hplaced : placed (drawn st ++ [fillText (line st) 60 (y st)])).
  { rewrite Hy. by apply placed_snoc. }
  split; [|split; [done|split; [|split]]].
  - apply Forall_app. split; [done|]. by constructor.
  - rewrite length_app. cbn [length]. lia.
  - intros i l Hi Hlt. rewrite length_app in Hlt. cbn [length] in Hlt.
    destruct (Hplaced i l Hi) as [_ ->]. geometry. lia.
  - exists (S m). cbn [length take spaced map concat_strings].
    split; [lia|]. split.
    + unfold line_texts. rewrite map_app, concat_strings_app.
      cbn [map ft_text concat_strings]. rewrite string_app_nil_r.
      fold (line_texts (drawn st)). rewrite Hc. reflexivity.
    + intros Hlt. assert (Hgt : y st > height - 100) by (apply Hbrk; lia).
      rewrite length_app. cbn [length]. rewrite Hy in Hgt. geometry. lia.
Qed.

(** The first drawn text of a state: the first flushed line, or the line
    buffer when nothing was flushed yet. *)
Lemma wrap_loop_first_prefix p n words st :
  (exists tail,
     hd (line st) (line_texts (drawn st)) = p +:+ tail) ->
  let st' := wrap_loop measureText (S n) words st in
  exists tail, hd (line st') (line_texts (drawn st')) = p +:+ tail.
Proof.
  cbv zeta. revert n st.
  induction words as [|word rest IH]; intros n st Hpre; [done|].
  cbn [wrap_loop].
  assert (Hnext : exists tail,
            hd (line (wrap_step measureText (S n) word st))
               (line_texts (drawn (wrap_step measureText (S n) word st)))
            = p +:+ tail).
  { destruct Hpre as [tail Htail].
    destruct (wrap_step_cases n word st) as [-> | [-> Hfit]];
      cbn [drawn line]; destruct (drawn st) as [|l ls];
      cbn [line_texts map hd app ft_text] in *; eauto.
    exists (tail +:+ word +:+ " "). by rewrite Htail, string_app_assoc. }
  destruct (y _ >? height - 100); [done|]. by apply IH.
Qed.

(** C10 (as amended): the word wrap always emits at least one body
    line. The first emitted line starts with the text up to its first
    space (the first piece of [text.split(' ')], empty when the text
    starts with a space) followed by a space, whatever its measured
    width, and sits at [height / 2 - 50]; for a non-empty text that does
    not start with a space this piece is not empty. The last emitted line
    is the line buffer left by the loop, and when fewer than 8 lines are
    emitted the lines together hold the whole text and one trailing
    space: nothing is lost. *)
Theorem word_wrap_first_and_last (text : string) :
  let st := wrap_loop measureText 0 (split_space text) wrap_init in
  let lines := body_lines measureText text in
  exists first rest first_line others tail,
    text = first +:+ rest
    /\ Forall (fun c => c <> " "%char) (list_ascii_of_string first)
    /\ (rest = "" \/ exists rest', rest = String " " rest')
    /\ (forall c text', text = String c text' -> c <> " "%char -> first <> "")
    /\ lines = first_line :: others
    /\ ft_text first_line = first +:+ " " +:+ tail
    /\ ft_y first_line = height / 2 - 50
    /\ last lines = Some (fillText (line st) 60 (y st))
    /\ ((length lines < 8)%nat ->
        concat_strings (line_texts lines) = text +:+ " ").
Proof.
  cbv zeta.
  assert (Hlast : last (body_lines measureText text)
                  = Some (fillText
                            (line (wrap_loop measureText 0 (split_space text) wrap_init))
                            60
                            (y (wrap_loop measureText 0 (split_space text) wrap_init)))).
  { unfold body_lines. cbv zeta. apply last_snoc. }
  destruct (body_lines_eq text) as (w0 & words & st & Hw & Hst & Hbody).
  destruct (split_space_first text)
    as (first & words' & rest & Hw' & Htext & Hfirst & Hrest).
  rewrite Hw in Hw'. injection Hw' as <- <-.
  exists w0, rest.
  set (st0 := mkWrap (w0 +:+ " ") (height / 2 - 50) []) in Hst.
  assert (Hle0 : y st0 <= height - 100) by (cbn; geometry; lia).
  destruct (wrap_loop_first_prefix (w0 +:+ " ") 0 words st0) as [tail Htail].
  { exists "". cbn. by rewrite string_app_nil_r. }
  destruct (wrap_loop_placed 0 words st0)
    as (Hy & _ & Hp); [cbn; geometry; lia | done
                       | intros i l Hi; by destruct i |].
  destruct (wrap_loop_content 0 words st0 Hle0) as (m & Hm & Hc & Hbrk).
  rewrite <- Hst in *.
  assert (Hwhole : (length (drawn st ++ [fillText (line st) 60 (y st)]) < 8)%nat ->
                   concat_strings
                     (line_texts (drawn st ++ [fillText (line st) 60 (y st)]))
                   = text +:+ " ").
  { intros Hlt. rewrite length_app in Hlt. cbn [length] in Hlt.
    assert (Hm' : m = length words).
    { destruct (decide (m < length words)%nat) as [Hlt'|]; [|lia].
      specialize (Hbrk Hlt'). rewrite Hy in Hbrk. geometry. lia. }
    unfold line_texts. rewrite map_app, concat_strings_app.
    cbn [map ft_text concat_strings]. rewrite string_app_nil_r.
    fold (line_texts (drawn st)). rewrite Hc. subst m. rewrite take_ge by done.
    rewrite <- split_space_spaced, Hw. cbn [drawn line st0 line_texts map
      concat_strings spaced]. reflexivity. }
  assert (Hne : forall c text', text = String c text' -> c <> " "%char ->
                                w0 <> ""%string).
  { intros c text' E Hc' ->. rewrite E in Htext.
    change ("" +:+ rest) with rest in Htext.
    destruct Hrest as [->|[rest' ->]]; [discriminate Htext|].
    by injection Htext as -> _. }
  rewrite Hw in Hlast |- *. rewrite Hbody in Hlast |- *.
  revert Hlast Hwhole.
  destruct (drawn st) as [|l ls] eqn:Ed; intros Hlast Hwhole.
  - exists (fillText (line st) 60 (y st)), [], tail.
    cbn [line_texts map hd] in Htail. cbn [app ft_text ft_y] in *.
    do 5 (split; [done|]).
    split; [by rewrite Htail, string_app_assoc|].
    split; [|by split]. rewrite Hy. cbn [length]. geometry. lia.
  - exists l, (ls ++ [fillText (line st) 60 (y st)]), tail.
    cbn [line_texts map hd] in Htail.
    do 5 (split; [done|]).
    split; [by rewrite Htail, string_app_assoc|].
    split; [|by split]. destruct (Hp 0%nat l eq_refl) as [_ Hy0].
    rewrite Hy0. geometry. lia.
Qed.

End WordWrap.

(** Ten words of which each overflows with the next: the loop stops on
    the vertical limit after the eighth, drawn at 625, and the last two
    words are dropped. *)
Example body_lines_truncated :
  map (fun l => (ft_text l, ft_y l))
      (body_lines (fun s => inject_Z (400 * Z.of_nat (String.length s)))
                  "a b c d e f g h i j")
  = [("a ", 310); ("b ", 355); ("c ", 400); ("d ", 445);
     ("e ", 490); ("f ", 535); ("g ", 580); ("h ", 625)]%string.
Proof. vm_compute. reflexivity. Qed.

(** C3 as stated fails: with a measurement of 400 per character, the
    text ["ab cd"] gives the lines ["ab "] and ["cd "], each measured 1200,
    above the maximum width of 1160. *)
Lemma word_wrap_overlong_line :
  let measureText := fun s => inject_Z (400 * Z.of_nat (String.length s)) in
  exists l, l ∈ body_lines measureText "ab cd"
    /\ ~ (measureText (ft_text l) <= inject_Z maxWidth)%Q.
Proof.
  cbv zeta. exists (fillText "cd " 60 355). split.
  - vm_compute. right. left.
  - vm_compute. intros H. by apply H.
Qed.

(** C10 as stated fails for a text that starts with a space: with a
    measurement of 400 per character, [" Supercalifragilistic"] gives a
    first line holding a lone space, and the first word of the text is
    placed on the second line, at 355. *)
Lemma word_wrap_first_word_on_second_line :
  map (fun l => (ft_text l, ft_y l))
      (body_lines (fun s => inject_Z (400 * Z.of_nat (String.length s)))
                  " Supercalifragilistic")
  = [(" ", 310); ("Supercalifragilistic ", 355)]%string.
Proof. vm_compute. reflexivity. Qed.

End FrameProofs.

(* ================================================================== *)
(** * Properties of the muxer *)
(* ================================================================== *)

Module MuxProofs.
Import Mux.

Section Host.

Variable measureText : string -> Q.
Variable mp4_supported : bool.

(** ** Settled promises stay settled *)

Lemma settle_rejected reason new : settle (Rejected reason) new = Rejected reason.
Proof. reflexivity. Qed.

Lemma handle_rejected s e reason :
  promise s = Rejected reason ->
  promise (handle mp4_supported s e) = Rejected reason.
Proof.
  intros H. destruct e; cbn [handle].
  - destruct (handlers_installed s); [|done].
    unfold on_canplaythrough. cbn [source_connected promise].
    by destruct (source_connected s).
  - destruct (handlers_installed s); [|done]. cbn. by rewrite H.
  - destruct (onended_installed s); [|done]. unfold on_ended.
    by destruct (recorder s).
  - by destruct (recorder s).
  - destruct (recorder s); [done|cbn; by rewrite H..].
Qed.

Lemma run_rejected events s reason :
  promise s = Rejected reason ->
  promise (run mp4_supported s events) = Rejected reason.
Proof.
  revert s. induction events as [|e events IH]; intros s H; [done|].
  cbn [run fold_left]. apply IH. by apply handle_rejected.
Qed.

Lemma run_app s events1 events2 :
  run mp4_supported s (events1 ++ events2)
  = run mp4_supported (run mp4_supported s events1) events2.
Proof. apply fold_left_app. Qed.

(** ** Before [canplaythrough] nothing is captured *)

Lemma handle_not_started s e :
  e <> CanPlayThrough ->
  not_started s -> not_started (handle mp4_supported s e).
Proof.
  intros He Hs. pose proof Hs as (Hc & Ha & Hr & Hp & Ho & Hres & Hh).
  destruct e; [done|..]; cbn [handle].
  - destruct (handlers_installed s) eqn:E; [|done].
    unfold not_started. cbn. repeat split; try done.
    + intros b. destruct (promise s); cbn; [done| |done]. apply Hres.
    + by left.
  - by rewrite Ho.
  - by rewrite Hr.
  - by rewrite Hr.
Qed.

Lemma run_not_started events s :
  CanPlayThrough ∉ events ->
  not_started s -> not_started (run mp4_supported s events).
Proof.
  revert s. induction events as [|e events IH]; intros s Hin H; [done|].
  cbn [run fold_left]. apply IH.
  - intros Hin'. apply Hin. by right.
  - apply handle_not_started; [|done]. intros ->. apply Hin. by left.
Qed.

Lemma audioBlobToVideo_not_started context2d_available audioBlob text voiceName :
  not_started (audioBlobToVideo measureText context2d_available
                 audioBlob text voiceName).
Proof.
  unfold audioBlobToVideo, not_started.
  destruct context2d_available; cbn; repeat split; eauto.
Qed.

Lemma on_error_rejects s :
  not_started s ->
  exists reason, promise (handle mp4_supported s AudioError) = Rejected reason.
Proof.
  intros (_ & _ & _ & _ & _ & Hres & Hh). cbn [handle].
  destruct Hh as [Hh | [reason Hrej]].
  - rewrite Hh. cbn. destruct (promise s) as [|b|reason]; cbn; eauto.
    by destruct (Hres b).
  - destruct (handlers_installed s); [|eauto]. cbn. rewrite Hrej. eauto.
Qed.

(** C7 (as amended): when the audio fails to load, that is, the [error]
    event arrives and no [canplaythrough] came before it, the promise is
    rejected while no canvas capture, audio context, recorder or playback
    has been started; and whatever the host delivers afterwards, the
    promise is never resolved with an output buffer. *)
Theorem audioBlobToVideo_load_failure
    (context2d_available : bool) (audioBlob : Blob) (text voiceName : string)
    (before after : list Event) :
  CanPlayThrough ∉ before ->
  let failed :=
    run mp4_supported
        (audioBlobToVideo measureText context2d_available audioBlob text voiceName)
        (before ++ [AudioError]) in
  (exists reason, promise failed = Rejected reason)
  /\ capture_started failed = false
  /\ open_audio_contexts failed = 0%nat
  /\ recorder failed = NoRecorder
  /\ playback_started failed = false
  /\ forall finalBlob,
       promise (run mp4_supported failed after) <> Resolved finalBlob.
Proof.
  intros Hbefore. cbv zeta. rewrite run_app.
  set (s := run _ _ before).
  assert (Hs : not_started s).
  { apply run_not_started; [done|]. apply audioBlobToVideo_not_started. }
  change (run mp4_supported s [AudioError]) with (handle mp4_supported s AudioError).
  destruct (on_error_rejects s Hs) as [reason Hrej].
  destruct (handle_not_started s AudioError ltac:(done) Hs)
    as (Hc & Ha & Hr & Hp & _).
  split; [eauto|]. repeat (split; [done|]).
  intros finalBlob. by rewrite (run_rejected after _ reason Hrej).
Qed.

(** C4, the failing path: on the error path the promise is rejected and
    the object URL created for the audio blob is still live; nothing
    after the rejection revokes it unless a recorder stops, and no
    recorder exists. *)
Theorem audioBlobToVideo_error_path_leaks_url
    (audioBlob : Blob) (text voiceName : string) :
  let s := run mp4_supported
               (audioBlobToVideo measureText true audioBlob text voiceName)
               [AudioError] in
  promise s = Rejected AudioErrorEvent
  /\ object_url_live s = true
  /\ recorder s = NoRecorder.
Proof. cbv zeta. cbn. done. Qed.

(** An error after [canplaythrough] rejects as well, and then leaves the
    audio context open and the recorder recording too. *)
Lemma audioBlobToVideo_late_error_leaks_context
    (audioBlob : Blob) (text voiceName : string) :
  let s := run mp4_supported
               (audioBlobToVideo measureText true audioBlob text voiceName)
               [CanPlayThrough; AudioError] in
  promise s = Rejected AudioErrorEvent
  /\ object_url_live s = true
  /\ open_audio_contexts s = 1%nat
  /\ recorder s = Recording.
Proof. cbv zeta. cbn. done. Qed.

(** The sibling path: on success the context is closed and the URL
    revoked. *)
Lemma audioBlobToVideo_success_path_releases
    (audioBlob : Blob) (text voiceName : string) (data : list byte) :
  let s := run mp4_supported
               (audioBlobToVideo measureText true audioBlob text voiceName)
               [CanPlayThrough; Ended; DataAvailable data; RecorderStop] in
  promise s = Resolved (mkBlob data
                          (if mp4_supported then "video/mp4" else "video/webm"))
  /\ object_url_live s = false
  /\ open_audio_contexts s = 0%nat.
Proof. cbv zeta. cbn. rewrite app_nil_r. done. Qed.

End Host.

Lemma audioBlobToVideo_load_failure_witness :
  let m := fun _ : string => 0%Q in
  let failed :=
    run true (audioBlobToVideo m true (mkBlob [] "audio/wav") "hi" "Kore")
        ([Ended] ++ [AudioError]) in
  (exists reason, promise failed = Rejected reason)
  /\ capture_started failed = false
  /\ open_audio_contexts failed = 0%nat
  /\ recorder failed = NoRecorder
  /\ playback_started failed = false
  /\ forall finalBlob,
       promise (run true failed [CanPlayThrough; Ended; RecorderStop])
       <> Resolved finalBlob.
Proof.
  cbv zeta.
  apply (audioBlobToVideo_load_failure (fun _ : string => 0%Q) true true
           (mkBlob [] "audio/wav") "hi" "Kore"
           [Ended] [CanPlayThrough; Ended; RecorderStop]).
  intros H. apply list_elem_of_singleton in H. discriminate H.
Defined.

(** C7 as stated fails for a failure that comes after [canplaythrough],
    as a decode error during playback does: the promise is rejected while
    the canvas capture, the audio context, the recorder and the playback
    are all started. *)
Lemma audioBlobToVideo_error_after_capture :
  let s := run true
               (audioBlobToVideo (fun _ : string => 0%Q) true
                                 (mkBlob [] "audio/wav") "hi" "Kore")
               [CanPlayThrough; AudioError] in
  promise s = Rejected AudioErrorEvent
  /\ capture_started s = true
  /\ open_audio_contexts s = 1%nat
  /\ recorder s = Recording
  /\ playback_started s = true.
Proof. cbv zeta. vm_compute. repeat split. Qed.

End MuxProofs.

(* ================================================================== *)
(** * Properties of the bulk export *)
(* ================================================================== *)

Module PackagerProofs.
Import Packager.

(** ** Decimal numerals and file names *)

Lemma string_of_uint_digits d :
  digits_only (NilEmpty.string_of_uint d) = true.
Proof. induction d; cbn [NilEmpty.string_of_uint digits_only]; auto. Qed.

Lemma string_of_nat_inj a b : string_of_nat a = string_of_nat b -> a = b.
Proof.
  unfold string_of_nat. intros H.
  apply (f_equal NilEmpty.uint_of_string) in H.
  rewrite !NilEmpty.usu in H. injection H as H.
  by apply Unsigned.to_uint_inj.
Qed.

Lemma digits_separator a b r1 r2 :
  digits_only a = true -> digits_only b = true ->
  a +:+ "_" +:+ r1 = b +:+ "_" +:+ r2 -> a = b.
Proof.
  revert b. induction a as [|x a IH]; intros [|y b] Ha Hb H.
  - reflexivity.
  - rewrite string_app_cons in H. change ("" +:+ "_" +:+ r1) with (String "_" r1) in H.
    injection H as <- _. cbn in Hb. discriminate Hb.
  - rewrite string_app_cons in H. change ("" +:+ "_" +:+ r2) with (String "_" r2) in H.
    injection H as -> _. cbn in Ha. discriminate Ha.
  - rewrite !string_app_cons in H. injection H as -> H.
    cbn [digits_only] in Ha, Hb.
    apply andb_true_iff in Ha as [_ Ha]. apply andb_true_iff in Hb as [_ Hb].
    f_equal. by apply IH.
Qed.

Lemma numbered_inj root a b r1 r2 :
  root +:+ string_of_nat a +:+ "_" +:+ r1
  = root +:+ string_of_nat b +:+ "_" +:+ r2 -> a = b.
Proof.
  intros H. apply String.app_inj in H.
  apply string_of_nat_inj.
  eapply digits_separator; [apply string_of_uint_digits..|exact H].
Qed.

Lemma numbered_not_root root n r :
  root <> root +:+ string_of_nat n +:+ "_" +:+ r.
Proof.
  intros H. rewrite <- (string_app_nil_r root) in H at 1.
  apply String.app_inj in H.
  destruct (string_of_nat n); discriminate H.
Qed.

Lemma wav_not_video x y : "wav_audio/" +:+ x <> "mp4_video/" +:+ y.
Proof. intros H. apply (f_equal (get 0)) in H. discriminate H. Qed.

Lemma manifest_not_wav x : "manifest.txt" <> "wav_audio/" +:+ x.
Proof. intros H. apply (f_equal (get 0)) in H. discriminate H. Qed.

Lemma manifest_not_video x : "manifest.txt" <> "mp4_video/" +:+ x.
Proof. intros H. apply (f_equal (get 1)) in H. discriminate H. Qed.

Lemma wav_name_numbered i gen :
  exists r, wav_name i gen = "wav_audio/" +:+ string_of_nat (i + 1) +:+ "_" +:+ r.
Proof.
  unfold wav_name, baseFilename. cbv zeta. eexists.
  rewrite !string_app_assoc. reflexivity.
Qed.

Lemma video_name_numbered i gen mp4Blob :
  exists r, video_name i gen mp4Blob
            = "mp4_video/" +:+ string_of_nat (i + 1) +:+ "_" +:+ r.
Proof.
  unfold video_name, baseFilename. cbv zeta. eexists.
  rewrite !string_app_assoc. reflexivity.
Qed.


Lemma known_mono i key : known i key -> known (S i) key.
Proof.
  intros [H|[H|(j & r & Hj & H)]]; [by left | by right; left|].
  right; right. exists j, r. split; [lia|done].
Qed.

Ltac name_clash H :=
  first
    [ exfalso; exact (numbered_not_root _ _ _ H)
    | exfalso; exact (numbered_not_root _ _ _ (eq_sym H))
    | exfalso; exact (wav_not_video _ _ H)
    | exfalso; exact (wav_not_video _ _ (eq_sym H))
    | exfalso; exact (wav_not_video "" _ H)
    | exfalso; exact (wav_not_video "" _ (eq_sym H))
    | exfalso; exact (wav_not_video _ "" H)
    | exfalso; exact (wav_not_video _ "" (eq_sym H))
    | apply numbered_inj in H; lia ].

Lemma known_not_numbered i key root r :
  root = "wav_audio/" \/ root = "mp4_video/" ->
  known i key -> key <> root +:+ string_of_nat (i + 1) +:+ "_" +:+ r.
Proof.
  intros Hroot Hk ->.
  destruct Hk as [H|[H|(j & r' & Hj & [H|H])]], Hroot as [-> | ->];
    name_clash H.
Qed.

Lemma known_not_manifest i : ~ known i "manifest.txt".
Proof.
  intros [H|[H|(j & r & Hj & [H|H])]];
    first [ discriminate H | by apply manifest_not_wav in H
          | by apply manifest_not_video in H ].
Qed.

Lemma archive_names_distinct k1 k2 gen1 gen2 mp4Blob1 mp4Blob2 :
  (k1 <> k2 ->
     wav_name k1 gen1 <> wav_name k2 gen2
     /\ video_name k1 gen1 mp4Blob1 <> video_name k2 gen2 mp4Blob2)
  /\ wav_name k1 gen1 <> video_name k2 gen2 mp4Blob2
  /\ "manifest.txt" <> wav_name k1 gen1
  /\ "manifest.txt" <> video_name k1 gen1 mp4Blob1.
Proof.
  destruct (wav_name_numbered k1 gen1) as [rw1 ->].
  destruct (wav_name_numbered k2 gen2) as [rw2 ->].
  destruct (video_name_numbered k1 gen1 mp4Blob1) as [rv1 ->].
  destruct (video_name_numbered k2 gen2 mp4Blob2) as [rv2 ->].
  split; [|split; [apply wav_not_video|split;
                   [apply manifest_not_wav|apply manifest_not_video]]].
  intros Hne. split; intros H; apply numbered_inj in H; lia.
Qed.

(** ** The archive *)

Lemma stored_start : stored 0 (zip_folder "mp4_video" (zip_folder "wav_audio" ∅)).
Proof.
  unfold stored. split; [|split; vm_compute; reflexivity].
  intros key [e He]. unfold zip_folder in He.
  rewrite lookup_empty in He. cbn in He.
  rewrite lookup_insert_ne in He by discriminate.
  rewrite lookup_empty in He.
  apply lookup_insert_Some in He as [[<- _]|[_ He]]; [by right; left|].
  apply lookup_insert_Some in He as [[<- _]|[_ He]]; [by left|].
  by rewrite lookup_empty in He.
Qed.

Lemma file_entries_insert key data (zip : gmap string ZipEntry) :
  is_file data = true ->
  file_entries (<[key := data]> zip) = <[key := data]> (file_entries zip).
Proof. intros H. unfold file_entries. by rewrite map_filter_insert_True. Qed.

Lemma file_entries_lookup_None key (zip : gmap string ZipEntry) :
  zip !! key = None -> file_entries zip !! key = None.
Proof. intros H. apply map_lookup_filter_None. by left. Qed.

(** Storing the two files of the record at index [i]. *)
Lemma stored_step i gen mp4Blob (zip : gmap string ZipEntry) :
  stored i zip ->
  let zip1 := zip_file "wav_audio/" (baseFilename i gen +:+ ".wav")
                       (ZipBlob (blob gen)) zip in
  let zip2 := zip_file "mp4_video/"
                       (baseFilename i gen +:+ "." +:+ video_ext mp4Blob)
                       (ZipBlob mp4Blob) zip1 in
  stored (S i) zip2
  /\ zip ⊆ zip2
  /\ zip2 !! wav_name i gen = Some (ZipBlob (blob gen))
  /\ zip2 !! video_name i gen mp4Blob = Some (ZipBlob mp4Blob).
Proof.
  intros (Hk & Hsize & Hfiles). cbv zeta. unfold zip_file.
  fold (wav_name i gen). fold (video_name i gen mp4Blob).
  destruct (wav_name_numbered i gen) as [rw Hw].
  destruct (video_name_numbered i gen mp4Blob) as [rv Hv].
  assert (Hfresh_w : zip !! wav_name i gen = None).
  { apply eq_None_not_Some. intros Hs. apply Hk in Hs.
    eapply known_not_numbered in Hs; [by apply Hs|by left]. }
  assert (Hfresh_v : zip !! video_name i gen mp4Blob = None).
  { apply eq_None_not_Some. intros Hs. apply Hk in Hs.
    eapply known_not_numbered in Hs; [by apply Hs|by right]. }
  assert (Hne : wav_name i gen <> video_name i gen mp4Blob).
  { rewrite Hw, Hv. apply wav_not_video. }
  assert (Hfresh_v1 : <[wav_name i gen := ZipBlob (blob gen)]> zip
                      !! video_name i gen mp4Blob = None).
  { by rewrite lookup_insert_ne. }
  split; [|split; [|split]].
  - split; [|split].
    + intros key Hs.
      apply lookup_insert_is_Some in Hs as [<-|[_ Hs]].
      { right; right. exists i, rv. split; [lia|]. by right. }
      apply lookup_insert_is_Some in Hs as [<-|[_ Hs]].
      { right; right. exists i, rw. split; [lia|]. by left. }
      by apply known_mono, Hk.
    + rewrite !map_size_insert_None by done. lia.
    + rewrite !file_entries_insert by done.
      rewrite !map_size_insert_None; [lia|..].
      * by apply file_entries_lookup_None.
      * rewrite lookup_insert_ne by done. by apply file_entries_lookup_None.
  - etrans; [apply (insert_subseteq _ (wav_name i gen)); done|].
    by apply insert_subseteq.
  - rewrite lookup_insert_ne by done. by rewrite lookup_insert_eq.
  - by rewrite lookup_insert_eq.
Qed.

Section Handler.

Variable audioBlobToVideo : nat -> Blob -> string -> string -> option Blob.
Variable toLocaleString : Z -> string.
Variable startTime endTime : Z.

(** ** The loop: what it logs *)

Lemma export_loop_log gens : forall i total zip manifest log,
  let r := export_loop audioBlobToVideo toLocaleString i gens total zip manifest log in
  toasts r.2 = toasts log
  /\ downloads r.2 = downloads log
  /\ match r.1 with
     | Some _ =>
         derivations r.2 = derivations log ++ indexed i gens
         /\ forall k gen, gens !! k = Some gen -> is_Some (derive audioBlobToVideo (i + k) gen)
     | None =>
         exists k gen, gens !! k = Some gen /\ derive audioBlobToVideo (i + k) gen = None
           /\ derivations r.2 = derivations log ++ take (S k) (indexed i gens)
     end.
Proof.
  induction gens as [|gen rest IH]; intros i total zip manifest log; cbv zeta.
  - cbn. rewrite app_nil_r. by repeat split.
  - cbn [export_loop].
    assert (Hd : derivations (log ++ [DeriveVideo i gen])
                 = derivations log ++ [(i, gen)]).
    { unfold derivations. by rewrite omap_app. }
    assert (Ht : toasts (log ++ [DeriveVideo i gen]) = toasts log).
    { unfold toasts. rewrite omap_app. cbn. by rewrite app_nil_r. }
    assert (Hdl : downloads (log ++ [DeriveVideo i gen]) = downloads log).
    { unfold downloads. rewrite omap_app. cbn. by rewrite app_nil_r. }
    destruct (audioBlobToVideo i (blob gen) (text gen) (voiceId gen))
      as [mp4Blob|] eqn:E.
    + match goal with
      | |- context [export_loop _ _ (S i) rest total ?z ?m ?l] =>
          specialize (IH (S i) total z m l)
      end.
      cbv zeta in IH. destruct IH as (IHt & IHdl & IHr).
      rewrite IHt, IHdl.
      unfold toasts at 1, downloads at 1. rewrite !omap_app. cbn [omap].
      rewrite !app_nil_r. fold (toasts (log ++ [DeriveVideo i gen])).
      fold (downloads (log ++ [DeriveVideo i gen])).
      split; [done|]. split; [done|].
      assert (Hd' : derivations ((log ++ [DeriveVideo i gen])
                                 ++ [SetExportProgress (i + 1) total])
                    = derivations log ++ [(i, gen)]).
      { unfold derivations at 1. rewrite omap_app. cbn [omap].
        rewrite app_nil_r. exact Hd. }
      destruct (export_loop _ _ (S i) rest total _ _ _).1.
      * destruct IHr as [IHd IHall]. split.
        { rewrite IHd, Hd'. cbn [indexed]. by rewrite <- app_assoc. }
        intros [|k] g Hk.
        { injection Hk as <-. unfold derive. rewrite Nat.add_0_r, E. eauto. }
        replace (i + S k)%nat with (S i + k)%nat by lia. by apply IHall.
      * destruct IHr as (k & g & Hk & Hnone & IHd).
        exists (S k), g. split; [done|]. split.
        { by replace (i + S k)%nat with (S i + k)%nat by lia. }
        rewrite IHd, Hd'. cbn [indexed take]. by rewrite <- app_assoc.
    + cbn [fst snd]. split; [done|]. split; [done|].
      exists 0%nat, gen. split; [done|]. split.
      { unfold derive. by rewrite Nat.add_0_r. }
      rewrite Hd. cbn [indexed take]. by rewrite take_0.
Qed.


(** ** The loop: what it stores *)

Lemma export_loop_zip gens : forall i total zip manifest log zip' manifest',
  stored i zip ->
  (export_loop audioBlobToVideo toLocaleString i gens total zip manifest log).1
  = Some (zip', manifest') ->
  stored (i + length gens) zip'
  /\ zip ⊆ zip'
  /\ forall k gen, gens !! k = Some gen ->
       zip' !! wav_name (i + k) gen = Some (ZipBlob (blob gen))
       /\ exists mp4Blob, derive audioBlobToVideo (i + k) gen = Some mp4Blob
            /\ zip' !! video_name (i + k) gen mp4Blob = Some (ZipBlob mp4Blob).
Proof.
  induction gens as [|gen rest IH];
    intros i total zip manifest log zip' manifest' Hst Hr.
  - cbn in Hr. injection Hr as <- <-. rewrite Nat.add_0_r.
    split; [done|]. split; [done|]. intros k gen Hk.
    by rewrite lookup_nil in Hk.
  - cbn [export_loop] in Hr.
    destruct (audioBlobToVideo i (blob gen) (text gen) (voiceId gen))
      as [mp4Blob|] eqn:E; [|discriminate Hr].
    destruct (stored_step i gen mp4Blob zip Hst) as (Hst' & Hsub & Hw & Hv).
    cbv zeta in Hst', Hsub, Hw, Hv.
    destruct (IH _ _ _ _ _ _ _ Hst' Hr) as (Hfin & Hsub' & Hall).
    split; [|split].
    + cbn [length]. by replace (i + S (length rest))%nat
                        with (S i + length rest)%nat by lia.
    + by etrans.
    + intros [|k] g Hk.
      * injection Hk as <-. rewrite Nat.add_0_r. split.
        { eapply lookup_weaken; [exact Hw|done]. }
        exists mp4Blob. split; [exact E|].
        eapply lookup_weaken; [exact Hv|done].
      * replace (i + S k)%nat with (S i + k)%nat by lia. by apply Hall.
Qed.

Lemma indexed_fst_ge i gens p : p ∈ indexed i gens -> (i <= p.1)%nat.
Proof.
  revert i. induction gens as [|gen rest IH]; intros i Hp; cbn in Hp.
  - by apply elem_of_nil in Hp.
  - apply elem_of_cons in Hp as [->|Hp]; [done|]. apply IH in Hp. lia.
Qed.

Lemma indexed_NoDup i gens : NoDup (indexed i gens).
Proof.
  revert i. induction gens as [|gen rest IH]; intros i; cbn; constructor.
  - intros Hin. apply indexed_fst_ge in Hin. cbn in Hin. lia.
  - apply IH.
Qed.

(** C6: when the video derivation of some record fails, the export
    aborts: no archive is offered for download, exactly one toast is shown
    and it is the error toast, and the derivations requested are those of
    the records up to a failing one, each once (nothing is retried). *)
Theorem handleExportAll_aborts_on_failure
    (history : list Generation) (k : nat) (gen : Generation) :
  history !! k = Some gen ->
  audioBlobToVideo k (blob gen) (text gen) (voiceId gen) = None ->
  let log := handleExportAll audioBlobToVideo toLocaleString startTime endTime
                             history in
  downloads log = []
  /\ toasts log = [("Bulk export failed during video synthesis.", error)]
  /\ NoDup (derivations log)
  /\ exists n failed,
       history !! n = Some failed
       /\ audioBlobToVideo n (blob failed) (text failed) (voiceId failed) = None
       /\ derivations log = take (S n) (indexed 0 history).
Proof.
  intros Hk Hfail. cbv zeta. unfold handleExportAll.
  destruct history as [|g0 rest]; [by rewrite lookup_nil in Hk|].
  cbn [length Nat.eqb].
  match goal with
  | |- context [export_loop _ _ 0 ?h ?t ?z ?m ?l] =>
      pose proof (export_loop_log h 0 t z m l) as Hlog;
      destruct (export_loop audioBlobToVideo toLocaleString 0 h t z m l)
        as [result log1]
  end.
  cbv zeta in Hlog. cbn [fst snd] in Hlog.
  destruct Hlog as (Ht & Hd & Hr).
  destruct result as [[zip manifest]|].
  - destruct Hr as [_ Hall]. specialize (Hall k gen Hk).
    unfold derive in Hall. cbn [Nat.add] in Hall. rewrite Hfail in Hall.
    by destruct Hall.
  - destruct Hr as (n & failed & Hn & Hnone & Hder).
    unfold downloads, toasts, derivations in *.
    rewrite !omap_app, Ht, Hd, Hder. cbn [omap app].
    split; [done|]. split; [done|]. split.
    + rewrite !app_nil_r. cbn [app].
      eapply sublist_NoDup; [apply indexed_NoDup|apply sublist_take].
    + exists n, failed. rewrite !app_nil_r. by repeat split.
Qed.

(** C2 (as amended): exporting an empty collection does nothing at all,
    so no archive is produced; exporting [k > 0] records whose video
    derivations all succeed offers one archive holding exactly [2 k + 1]
    files: the WAV of every record under [wav_audio/], its video under
    [mp4_video/], and [manifest.txt]; the names of these files differ
    from one another. *)
Theorem handleExportAll_archive :
  handleExportAll audioBlobToVideo toLocaleString startTime endTime [] = []
  /\ forall history : list Generation,
       history <> [] ->
       (forall k gen, history !! k = Some gen ->
          is_Some (derive audioBlobToVideo k gen)) ->
       exists filename archive manifest,
         downloads (handleExportAll audioBlobToVideo toLocaleString
                                    startTime endTime history)
         = [(filename, archive)]
         /\ size (file_entries archive) = (2 * length history + 1)%nat
         /\ archive !! "manifest.txt" = Some (ZipText manifest)
         /\ (forall k gen, history !! k = Some gen ->
              archive !! wav_name k gen = Some (ZipBlob (blob gen))
              /\ exists mp4Blob,
                   derive audioBlobToVideo k gen = Some mp4Blob
                   /\ archive !! video_name k gen mp4Blob
                      = Some (ZipBlob mp4Blob))
         /\ forall k1 k2 gen1 gen2 mp4Blob1 mp4Blob2,
              (k1 <> k2 ->
                 wav_name k1 gen1 <> wav_name k2 gen2
                 /\ video_name k1 gen1 mp4Blob1 <> video_name k2 gen2 mp4Blob2)
              /\ wav_name k1 gen1 <> video_name k2 gen2 mp4Blob2
              /\ "manifest.txt" <> wav_name k1 gen1
              /\ "manifest.txt" <> video_name k1 gen1 mp4Blob1.
Proof.
  split; [reflexivity|]. intros history Hne Hall. unfold handleExportAll.
  destruct history as [|g0 rest]; [done|]. cbn [length Nat.eqb].
  match goal with
  | |- context [export_loop _ _ 0 ?h ?t ?z ?m ?l] =>
      pose proof (export_loop_log h 0 t z m l) as Hlog;
      pose proof (export_loop_zip h 0 t z m l) as Hzip;
      destruct (export_loop audioBlobToVideo toLocaleString 0 h t z m l)
        as [result log1]
  end.
  cbv zeta in Hlog. cbn [fst snd] in Hlog, Hzip.
  destruct Hlog as (Ht & Hd & Hr).
  destruct result as [[zip manifest]|].
  - destruct (Hzip zip manifest stored_start eq_refl)
      as ((Hk & Hsize & Hfiles) & Hsub & Hentries).
    cbn [Nat.add] in Hk, Hsize, Hfiles, Hentries.
    assert (Hfresh : zip !! "manifest.txt" = None).
    { apply eq_None_not_Some. intros Hs. apply Hk in Hs.
      by apply known_not_manifest in Hs. }
    eexists _, _, manifest. unfold zip_file.
    change ("" +:+ "manifest.txt") with "manifest.txt".
    split; [|split; [|split; [|split]]].
    + unfold downloads in *. rewrite !omap_app, Hd. reflexivity.
    + rewrite file_entries_insert by done.
      rewrite map_size_insert_None by (by apply file_entries_lookup_None).
      rewrite Hfiles. cbn [length]. lia.
    + by rewrite lookup_insert_eq.
    + intros k gen Hkg. destruct (Hentries k gen Hkg) as (Hw & v & Hv & Hvz).
      assert (Hnw : "manifest.txt" <> wav_name k gen).
      { destruct (wav_name_numbered k gen) as [r ->]. apply manifest_not_wav. }
      assert (Hnv : "manifest.txt" <> video_name k gen v).
      { destruct (video_name_numbered k gen v) as [r ->].
        apply manifest_not_video. }
      split; [by rewrite lookup_insert_ne|].
      exists v. split; [done|]. by rewrite lookup_insert_ne.
    + apply archive_names_distinct.
  - destruct Hr as (n & failed & Hn & Hnone & _).
    specialize (Hall n failed Hn). cbn [Nat.add] in Hnone.
    rewrite Hnone in Hall. by destruct Hall.
Qed.

End Handler.

Lemma handleExportAll_aborts_on_failure_witness :
  let log := handleExportAll second_fails (fun _ => "") 0 0 [record1; record2] in
  downloads log = []
  /\ toasts log = [("Bulk export failed during video synthesis.", error)]
  /\ NoDup (derivations log)
  /\ exists n failed,
       [record1; record2] !! n = Some failed
       /\ second_fails n (blob failed) (text failed) (voiceId failed) = None
       /\ derivations log = take (S n) (indexed 0 [record1; record2]).
Proof.
  cbv zeta.
  apply (handleExportAll_aborts_on_failure second_fails (fun _ => "") 0 0
           [record1; record2] 1 record2); reflexivity.
Defined.

Example archive_names_example :
  wav_name 0 record1 = "wav_audio/1_Kore__1x__123e4567.wav"
  /\ video_name 1 record2 (mkBlob [] "video/mp4")
     = "mp4_video/2_Puck__1_5x__223e4567.mp4".
Proof. split; reflexivity. Qed.

Lemma handleExportAll_archive_witness :
  exists filename archive,
    downloads (handleExportAll always_webm (fun _ => "") 0 0 [record1; record2])
    = [(filename, archive)]
    /\ size (file_entries archive) = 5%nat.
Proof.
  destruct (proj2 (handleExportAll_archive always_webm (fun _ => "") 0 0)
              [record1; record2])
    as (filename & archive & manifest & Hd & Hfiles & _).
  - discriminate.
  - intros k gen _. by eexists.
  - exists filename, archive. split; [exact Hd|exact Hfiles].
Defined.

(** C2 as stated fails for zero records: no archive is produced, so
    there is none holding just an empty manifest. *)
Lemma handleExportAll_empty_no_archive :
  ~ exists filename archive,
      (filename, archive)
      ∈ downloads (handleExportAll (fun _ _ _ _ => None) (fun _ => "") 0 0 []).
Proof. intros (filename & archive & H). cbn in H. by apply elem_of_nil in H. Qed.

End PackagerProofs.

(* ================================================================== *)
(** * More on the WAV encoder *)
(* ================================================================== *)

Module WavMore.
Import Wav WavProofs.

Lemma setUint8_Some view off v :
  (off < length view)%nat ->
  setUint8 view off v = Some (<[off := byte_of_Z v]> view).
Proof.
  intros H. unfold setUint8.
  destruct (Nat.leb_spec (off + 1) (length view)); [done|lia].
Qed.

Lemma setUint8_None view off v :
  (length view <= off)%nat -> setUint8 view off v = None.
Proof.
  intros H. unfold setUint8.
  destruct (Nat.leb_spec (off + 1) (length view)); [lia|done].
Qed.

(** X1: [writeString] stays inside the view or throws: it succeeds exactly
    when the string is empty or fits between [offset] and the end of the
    view; it then replaces exactly those bytes by the character codes and
    leaves the length and every other byte as they were. *)
Theorem writeString_bounds (view : list byte) (offset : nat) (s : string) :
  (writeString view offset s = None <->
     s <> EmptyString /\ (length view < offset + String.length s)%nat)
  /\ forall view',
       writeString view offset s = Some view' ->
       view' = take offset view
               ++ map (fun c => byte_of_Z (Z.of_N (N_of_ascii c)))
                      (list_ascii_of_string s)
               ++ drop (offset + String.length s) view.
Proof.
  revert view offset. induction s as [|c s IH]; intros view offset.
  - cbn [writeString String.length list_ascii_of_string map app].
    split.
    + split; [discriminate|]. by intros [? _].
    + intros view' [= <-]. rewrite Nat.add_0_r. by rewrite take_drop.
  - cbn [writeString String.length list_ascii_of_string map].
    destruct (decide (offset < length view)%nat) as [Hlt|Hge].
    + rewrite setUint8_Some by done. cbn [mbind option_bind].
      destruct (IH (<[offset := byte_of_Z (Z.of_N (N_of_ascii c))]> view)
                   (S offset)) as [IHnone IHsome].
      rewrite length_insert in IHnone. split.
      * rewrite IHnone. split.
        { intros [_ H]. split; [discriminate|lia]. }
        intros [_ H]. split; [|lia]. intros ->.
        cbn [String.length] in H. lia.
      * intros view' Hw. rewrite (IHsome view' Hw).
        rewrite drop_insert_lt by lia.
        rewrite (take_S_r _ _ (byte_of_Z (Z.of_N (N_of_ascii c)))).
        2:{ by apply list_lookup_insert_eq. }
        rewrite take_insert_ge by lia.
        rewrite <- app_assoc. cbn [app].
        by replace (S offset + String.length s)%nat
          with (offset + S (String.length s))%nat by lia.
    + rewrite setUint8_None by lia. cbn [mbind option_bind]. split.
      * split; [|done]. intros _. split; [discriminate|lia].
      * discriminate.
Qed.

(** X2: [pcmToWav] never throws, whatever the rate (zero, negative or beyond
    32 bits): the result has [44 + n] bytes, the payload sits unchanged
    behind the header, and the four-byte fields hold [36 + n], the rate,
    twice the rate and [n] modulo [2 ^ 32]. *)
Theorem pcmToWav_any_rate (pcm : list byte) (r : Z) :
  exists wav,
    pcmToWav pcm r = Some wav
    /\ length (blob_bytes wav) = (44 + length pcm)%nat
    /\ drop 44 (blob_bytes wav) = pcm
    /\ getUint32_le (blob_bytes wav) 4 = (36 + Z.of_nat (length pcm)) mod 2 ^ 32
    /\ getUint32_le (blob_bytes wav) 24 = r mod 2 ^ 32
    /\ getUint32_le (blob_bytes wav) 28 = (r * 2) mod 2 ^ 32
    /\ getUint32_le (blob_bytes wav) 40 = Z.of_nat (length pcm) mod 2 ^ 32.
Proof.
  eexists. split; [apply pcmToWav_eq|]. cbn [blob_bytes].
  pose proof (wav_header_fields (length pcm) r pcm) as H. cbv zeta in H.
  destruct H as (_ & H4 & _ & _ & _ & _ & _ & H24 & H28 & _ & _ & _ & H40 & Hd).
  rewrite length_app, wav_header_length. done.
Qed.

End WavMore.

(* ================================================================== *)
(** * Properties of speech synthesis *)
(* ================================================================== *)

Module SpeechProofs.
Import Speech.

Lemma string_eqb_empty (s : string) :
  String.eqb s "" = true <-> s = ""%string.
Proof. apply String.eqb_eq. Qed.

Lemma decode_encode (bytes : list byte) :
  Base64.decodeBase64 (Base64.encode bytes) = Some bytes.
Proof.
  unfold Base64.decodeBase64, Base64.encode, Base64.btoa.
  rewrite list_ascii_of_string_of_list_ascii, map_map.
  rewrite Base64Proofs.atob_b64_encode.
  - cbn [mbind option_bind]. rewrite list_ascii_of_string_of_list_ascii.
    rewrite !map_map. f_equal.
    rewrite <- (map_id bytes) at 2. apply map_ext. intros b.
    apply Base64Proofs.byte_roundtrip.
  - apply Forall_fmap, Forall_forall. intros b _. apply N_ascii_bounded.
Qed.

Lemma encode_empty (bytes : list byte) :
  Base64.encode bytes = ""%string <-> bytes = [].
Proof.
  split; [|by intros ->].
  unfold Base64.encode, Base64.btoa.
  rewrite list_ascii_of_string_of_list_ascii, map_map.
  destruct bytes as [|a [|b [|c rest]]]; [done|discriminate..].
Qed.

Section Host.

Variable apiKey : string.
Variable generateContent : string -> string -> Reply.
Variable number_to_string : Q -> string.

Lemma wav_of_response_inr data wav :
  wav_of_response data = inr wav <->
  exists base64Audio pcmData,
    data = Some base64Audio /\ base64Audio <> ""%string
    /\ Base64.decodeBase64 base64Audio = Some pcmData
    /\ wav = mkBlob (Wav.wav_header (length pcmData) 24000 ++ pcmData)
                    "audio/wav".
Proof.
  unfold wav_of_response. split.
  - destruct data as [base64Audio|]; [|discriminate].
    destruct (String.eqb_spec base64Audio ""); [discriminate|].
    destruct (Base64.decodeBase64 base64Audio) as [pcmData|] eqn:E;
      [|discriminate].
    rewrite WavProofs.pcmToWav_eq. intros [= <-]. by exists base64Audio, pcmData.
  - intros (base64Audio & pcmData & -> & Hne & Hd & ->).
    destruct (String.eqb_spec base64Audio ""); [done|].
    by rewrite Hd, WavProofs.pcmToWav_eq.
Qed.

(** X3: the backend is asked at most once: not at all without a key (the
    call then fails with the missing-key error), otherwise exactly once,
    with the text, prefixed by the speed instruction unless the speed is
    1, and the chosen voice. *)
Theorem generateSpeech_backend_calls (text voiceName : string) (speed : Q) :
  let r := generateSpeech apiKey generateContent number_to_string
                          text voiceName speed in
  (apiKey = ""%string -> r = (inl ApiKeyMissing, []))
  /\ (apiKey <> ""%string ->
      backend_calls r.2
      = [((if Qeq_bool speed 1 then ""
           else "Speak at " +:+ number_to_string speed +:+ "x speed. ")
          +:+ text, voiceName)]).
Proof.
  cbv zeta. unfold generateSpeech. split.
  - intros ->. reflexivity.
  - intros Hne. destruct (String.eqb_spec apiKey ""); [done|].
    destruct (generateContent _ _) as [message|data]; [reflexivity|].
    destruct (wav_of_response data); reflexivity.
Qed.

(** X4: [generateSpeech] succeeds exactly when a key is configured and the
    backend answers with a non-empty string that [decodeBase64] accepts;
    the result is then the WAV file of the decoded bytes at 24000 Hz: 44
    header bytes, then the bytes themselves. No [RangeError] ever arises. *)
Theorem generateSpeech_success (text voiceName : string) (speed : Q)
    (wav : Blob) :
  (generateSpeech apiKey generateContent number_to_string
                  text voiceName speed).1 = inr wav
  <->
  apiKey <> ""%string
  /\ exists base64Audio pcmData,
       generateContent (fullPrompt number_to_string text speed) voiceName
       = Response (Some base64Audio)
       /\ base64Audio <> ""%string
       /\ Base64.decodeBase64 base64Audio = Some pcmData
       /\ blob_type wav = "audio/wav"%string
       /\ length (blob_bytes wav) = (44 + length pcmData)%nat
       /\ take 44 (blob_bytes wav) = Wav.wav_header (length pcmData) 24000
       /\ drop 44 (blob_bytes wav) = pcmData.
Proof.
  unfold generateSpeech. split.
  - destruct (String.eqb_spec apiKey ""); [discriminate|].
    destruct (generateContent _ _) as [message|data] eqn:Er; [discriminate|].
    destruct (wav_of_response data) as [e|w] eqn:Ew; [discriminate|].
    cbn [fst]. intros [= ->]. split; [done|].
    apply wav_of_response_inr in Ew
      as (base64Audio & pcmData & -> & Hne & Hd & ->).
    exists base64Audio, pcmData. cbn [blob_type blob_bytes].
    repeat split; try done.
  - intros (Hk & base64Audio & pcmData & Hr & Hne & Hd & Ht & Hl & Htake & Hdrop).
    destruct (String.eqb_spec apiKey ""); [done|].
    rewrite Hr.
    assert (Hw : wav_of_response (Some base64Audio) = inr wav).
    { apply wav_of_response_inr. exists base64Audio, pcmData.
      repeat split; try done.
      destruct wav as [bytes type]. cbn in *. subst type. f_equal.
      by rewrite <- (take_drop 44 bytes), Htake, Hdrop. }
    by rewrite Hw.
Qed.

(** X5: end to end with the repository's own encoder: when the backend
    answers with [encode(pcm)], a non-empty payload comes back as the WAV
    file holding exactly [pcm]; an empty payload encodes to the empty
    string and is reported as missing audio, not as a header-only file. *)
Theorem generateSpeech_of_encoded (text voiceName : string) (speed : Q)
    (pcm : list byte) :
  apiKey <> ""%string ->
  generateContent (fullPrompt number_to_string text speed) voiceName
  = Response (Some (Base64.encode pcm)) ->
  (generateSpeech apiKey generateContent number_to_string
                  text voiceName speed).1
  = match pcm with
    | [] => inl NoAudioData
    | _ => inr (mkBlob (Wav.wav_header (length pcm) 24000 ++ pcm) "audio/wav")
    end.
Proof.
  intros Hk Hr. unfold generateSpeech.
  destruct (String.eqb_spec apiKey ""); [done|]. rewrite Hr.
  unfold wav_of_response.
  destruct (String.eqb_spec (Base64.encode pcm) "") as [He|He].
  - apply encode_empty in He. by subst.
  - rewrite decode_encode, WavProofs.pcmToWav_eq. cbn [fst].
    destruct pcm; [|done]. by destruct He.
Qed.

End Host.

Lemma generateSpeech_of_encoded_witness :
  (generateSpeech "key" (fun _ _ => Response (Some (Base64.encode ["001"%byte; "002"%byte])))
                  (fun _ => "1.5"%string) "hello" "Kore" (3 # 2)).1
  = inr (mkBlob (Wav.wav_header 2 24000 ++ ["001"%byte; "002"%byte]) "audio/wav").
Proof.
  apply (generateSpeech_of_encoded "key"
           (fun _ _ => Response (Some (Base64.encode ["001"%byte; "002"%byte])))
           (fun _ => "1.5"%string) "hello" "Kore" (3 # 2)
           ["001"%byte; "002"%byte]).
  - discriminate.
  - reflexivity.
Defined.

End SpeechProofs.

(* ================================================================== *)
(** * Properties of the studio's state *)
(* ================================================================== *)

Module StudioProofs.
Import Packager Studio.

(** ** Trimming *)

Lemma rev_app_chars (s1 s2 : string) :
  list_ascii_of_string (String.rev_app s1 s2)
  = rev (list_ascii_of_string s1) ++ list_ascii_of_string s2.
Proof.
  revert s2. induction s1 as [|c s1 IH]; intros s2; [reflexivity|].
  cbn [String.rev_app list_ascii_of_string rev]. rewrite IH.
  cbn [list_ascii_of_string]. by rewrite <- app_assoc.
Qed.

Lemma rev_chars (s : string) :
  list_ascii_of_string (String.rev s) = rev (list_ascii_of_string s).
Proof. unfold String.rev. rewrite rev_app_chars. cbn. by rewrite app_nil_r. Qed.

Lemma chars_empty (s : string) : list_ascii_of_string s = [] -> s = ""%string.
Proof. by destruct s. Qed.

Lemma trim_start_empty (s : string) :
  trim_start s = ""%string <-> is_blank s = true.
Proof.
  unfold is_blank. induction s as [|c s IH]; [done|].
  cbn [trim_start list_ascii_of_string forallb].
  destruct (is_js_space c); cbn [andb]; [done|]. split; discriminate.
Qed.

Lemma trim_start_head (s : string) c s' :
  trim_start s = String c s' -> is_js_space c = false.
Proof.
  induction s as [|d s IH]; [discriminate|]. cbn [trim_start].
  destruct (is_js_space d) eqn:E; [done|]. by intros [= <- _].
Qed.

Lemma trim_empty (s : string) : trim s = ""%string <-> is_blank s = true.
Proof.
  unfold trim. split.
  - intros H. apply (f_equal list_ascii_of_string) in H.
    rewrite rev_chars in H. cbn in H.
    apply (f_equal (@rev ascii)) in H. rewrite rev_involutive in H. cbn in H.
    apply chars_empty, trim_start_empty in H. unfold is_blank in H.
    rewrite rev_chars, forallb_forall in H.
    apply trim_start_empty.
    destruct (trim_start s) as [|c s'] eqn:E; [done|].
    apply trim_start_head in E. rewrite H in E; [done|].
    apply in_rev. rewrite rev_involutive. by left.
  - intros H. apply trim_start_empty in H. by rewrite H.
Qed.

Section Host.

Variable number_to_string : Q -> string.

(** ** [handleGenerate] *)

(** X6: a text of white space only is turned away before anything else
    happens: one validation toast, no call of [generateSpeech], nothing
    else changed. Any other text leads to exactly one call, with the text,
    voice and speed of the state. *)
Theorem handleGenerate_validation (host : GenerateHost) (s : State) :
  let s' := handleGenerate number_to_string host s in
  if is_blank (text s) then
    s' = with_log s [ShowToast
           "Validation Error: Please enter some text to generate audio." error]
    /\ speech_calls (log s') = speech_calls (log s)
  else
    speech_calls (log s')
    = speech_calls (log s) ++ [(text s, selectedVoice s, speechSpeed s)].
Proof.
  cbv zeta. unfold handleGenerate.
  destruct (is_blank (text s)) eqn:Eb.
  - apply trim_empty in Eb. rewrite Eb. cbn [String.eqb].
    split; [done|]. unfold speech_calls, with_log. cbn [log].
    rewrite omap_app. cbn. by rewrite app_nil_r.
  - destruct (String.eqb_spec (trim (text s)) "") as [Et|_].
    { apply trim_empty in Et. congruence. }
    destruct (outcome host); cbn [log]; unfold speech_calls;
      by rewrite omap_app.
Qed.

(** X7: whatever the outcome, one call of [handleGenerate] shows exactly one
    toast and keeps the records already in the history; the history
    gains a record, at its front, only when the text is not blank and the
    synthesis succeeded, and that record holds the blob, the text and the
    new object URL; a failed synthesis creates no object URL. After a
    synthesis, failed or not, [isGenerating] is off. *)
Theorem handleGenerate_outcome (host : GenerateHost) (s : State) :
  let s' := handleGenerate number_to_string host s in
  length (shown (log s')) = S (length (shown (log s)))
  /\ match is_blank (text s), outcome host with
     | false, inr audioBlob =>
         exists gen,
           history s' = gen :: history s
           /\ blob gen = audioBlob /\ Packager.text gen = text s
           /\ id gen = uuid host /\ audioUrl gen = audioUrl_new host
           /\ objectUrls s' = audioUrl_new host :: objectUrls s
           /\ isGenerating s' = false
     | false, inl _ =>
         history s' = history s /\ objectUrls s' = objectUrls s
         /\ isGenerating s' = false
     | true, _ =>
         history s' = history s /\ objectUrls s' = objectUrls s
         /\ isGenerating s' = isGenerating s
     end.
Proof.
  cbv zeta. unfold handleGenerate.
  destruct (is_blank (text s)) eqn:Eb.
  - apply trim_empty in Eb. rewrite Eb. cbn [String.eqb].
    unfold with_log, shown. cbn [log history objectUrls isGenerating].
    rewrite omap_app, length_app. cbn. split; [lia|done].
  - destruct (String.eqb_spec (trim (text s)) "") as [Et|_].
    { apply trim_empty in Et. congruence. }
    destruct (outcome host) as [message|audioBlob];
      cbn [log history objectUrls isGenerating]; unfold shown;
      rewrite omap_app, length_app; cbn; (split; [lia|]); [done|].
    eexists. by repeat split.
Qed.

(** ** [removeHistoryItem] *)

Lemma find_by_id_None id0 l :
  find_by_id id0 l = None <-> id0 ∉ map id l.
Proof.
  unfold find_by_id. induction l as [|g l IH]; cbn [find map].
  - split; [|done]. intros _ H. by apply elem_of_nil in H.
  - destruct (String.eqb_spec (id g) id0) as [<-|Hne].
    + split; [discriminate|]. intros H. destruct H. by left.
    + rewrite IH, not_elem_of_cons. split; [|by intros [_ ?]].
      intros H. split; [congruence|done].
Qed.

Lemma filter_id_absent id0 (l : list Generation) :
  id0 ∉ map id l ->
  List.filter (fun i => negb (String.eqb (id i) id0)) l = l.
Proof.
  induction l as [|g l IH]; [done|]. cbn [map List.filter].
  rewrite not_elem_of_cons. intros [Hne Hl].
  destruct (String.eqb_spec (id g) id0); [congruence|]. cbn [negb].
  by rewrite IH.
Qed.

Lemma removeHistoryItem_absent (id0 : string) (s : State) :
  id0 ∉ map id (history s) -> removeHistoryItem id0 s = s.
Proof.
  intros Habs. unfold removeHistoryItem. cbv zeta.
  rewrite filter_id_absent by done.
  apply find_by_id_None in Habs. rewrite Habs. by destruct s.
Qed.

(** X8: removing a record: afterwards the history holds exactly the records
    whose id differs from the given one, in their old order; for an id
    that no record has, nothing changes at all and nothing is revoked. *)
Theorem removeHistoryItem_history (id0 : string) (s : State) :
  let s' := removeHistoryItem id0 s in
  (forall gen, gen ∈ history s' <-> gen ∈ history s /\ id gen <> id0)
  /\ history s' `sublist_of` history s
  /\ (id0 ∉ map id (history s) -> s' = s).
Proof.
  cbv zeta. unfold removeHistoryItem. cbn [history]. split; [|split].
  - intros gen. rewrite !list_elem_of_In, filter_In.
    destruct (String.eqb_spec (id gen) id0); cbn [negb]; split;
      intros [? ?]; split; congruence.
  - induction (history s) as [|g l IH]; [done|]. cbn [List.filter].
    destruct (negb _); [by apply sublist_skip|by apply sublist_cons].
  - apply removeHistoryItem_absent.
Qed.


Lemma revoke_absent url (urls : list string) :
  url ∉ urls -> revoke url urls = urls.
Proof.
  unfold revoke. induction urls as [|u urls IH]; [done|].
  rewrite not_elem_of_cons. intros [Hne Hl]. cbn [List.filter].
  destruct (String.eqb_spec u url); [congruence|]. cbn [negb]. by rewrite IH.
Qed.

Lemma revoke_app url (l1 l2 : list string) :
  revoke url (l1 ++ l2) = revoke url l1 ++ revoke url l2.
Proof. apply List.filter_app. Qed.

Lemma revoke_self url (urls : list string) :
  revoke url (url :: urls) = revoke url urls.
Proof. unfold revoke. cbn [List.filter]. by rewrite String.eqb_refl. Qed.

Lemma find_by_id_middle before item after :
  id item ∉ map id before ->
  find_by_id (id item) (before ++ item :: after) = Some item.
Proof.
  unfold find_by_id. induction before as [|g before IH]; cbn [map app find].
  - by rewrite String.eqb_refl.
  - rewrite not_elem_of_cons. intros [Hne Hb].
    destruct (String.eqb_spec (id g) (id item)); [congruence|]. by apply IH.
Qed.

Lemma removeHistoryItem_middle (item : Generation) (s : State) before after :
  history s = before ++ item :: after ->
  id item ∉ map id before -> id item ∉ map id after ->
  history (removeHistoryItem (id item) s) = before ++ after
  /\ objectUrls (removeHistoryItem (id item) s)
     = revoke (audioUrl item) (objectUrls s).
Proof.
  intros Heq Hbefore Hafter.
  unfold removeHistoryItem. cbn [history objectUrls]. rewrite Heq.
  rewrite find_by_id_middle by done. split; [|done].
  rewrite List.filter_app. cbn [List.filter]. rewrite String.eqb_refl.
  cbn [negb]. by rewrite !filter_id_absent.
Qed.

Lemma NoDup_ids_split (item : Generation) (l : list Generation) :
  NoDup (map id l) -> item ∈ l ->
  exists before after,
    l = before ++ item :: after
    /\ (id item ∉ map id before) /\ (id item ∉ map id after).
Proof.
  intros Hnd Hin.
  apply list_elem_of_split in Hin as (before & after & Heq).
  exists before, after. split; [done|].
  rewrite Heq, map_app in Hnd. cbn [map] in Hnd.
  apply NoDup_app in Hnd as (_ & Hdisj & Hnd2).
  apply NoDup_cons in Hnd2 as [Hafter _]. split; [|done].
  intros H. apply (Hdisj _ H). by left.
Qed.

(** X9: when the ids of the history differ from one another, removing the
    id of a record takes out that record and no other, and revokes the
    object URL of that record. *)
Theorem removeHistoryItem_unique (item : Generation) (s : State) :
  NoDup (map id (history s)) ->
  item ∈ history s ->
  let s' := removeHistoryItem (id item) s in
  exists before after,
    history s = before ++ item :: after
    /\ history s' = before ++ after
    /\ objectUrls s' = revoke (audioUrl item) (objectUrls s).
Proof.
  intros Hnd Hin. cbv zeta.
  destruct (NoDup_ids_split item (history s) Hnd Hin)
    as (before & after & Heq & Hb & Ha).
  exists before, after. split; [done|].
  by apply removeHistoryItem_middle.
Qed.

(** ** Sequences of actions *)

Lemma substring_length n (t : string) :
  (String.length (substring 0 n t) <= n)%nat.
Proof.
  revert t. induction n as [|n IH]; intros [|c t]; cbn; try lia.
  specialize (IH t). lia.
Qed.

Lemma perform_consistent (s : State) (a : Action) :
  consistent s -> fresh s a -> consistent (perform number_to_string s a).
Proof.
  intros (Hids & Hurls & Heq & Hlen) Hfresh.
  destruct a as [host|id0|t|v| | | |]; [| | | | |done..].
  - cbn [perform]. unfold handleGenerate.
    destruct (String.eqb (trim (text s)) ""); [done|].
    destruct Hfresh as [Hid Hurl].
    destruct (outcome host); [done|].
    unfold consistent. cbn [history objectUrls text map id audioUrl].
    repeat split; [by apply NoDup_cons|by apply NoDup_cons|by rewrite Heq|done].
  - cbn [perform]. destruct (decide (id0 ∈ map id (history s))) as [Hin|Habs].
    + apply list_elem_of_fmap in Hin as (item & -> & Hitem).
      destruct (NoDup_ids_split item (history s) Hids Hitem)
        as (before & after & Hh & Hb & Ha).
      destruct (removeHistoryItem_middle item s before after Hh Hb Ha)
        as [Hh' Hu'].
      unfold consistent. rewrite Hh', Hu'.
      assert (Ht : text (removeHistoryItem (id item) s) = text s) by done.
      rewrite Ht. rewrite Heq, Hh in Hurls |- *. rewrite Hh in Hids.
      rewrite map_app in Hids, Hurls |- *. cbn [map] in Hids, Hurls |- *.
      apply NoDup_app in Hids as (Hi1 & Hi2 & Hi3).
      apply NoDup_cons in Hi3 as [_ Hi3].
      apply NoDup_app in Hurls as (Hu1 & Hu2 & Hu3).
      apply NoDup_cons in Hu3 as [Hu4 Hu3].
      assert (Hu5 : audioUrl item ∉ map audioUrl before).
      { intros H. apply (Hu2 _ H). by left. }
      rewrite !map_app. cbn [map].
      rewrite revoke_app, revoke_self, !revoke_absent by done.
      repeat split; [| |done].
      * apply NoDup_app. repeat split; [done| |done].
        intros x Hx Hx'. apply (Hi2 x Hx). by right.
      * apply NoDup_app. repeat split; [done| |done].
        intros x Hx Hx'. apply (Hu2 x Hx). by right.
    + rewrite (removeHistoryItem_absent id0 s Habs). by repeat split.
  - cbn [perform]. unfold applyAssistantText, consistent.
    cbn [history objectUrls text]. repeat split; try done.
    apply substring_length.
  - cbn [perform]. unfold onChange, with_text, consistent.
    cbn [history objectUrls text]. repeat split; try done.
    apply substring_length.
  - cbn [perform]. unfold clear, with_text, consistent.
    cbn [history objectUrls text String.length]. repeat split; try done.
    unfold MAX_CHARS. lia.
Qed.

(** X10: over any sequence of generations, removals and edits in which the
    host hands out unused ids and URLs, the object URLs held are exactly
    the audio URLs of the records in the history, each once: none is
    leaked and none is revoked while its record is still listed; the ids
    stay distinct and the text never exceeds [MAX_CHARS]. *)
Theorem session_consistent (s : State) (actions : list Action) :
  consistent s ->
  all_fresh number_to_string s actions ->
  consistent (perform_all number_to_string s actions).
Proof.
  revert s. induction actions as [|a actions IH]; intros s Hs Hf; [done|].
  destruct Hf as [Hfa Hrest]. cbn [perform_all fold_left]. apply IH; [|done].
  by apply perform_consistent.
Qed.

End Host.

Lemma removeHistoryItem_unique_witness :
  exists before after,
    [record1; record2] = before ++ record2 :: after
    /\ history (removeHistoryItem (id record2)
                  (mkState "" editor "Kore" 1 false [record1; record2]
                           ["blob:1"; "blob:2"] []))
       = before ++ after.
Proof.
  destruct (removeHistoryItem_unique record2
              (mkState "" editor "Kore" 1 false [record1; record2]
                       ["blob:1"; "blob:2"] []))
    as (before & after & H1 & H2 & _).
  - apply (bool_decide_unpack _). by vm_compute.
  - cbn [history]. apply list_elem_of_In. right. by left.
  - by exists before, after.
Defined.

Lemma session_consistent_witness :
  consistent
    (perform_all (fun _ => "1") new_session
         [Change "hello";
          Generate (mkGenerateHost (inr (mkBlob [] "audio/wav")) "blob:1" "id-1" 10);
          Generate (mkGenerateHost (inr (mkBlob [] "audio/wav")) "blob:2" "id-2" 20);
          Remove "id-1"]).
Proof.
  apply session_consistent.
  - unfold consistent, new_session. cbn [history objectUrls text map String.length].
    split; [constructor|]. split; [constructor|]. split; [done|].
    unfold MAX_CHARS. lia.
  - cbn. split; [done|]. split.
    + split; apply not_elem_of_nil.
    + split; [|done]. split; apply (bool_decide_unpack _); by vm_compute.
Defined.

End StudioProofs.

(* ================================================================== *)
(** * More on the muxer *)
(* ================================================================== *)

Module MuxMore.
Import Mux Views.

Section Host.

Variable measureText : string -> Q.
Variable mp4_supported : bool.

(** ** A settled promise *)

Lemma handle_settled s e :
  promise s <> Pending -> promise (handle mp4_supported s e) = promise s.
Proof.
  intros H. destruct e; cbn [handle].
  - destruct (handlers_installed s); [|done].
    unfold on_canplaythrough. cbn [source_connected promise].
    by destruct (source_connected s).
  - destruct (handlers_installed s); [|done]. cbn.
    by destruct (promise s).
  - destruct (onended_installed s); [|done]. unfold on_ended.
    by destruct (recorder s).
  - by destruct (recorder s).
  - destruct (recorder s); [done|cbn; by destruct (promise s)..].
Qed.

(** X11: once the promise is resolved or rejected, no event changes it: a
    late [error] cannot turn a result into a failure, and a further
    recorder [stop] cannot replace the blob. *)
Theorem promise_settles_once (s : State) (events : list Event) :
  promise s <> Pending ->
  promise (run mp4_supported s events) = promise s.
Proof.
  revert s. induction events as [|e events IH]; intros s H; [done|].
  cbn [run fold_left]. fold (run mp4_supported (handle mp4_supported s e) events).
  rewrite IH; rewrite handle_settled; done.
Qed.

(** ** The container type *)

Lemma handle_typed s e :
  typed mp4_supported s -> typed mp4_supported (handle mp4_supported s e).
Proof.
  intros H. pose proof H as [Hm Hp]. destruct e; cbn [handle].
  - destruct (handlers_installed s); [|done].
    unfold on_canplaythrough. cbn [source_connected].
    destruct (source_connected s); by split.
  - destruct (handlers_installed s); [|done]. split; [done|].
    cbn. intros b. destruct (promise s) eqn:Ep; cbn; [done| |done].
    intros [= <-]. by apply Hp.
  - destruct (onended_installed s); [|done]. unfold on_ended.
    destruct (recorder s) eqn:E; [done| |done]. split; cbn; [|done].
    intros _. apply Hm. rewrite ?E. done.
  - destruct (recorder s) eqn:E; [done|..]; (split; cbn; [|done]);
      intros _; apply Hm; rewrite ?E; done.
  - assert (Hr : recorder s <> NoRecorder -> typed mp4_supported (on_stop s)).
    { intros Hr. split; cbn; [done|]. intros b.
      destruct (promise s) eqn:Ep; cbn.
      - intros [= <-]. cbn. by apply Hm.
      - intros [= <-]. by apply Hp.
      - done. }
    destruct (recorder s) eqn:E; [done|..]; apply Hr; rewrite ?E; done.
Qed.

Lemma run_typed events s :
  typed mp4_supported s -> typed mp4_supported (run mp4_supported s events).
Proof.
  revert s. induction events as [|e events IH]; intros s H; [done|].
  cbn [run fold_left]. by apply IH, handle_typed.
Qed.

(** X12: whatever events arrive and in whatever order, a blob the promise is
    resolved with is typed [video/mp4] when the host supports it and
    [video/webm] otherwise, so that the exporter's
    [type.includes('mp4')] test names the matching file extension. *)
Theorem resolved_blob_type
    (context2d_available : bool) (audioBlob : Blob) (text voiceName : string)
    (events : list Event) (finalBlob : Blob) :
  promise (run mp4_supported
               (audioBlobToVideo measureText context2d_available
                                 audioBlob text voiceName) events)
  = Resolved finalBlob ->
  blob_type finalBlob = (if mp4_supported then "video/mp4" else "video/webm")
  /\ Packager.video_ext finalBlob = (if mp4_supported then "mp4" else "webm").
Proof.
  intros H.
  assert (Ht : blob_type finalBlob = container mp4_supported).
  { eapply (run_typed events); [|exact H].
    unfold audioBlobToVideo. destruct context2d_available; by split. }
  unfold container in Ht.
  split; [done|]. unfold Packager.video_ext. rewrite Ht.
  by destruct mp4_supported.
Qed.

(** ** The normal course *)

Lemma run_split s events1 events2 :
  run mp4_supported s (events1 ++ events2)
  = run mp4_supported (run mp4_supported s events1) events2.
Proof. apply fold_left_app. Qed.

Lemma run_dataavailable p f h o n c sc r m ch pl oe chunks1 :
  r <> NoRecorder ->
  run mp4_supported (mkState p f h o n c sc r m ch pl oe)
      (map DataAvailable chunks1)
  = mkState p f h o n c sc r m (ch ++ chunks1) pl oe.
Proof.
  intros H. revert ch. induction chunks1 as [|data chunks1 IH]; intros ch.
  - cbn. by rewrite app_nil_r.
  - cbn [map run fold_left handle recorder].
    destruct r; [done|..]; unfold on_dataavailable; cbn [promise frame
      handlers_installed object_url_live open_audio_contexts capture_started
      source_connected recorder mimeType chunks playback_started
      onended_installed];
      match goal with
      | |- fold_left _ _ ?st = ?rhs =>
          change (run mp4_supported st (map DataAvailable chunks1) = rhs)
      end;
      rewrite IH; by rewrite <- app_assoc.
Qed.

(** X13: the normal course of events: [canplaythrough], data chunks while
    the audio plays, [ended], the chunks flushed by the stop, then the
    recorder's [stop]. The promise is resolved with all chunks, in the
    order they came; the audio context is closed and the object URL
    revoked. *)
Theorem normal_course
    (audioBlob : Blob) (text voiceName : string)
    (playing flushed : list (list byte)) :
  let s := run mp4_supported
               (audioBlobToVideo measureText true audioBlob text voiceName)
               ([CanPlayThrough] ++ map DataAvailable playing ++ [Ended]
                ++ map DataAvailable flushed ++ [RecorderStop]) in
  promise s
  = Resolved (mkBlob (concat (playing ++ flushed))
                     (if mp4_supported then "video/mp4" else "video/webm"))
  /\ object_url_live s = false
  /\ open_audio_contexts s = 0%nat
  /\ recorder s = Inactive.
Proof.
  cbv zeta. rewrite !run_split.
  unfold audioBlobToVideo. cbn [negb].
  set (f := _ :: _ :: Frame.body_lines measureText text).
  change (run mp4_supported ?s [CanPlayThrough])
    with (on_canplaythrough mp4_supported s).
  unfold on_canplaythrough. cbn [source_connected promise frame
      handlers_installed object_url_live open_audio_contexts capture_started
      recorder mimeType chunks playback_started onended_installed].
  rewrite run_dataavailable by done.
  change (run mp4_supported ?s [Ended]) with (handle mp4_supported s Ended).
  cbn [handle onended_installed]. unfold on_ended.
  cbn [source_connected promise frame
      handlers_installed object_url_live open_audio_contexts capture_started
      recorder mimeType chunks playback_started onended_installed Nat.pred].
  rewrite run_dataavailable by done.
  done.
Qed.

(** ** The object URL *)

Lemma handle_keeps_url s e :
  e <> RecorderStop ->
  object_url_live (handle mp4_supported s e) = object_url_live s.
Proof.
  intros He. destruct e; cbn [handle]; [| | | |done].
  - destruct (handlers_installed s); [|done].
    unfold on_canplaythrough. cbn [source_connected object_url_live].
    by destruct (source_connected s).
  - by destruct (handlers_installed s).
  - destruct (onended_installed s); [|done]. unfold on_ended.
    by destruct (recorder s).
  - by destruct (recorder s).
Qed.

(** X30: the object URL of the audio is revoked by the recorder's [stop]
    handler and by nothing else: over any events among which there is no
    recorder [stop] (errors, a playback that never ends, ...) a live URL
    stays live. *)
Theorem url_revoked_only_on_stop (s : State) (events : list Event) :
  object_url_live s = true ->
  RecorderStop ∉ events ->
  object_url_live (run mp4_supported s events) = true.
Proof.
  revert s. induction events as [|e events IH]; intros s Hs Hn; [done|].
  apply not_elem_of_cons in Hn as [He Hn].
  cbn [run fold_left]. apply IH; [|done].
  rewrite handle_keeps_url by done. exact Hs.
Qed.

(** ** No drawing context *)

(** X14: without a 2d context the call is rejected at once, before any
    object URL is created or any handler installed, and no event changes
    anything afterwards. *)
Theorem no_context_inert
    (audioBlob : Blob) (text voiceName : string) (events : list Event) :
  let s := audioBlobToVideo measureText false audioBlob text voiceName in
  promise s = Rejected CanvasContextNotAvailable
  /\ object_url_live s = false
  /\ frame s = []
  /\ run mp4_supported s events = s.
Proof.
  cbv zeta. repeat split.
  induction events as [|e events IH]; [done|].
  cbn [run fold_left]. by destruct e.
Qed.

End Host.

Lemma promise_settles_once_witness :
  promise (Mux.run true
             (Mux.run true
                (audioBlobToVideo (fun _ => 0%Q) true (mkBlob [] "audio/wav")
                                  "hi" "Kore")
                [CanPlayThrough; Ended; RecorderStop])
             [AudioError; RecorderStop])
  = Resolved (mkBlob [] "video/mp4").
Proof.
  rewrite (promise_settles_once true); [reflexivity|discriminate].
Defined.

Lemma resolved_blob_type_witness :
  blob_type (mkBlob ["001"%byte] "video/webm") = "video/webm"%string
  /\ Packager.video_ext (mkBlob ["001"%byte] "video/webm") = "webm"%string.
Proof.
  apply (resolved_blob_type (fun _ => 0%Q) false true (mkBlob [] "audio/wav")
           "hi" "Kore"
           [CanPlayThrough; DataAvailable ["001"%byte]; Ended; RecorderStop]).
  reflexivity.
Defined.

Lemma url_revoked_only_on_stop_witness :
  object_url_live
    (Mux.run true
       (audioBlobToVideo (fun _ => 0%Q) true (mkBlob [] "audio/wav") "hi" "Kore")
       [CanPlayThrough; DataAvailable []; AudioError; Ended])
  = true.
Proof.
  apply (url_revoked_only_on_stop true); [reflexivity|].
  intros H. repeat (apply elem_of_cons in H as [H|H]; [discriminate H|]).
  by apply elem_of_nil in H.
Defined.

End MuxMore.

(* ================================================================== *)
(** * More on the bulk export *)
(* ================================================================== *)

Module PackagerMore.
Import Packager Views.

(** ** File-name sanitising *)

(** X15: [replace(/[^a-z0-9]/gi, '_')] keeps the length, leaves letters and
    digits where they are, yields nothing but letters, digits and [_]
    (so no path separator or dot comes from a voice name), and changes
    nothing when applied again. *)
Theorem replace_non_alnum_safe (s : string) :
  String.length (replace_non_alnum s) = String.length s
  /\ safe (replace_non_alnum s)
  /\ (forall i c, get i s = Some c ->
        get i (replace_non_alnum s)
        = Some (if is_alnum c then c else "_"%char))
  /\ replace_non_alnum (replace_non_alnum s) = replace_non_alnum s.
Proof.
  induction s as [|c s (IHl & IHs & IHg & IHi)].
  - repeat split; [constructor|]. intros i c H. by destruct i.
  - cbn [replace_non_alnum String.length]. split; [by rewrite IHl|].
    split; [|split].
    + constructor; [|exact IHs].
      destruct (is_alnum c) eqn:E; [by left|by right].
    + intros [|i] c' H; cbn [get] in *.
      * by injection H as <-.
      * by apply IHg.
    + rewrite IHi. f_equal. destruct (is_alnum c) eqn:E; [by rewrite E|done].
Qed.

Section Handler.

Variable audioBlobToVideo : nat -> Blob -> string -> string -> option Blob.
Variable toLocaleString : Z -> string.
Variable startTime endTime : Z.

(** ** Progress reports *)






(** ** The manifest *)

Lemma export_loop_manifest gens : forall i total zip manifest log zip' manifest',
  (export_loop audioBlobToVideo toLocaleString i gens total zip manifest log).1
  = Some (zip', manifest') ->
  manifest'
  = manifest +:+ manifest_items audioBlobToVideo toLocaleString i gens.
Proof.
  induction gens as [|gen rest IH];
    intros i total zip manifest log zip' manifest' Hr.
  - cbn in Hr. injection Hr as _ <-. cbn. by rewrite string_app_nil_r.
  - cbn [export_loop manifest_items] in *. unfold derive.
    destruct (audioBlobToVideo i (blob gen) (text gen) (voiceId gen))
      as [mp4Blob|] eqn:E; [|discriminate Hr].
    apply IH in Hr. by rewrite Hr, string_app_assoc.
Qed.

(** X17: when the export succeeds, the file offered for download is named
    after the clock at the end, and its [manifest.txt] is the heading with
    the date of the start, followed by one entry per record, in the order
    of the history, each naming the two files stored for the record. *)
Theorem handleExportAll_manifest
    (history : list Generation) (filename : string)
    (archive : gmap string ZipEntry) :
  (filename, archive)
  ∈ downloads (handleExportAll audioBlobToVideo toLocaleString
                              startTime endTime history) ->
  filename = "voxgem-studio-export-" +:+ string_of_Z endTime +:+ ".zip"
  /\ archive !! "manifest.txt"
     = Some (ZipText
               ("VoxGem AI Voiceover Export" +:+ nl +:+ "Generated: "
                +:+ toLocaleString startTime +:+ nl +:+ nl
                +:+ manifest_items audioBlobToVideo toLocaleString 0 history)).
Proof.
  unfold handleExportAll.
  destruct history as [|g0 rest]; [by intros ?%elem_of_nil|].
  cbn [length Nat.eqb].
  match goal with
  | |- context [export_loop _ _ 0 ?h ?t ?z ?m ?l] =>
      pose proof (export_loop_manifest h 0 t z m l) as Hman;
      pose proof (PackagerProofs.export_loop_log audioBlobToVideo
                    toLocaleString h 0 t z m l) as Hlog;
      destruct (export_loop audioBlobToVideo toLocaleString 0 h t z m l)
        as [result log1]
  end.
  cbv zeta in Hlog. cbn [fst snd] in Hman, Hlog.
  destruct Hlog as (_ & Hd & _).
  unfold downloads in *.
  destruct result as [[zip manifest]|]; rewrite !omap_app, Hd; cbn;
    [|by intros ?%elem_of_nil].
  intros [= -> ->]%list_elem_of_singleton. split; [done|].
  unfold zip_file. change ("" +:+ "manifest.txt") with "manifest.txt".
  rewrite lookup_insert_eq. f_equal. f_equal.
  rewrite (Hman zip manifest eq_refl). by rewrite !string_app_assoc.
Qed.

End Handler.


Lemma handleExportAll_manifest_witness :
  exists filename archive,
    (filename, archive)
    ∈ downloads (handleExportAll always_webm (fun _ => "") 0 0 [record1])
    /\ filename = "voxgem-studio-export-0.zip"%string.
Proof.
  destruct (downloads (handleExportAll always_webm (fun _ => "") 0 0 [record1]))
    as [|[filename archive] rest] eqn:E; [vm_compute in E; discriminate E|].
  assert (Hin : (filename, archive)
                ∈ downloads (handleExportAll always_webm (fun _ => "") 0 0
                                             [record1]))
    by (rewrite E; left).
  exists filename, archive. split; [left|].
  exact (proj1 (handleExportAll_manifest always_webm (fun _ => "") 0 0
                  [record1] filename archive Hin)).
Defined.

End PackagerMore.

(* ================================================================== *)
(** * More on the word wrap *)
(* ================================================================== *)

Module FrameMore.
Import Frame.

Section WordWrap.

Variable measureText : string -> Q.

Lemma wrap_loop_fits rest : forall n pre y0,
  y0 <= height - 100 ->
  (forall m, (1 <= m <= length rest)%nat ->
     (measureText (pre +:+ concat_strings (spaced (take m rest)))
      <= inject_Z maxWidth)%Q) ->
  wrap_loop measureText (S n) rest (mkWrap pre y0 [])
  = mkWrap (pre +:+ concat_strings (spaced rest)) y0 [].
Proof.
  induction rest as [|word rest IH]; intros n pre y0 Hy Hfit.
  - cbn. by rewrite string_app_nil_r.
  - cbn [wrap_loop]. unfold wrap_step. cbn [line y drawn].
    assert (H1 : Qle_bool (measureText (pre +:+ word +:+ " "))
                          (inject_Z maxWidth) = true).
    { apply Qle_bool_iff. specialize (Hfit 1%nat).
      cbn [take spaced map concat_strings length] in Hfit.
      rewrite string_app_nil_r in Hfit. apply Hfit. lia. }
    rewrite H1. cbn [negb andb y].
    destruct (Z.gtb_spec y0 (height - 100)) as [Hgt|_]; [lia|].
    rewrite IH.
    + cbn [spaced map concat_strings]. by rewrite !string_app_assoc.
    + done.
    + intros m Hm. specialize (Hfit (S m)).
      cbn [take spaced map concat_strings length] in Hfit.
      fold (spaced (take m rest)) in Hfit.
      repeat rewrite string_app_assoc in Hfit. repeat rewrite string_app_assoc. apply Hfit. lia.
Qed.

(** X18: a text that fits is drawn whole, as one line: when the words taken
    from the front, each followed by a space, never measure more than the
    maximum width (the first word alone is not measured against it), the
    body is the single line holding the text and one trailing space, at
    [x = 60], [y = 310]. *)
Theorem body_lines_single (text : string) :
  (forall m, (2 <= m <= length (split_space text))%nat ->
     (measureText (concat_strings (spaced (take m (split_space text))))
      <= inject_Z maxWidth)%Q) ->
  body_lines measureText text = [fillText (text +:+ " ") 60 310].
Proof.
  intros Hfit.
  destruct (FrameProofs.body_lines_eq measureText text)
    as (w0 & rest & st & Hw & Hst & ->).
  rewrite <- FrameProofs.split_space_spaced, Hw. rewrite Hw in Hfit.
  rewrite wrap_loop_fits in Hst.
  - subst st. cbn [drawn line y app spaced map concat_strings].
    reflexivity.
  - FrameProofs.geometry. lia.
  - intros m Hm. specialize (Hfit (S m)).
    cbn [take spaced map concat_strings length] in Hfit.
    fold (spaced (take m rest)) in Hfit.
    repeat rewrite string_app_assoc in Hfit. repeat rewrite string_app_assoc. apply Hfit. lia.
Qed.

End WordWrap.

Lemma body_lines_single_witness :
  body_lines (fun s => inject_Z (10 * Z.of_nat (String.length s)))
             "Hello brave new world"
  = [fillText "Hello brave new world " 60 310].
Proof.
  apply (body_lines_single
           (fun s => inject_Z (10 * Z.of_nat (String.length s)))
           "Hello brave new world").
  intros m Hm.
  change (length (split_space "Hello brave new world")) with 4%nat in Hm.
  apply Qle_bool_iff.
  destruct m as [|[|[|[|[|m]]]]]; try lia; reflexivity.
Defined.

End FrameMore.

(* ================================================================== *)
(** * Properties of the live session's audio *)
(* ================================================================== *)

Module LiveProofs.
Import Live.

(** ** 16-bit wrap-around *)

Lemma wrap16_range z : - 2 ^ 15 <= wrap16 z < 2 ^ 15.
Proof.
  unfold wrap16. cbv zeta.
  pose proof (Z.mod_pos_bound z (2 ^ 16) ltac:(lia)).
  destruct (Z.leb_spec (2 ^ 15) (z mod 2 ^ 16)); lia.
Qed.

Lemma wrap16_small z : - 2 ^ 15 <= z < 2 ^ 15 -> wrap16 z = z.
Proof.
  intros H. unfold wrap16. cbv zeta.
  destruct (Z.leb_spec (2 ^ 15) (z mod 2 ^ 16)) as [Hge|Hlt];
    revert Hge || revert Hlt;
    change (2 ^ 15) with 32768 in *; change (2 ^ 16) with 65536 in *;
    intros; Z.to_euclidean_division_equations; lia.
Qed.

Lemma wrap16_mod z : wrap16 (z mod 2 ^ 16) = wrap16 z.
Proof. unfold wrap16. by rewrite Z.mod_mod. Qed.

Lemma wrap16_idemp z : wrap16 (wrap16 z) = wrap16 z.
Proof. apply wrap16_small, wrap16_range. Qed.

Lemma list_ind2 {A} (P : list A -> Prop) :
  P [] -> (forall x, P [x]) ->
  (forall x y l, P l -> P (x :: y :: l)) ->
  forall l, P l.
Proof.
  intros H0 H1 H2 l.
  enough (H : P l /\ forall x, P (x :: l)) by apply H.
  induction l as [|y l [IHl IHc]]; [by split|].
  split; [apply IHc|]. intros x. by apply H2.
Qed.

Section Host.

Variable little_endian : bool.
Variable createBuffer : nat -> nat -> Q -> bool.

(** ** Typed arrays over one buffer *)

Lemma int16_of_bytes_of_int16 z :
  match bytes_of_int16 little_endian z with
  | [b0; b1] => int16_of_bytes little_endian b0 b1 = wrap16 z
  | _ => False
  end.
Proof.
  unfold bytes_of_int16, int16_of_bytes. cbv zeta.
  assert (H : z mod 256 mod 256 + 256 * (z / 256 mod 256 mod 256)
              = z mod 2 ^ 16).
  { change (2 ^ 16) with 65536.
    Z.to_euclidean_division_equations; lia. }
  destruct little_endian; rewrite !Z_of_byte_of_Z, H; apply wrap16_mod.
Qed.

Lemma Int16Array_Uint8Array_of (int16 : list Z) :
  Int16Array little_endian (Uint8Array_of little_endian int16)
  = Some (map wrap16 int16).
Proof.
  induction int16 as [|z int16 IH]; [reflexivity|].
  unfold Uint8Array_of in *. cbn [map concat].
  pose proof (int16_of_bytes_of_int16 z) as Hz.
  destruct (bytes_of_int16 little_endian z) as [|b0 [|b1 [|? ?]]]; try done.
  cbn [app Int16Array]. rewrite IH. cbn [mbind option_bind]. by rewrite Hz.
Qed.

Lemma Int16Array_length data dataInt16 :
  Int16Array little_endian data = Some dataInt16 ->
  length data = (2 * length dataInt16)%nat
  /\ Forall (fun z => - 2 ^ 15 <= z < 2 ^ 15) dataInt16.
Proof.
  revert dataInt16.
  induction data as [|b0|b0 b1 rest IH] using list_ind2; intros dataInt16 H.
  - injection H as <-. split; [done|constructor].
  - discriminate H.
  - cbn [Int16Array] in H.
    destruct (Int16Array little_endian rest) as [elements|] eqn:E;
      [|discriminate H].
    injection H as <-. destruct (IH elements eq_refl) as [Hl Hf].
    split; [cbn [length]; lia|]. constructor; [|done].
    unfold int16_of_bytes. destruct little_endian; apply wrap16_range.
Qed.

Lemma Int16Array_None data :
  Int16Array little_endian data = None <-> Nat.Odd (length data).
Proof.
  induction data as [|b0|b0 b1 rest IH] using list_ind2.
  - split; [done|]. intros [k Hk]. cbn in Hk. lia.
  - split; [|done]. intros _. by exists 0%nat.
  - cbn [Int16Array length].
    destruct (Int16Array little_endian rest) as [elements|] eqn:E.
    + split; [done|]. intros [k Hk].
      assert (Ho : Nat.Odd (length rest)) by (exists (k - 1)%nat; lia).
      apply IH in Ho. congruence.
    + split; [|done]. intros _. destruct (proj1 IH eq_refl) as [k Hk].
      exists (S k). lia.
Qed.

(** ** The inner loop *)

Lemma fill_channel_length dataInt16 numChannels channel iterations
    channelData :
  length (fill_channel dataInt16 numChannels channel iterations channelData)
  = length channelData.
Proof.
  unfold fill_channel. generalize 0%nat. revert channelData.
  induction iterations as [|n IH]; intros cd start; [done|].
  cbn [seq fold_left]. rewrite IH. apply length_insert.
Qed.

Lemma fill_channel_lookup dataInt16 numChannels channel iterations
    channelData i :
  (i < length channelData)%nat ->
  fill_channel dataInt16 numChannels channel iterations channelData !! i
  = if decide (i < iterations)%nat
    then Some (over_32768 (dataInt16 !! (i * numChannels + channel)%nat))
    else channelData !! i.
Proof.
  unfold fill_channel. intros Hi.
  induction iterations as [|n IH].
  - cbn [seq fold_left]. destruct (decide (i < 0)%nat); [lia|done].
  - rewrite seq_S, fold_left_app. cbn [fold_left Nat.add].
    destruct (decide (i = n)) as [->|Hne].
    + rewrite list_lookup_insert_eq.
      * destruct (decide (n < S n)%nat); [done|lia].
      * pose proof (fill_channel_length dataInt16 numChannels channel n
                      channelData) as Hl.
        unfold fill_channel in Hl. by rewrite Hl.
    + rewrite list_lookup_insert_ne by done. rewrite IH.
      destruct (decide (i < n)%nat), (decide (i < S n)%nat); try lia; done.
Qed.

(** ** [decodeAudioData] *)

Lemma ToUint32_le n : (ToUint32 n <= n)%nat.
Proof.
  unfold ToUint32.
  pose proof (Z.mod_le (Z.of_nat n) (2 ^ 32) ltac:(lia) ltac:(lia)). lia.
Qed.

Lemma ToUint32_small n : Z.of_nat n < 2 ^ 32 -> ToUint32 n = n.
Proof. intros H. unfold ToUint32. rewrite Z.mod_small by lia. lia. Qed.

Lemma frame_index len numChannels channel i :
  (channel < numChannels)%nat -> (i < len / numChannels)%nat ->
  (i * numChannels + channel < len)%nat
  /\ (i < (len + numChannels - 1) / numChannels)%nat.
Proof.
  intros Hc Hi.
  pose proof (Nat.Div0.mul_div_le len numChannels) as Hle.
  split; [nia|].
  eapply Nat.lt_le_trans; [exact Hi|].
  apply Nat.Div0.div_le_mono. lia.
Qed.

(** X19: [decodeAudioData] throws exactly when the byte length is odd or the
    host refuses the buffer; the host is asked for [numChannels] channels
    of as many frames as the 16-bit samples give per channel, rounded
    down. *)
Theorem decodeAudioData_throws (data : list byte) (rate : Q)
    (numChannels : nat) :
  decodeAudioData little_endian createBuffer data rate numChannels = None
  <-> Nat.Odd (length data)
      \/ createBuffer numChannels
            (ToUint32 (length data / 2 / numChannels)) rate = false.
Proof.
  unfold decodeAudioData.
  destruct (Int16Array little_endian data) as [dataInt16|] eqn:E;
    cbn [mbind option_bind].
  - destruct (Int16Array_length _ _ E) as [Hl _].
    replace (length data / 2)%nat with (length dataInt16)
      by (rewrite Hl, Nat.mul_comm, Nat.div_mul; done).
    destruct (createBuffer _ _ _) eqn:Ec.
    + split; [done|]. intros [Ho|?]; [|done].
      apply Int16Array_None in Ho. congruence.
    + split; [by right|done].
  - split; [|done]. intros _. left. by apply Int16Array_None.
Qed.

(** X20: the buffer [decodeAudioData] returns: [numChannels] channels of
    equally many frames; frame [i] of a channel is the 16-bit sample at
    index [i * numChannels + channel] of the data (interleaved order)
    over [32768], so every sample lies in [[-1, 1)] and none is [NaN]. *)
Theorem decodeAudioData_samples (data : list byte) (rate : Q)
    (numChannels : nat) (buffer : AudioBuffer) :
  decodeAudioData little_endian createBuffer data rate numChannels
  = Some buffer ->
  exists dataInt16,
    Int16Array little_endian data = Some dataInt16
    /\ sampleRate buffer = rate
    /\ length (channels buffer) = numChannels
    /\ forall channel channelData,
         channels buffer !! channel = Some channelData ->
         length channelData = ToUint32 (length dataInt16 / numChannels)
         /\ forall i x, channelData !! i = Some x ->
              exists z,
                dataInt16 !! (i * numChannels + channel)%nat = Some z
                /\ x = Finite (z # 32768)
                /\ (- (1) <= z # 32768)%Q /\ (z # 32768 < 1)%Q.
Proof.
  unfold decodeAudioData.
  destruct (Int16Array little_endian data) as [dataInt16|] eqn:E;
    cbn [mbind option_bind]; [|done].
  destruct (createBuffer _ _ _); [|done]. intros [= <-].
  exists dataInt16. cbn [sampleRate channels].
  split; [done|]. split; [done|].
  split; [by rewrite length_map, length_seq|].
  intros channel channelData Hc.
  apply list_lookup_fmap_Some in Hc as (c & -> & Hc).
  apply lookup_seq in Hc as [-> Hc]. cbn [Nat.add].
  split; [by rewrite fill_channel_length, length_replicate|].
  intros i x Hx.
  assert (Hi : (i < ToUint32 (length dataInt16 / numChannels))%nat).
  { apply lookup_lt_Some in Hx.
    by rewrite fill_channel_length, length_replicate in Hx. }
  rewrite fill_channel_lookup in Hx by (by rewrite length_replicate).
  pose proof (ToUint32_le (length dataInt16 / numChannels)) as Hle.
  destruct (frame_index (length dataInt16) numChannels channel i)
    as [Hidx Hit]; [done|lia|].
  destruct (decide (i < (length dataInt16 + numChannels - 1) / numChannels)%nat);
    [|lia].
  destruct (lookup_lt_is_Some_2 dataInt16 _ Hidx) as [z Hz].
  rewrite Hz in Hx. injection Hx as <-. exists z.
  split; [done|]. split; [done|].
  destruct (Int16Array_length _ _ E) as [_ Hr].
  rewrite Forall_forall in Hr.
  specialize (Hr z (proj2 (list_elem_of_In _ _) (proj1 (list_elem_of_In _ _)
                 (list_elem_of_lookup_2 _ _ _ Hz)))).
  change (2 ^ 15) with 32768 in Hr.
  unfold Qle, Qlt. cbn. lia.
Qed.

(** ** Quantisation *)

Lemma truncate_times_32768 (n : Z) (d : positive) :
  truncate ((n # d) * 32768) = Z.quot (n * 32768) (Z.pos d).
Proof. unfold truncate. cbn. by rewrite Pos.mul_1_r. Qed.

(** X21: a microphone sample inside [[-1, 1)] is stored as its product with
    [32768] truncated towards zero: a 16-bit value that, read back over
    [32768], lies between zero and the sample and less than [1 / 32768]
    away from it. *)
Theorem ToInt16_in_range (q : Q) :
  (- (1) <= q)%Q -> (q < 1)%Q ->
  let z := ToInt16 (times_32768 (Finite q)) in
  z = truncate (q * 32768)
  /\ - 32768 <= z <= 32767
  /\ ((0 <= q)%Q -> (q - (1 # 32768) < z # 32768)%Q /\ (z # 32768 <= q)%Q)
  /\ ((q <= 0)%Q -> (q <= z # 32768)%Q /\ (z # 32768 < q + (1 # 32768))%Q).
Proof.
  destruct q as [n d]. unfold Qle, Qlt. cbn [Qnum Qden]. intros Hlo Hhi.
  cbn in Hlo, Hhi.
  cbv zeta. cbn [times_32768 ToInt16]. rewrite truncate_times_32768.
  pose proof (Pos2Z.is_pos d) as Hd.
  assert (Ht : - 32768 <= Z.quot (n * 32768) (Z.pos d) <= 32767).
  { destruct (Z.le_gt_cases 0 n);
      Z.to_euclidean_division_equations; nia. }
  rewrite wrap16_small by (change (2 ^ 15) with 32768; lia).
  split; [done|]. split; [done|].
  unfold Qminus, Qplus, Qopp. cbn [Qnum Qden].
  split; intros Hs; cbn in Hs; split; cbn;
    Z.to_euclidean_division_equations; nia.
Qed.

(** X22: no clipping: a sample from full scale [1.0] up to [2.0] is not
    limited to the largest 16-bit value but wraps around, so that what is
    sent is negative. *)
Theorem ToInt16_wraps (q : Q) :
  (1 <= q)%Q -> (q < 2)%Q ->
  let z := ToInt16 (times_32768 (Finite q)) in
  z = truncate (q * 32768) - 65536 /\ - 32768 <= z < 0.
Proof.
  destruct q as [n d]. unfold Qle, Qlt. cbn [Qnum Qden]. intros Hlo Hhi.
  cbn in Hlo, Hhi.
  cbv zeta. cbn [times_32768 ToInt16]. rewrite truncate_times_32768.
  pose proof (Pos2Z.is_pos d) as Hd.
  assert (Ht : 32768 <= Z.quot (n * 32768) (Z.pos d) <= 65535).
  { Z.to_euclidean_division_equations. nia. }
  unfold wrap16. cbv zeta. change (2 ^ 16) with 65536.
  change (2 ^ 15) with 32768. rewrite Z.mod_small by lia.
  destruct (Z.leb_spec 32768 (Z.quot (n * 32768) (Z.pos d))); lia.
Qed.

(** ** Sending and receiving *)

Lemma wrap16_ToInt16 x : wrap16 (ToInt16 x) = ToInt16 x.
Proof. destruct x; cbn [ToInt16]; [apply wrap16_idemp|done..]. Qed.

(** X23: what the handler sends decodes, on the same host, to exactly the
    16-bit values it stored, each over [32768], whatever the byte order
    of the host: [decodeAudioData(decode(data), ctx, 24000, 1)] is the
    one channel holding [ToInt16(x * 32768) / 32768] for every input
    sample [x]. *)
Theorem onaudioprocess_round_trip (inputData : list Float) :
  Z.of_nat (length inputData) < 2 ^ 32 ->
  createBuffer 1 (length inputData) 24000 = true ->
  decode (onaudioprocess little_endian inputData).1
  ≫= (fun data => decodeAudioData little_endian createBuffer data 24000 1)
  = Some (mkAudioBuffer 24000
            [map (fun x => Finite (ToInt16 (times_32768 x) # 32768))
                 inputData]).
Proof.
  intros Hlen Hcb. unfold onaudioprocess. cbn [fst].
  change (decode ?s) with (Base64.decodeBase64 s).
  rewrite SpeechProofs.decode_encode. cbn [mbind option_bind].
  unfold decodeAudioData. rewrite Int16Array_Uint8Array_of.
  cbn [mbind option_bind].
  assert (Hw : map wrap16 (int16_of_input inputData)
               = int16_of_input inputData).
  { unfold int16_of_input. rewrite map_map. apply map_ext.
    intros x. apply wrap16_ToInt16. }
  rewrite Hw.
  assert (Hl : length (int16_of_input inputData) = length inputData)
    by apply length_map.
  rewrite !Hl, Nat.div_1_r, ToUint32_small by done. rewrite Hcb.
  f_equal. f_equal. cbn [seq map]. f_equal.
  apply list_eq. intros i.
  destruct (decide (i < length inputData)%nat) as [Hi|Hi].
  - rewrite fill_channel_lookup by (by rewrite length_replicate).
    replace (length inputData + 1 - 1)%nat with (length inputData) by lia.
    rewrite Nat.div_1_r.
    destruct (decide (i < length inputData)%nat); [|lia].
    rewrite Nat.mul_1_r, Nat.add_0_r.
    unfold int16_of_input. rewrite !list_lookup_fmap.
    destruct (lookup_lt_is_Some_2 inputData i Hi) as [x ->]. done.
  - rewrite !lookup_ge_None_2; [done|..].
    + rewrite length_map. lia.
    + rewrite fill_channel_length, length_replicate. lia.
Qed.

End Host.

Lemma decodeAudioData_samples_witness :
  exists dataInt16,
    Int16Array true ["000"; "128"; "255"; "127"]%byte = Some dataInt16
    /\ dataInt16 = [-32768; 32767].
Proof.
  destruct (decodeAudioData_samples true (fun _ _ _ => true)
              ["000"; "128"; "255"; "127"]%byte 24000 1
              (mkAudioBuffer 24000 [[Finite (-32768 # 32768);
                                     Finite (32767 # 32768)]]))
    as (dataInt16 & H & _); [reflexivity|].
  exists dataInt16. split; [exact H|].
  vm_compute in H. by injection H as <-.
Defined.

Lemma ToInt16_in_range_witness :
  ToInt16 (times_32768 (Finite (-1 # 3))) = -10922.
Proof.
  destruct (ToInt16_in_range (-1 # 3)) as (H & _); [done..|].
  rewrite H. reflexivity.
Defined.

Lemma ToInt16_wraps_witness :
  ToInt16 (times_32768 (Finite 1)) = -32768.
Proof.
  destruct (ToInt16_wraps 1) as (H & _); [done..|].
  rewrite H. reflexivity.
Defined.

Lemma onaudioprocess_round_trip_witness :
  decode (onaudioprocess false [Finite (1 # 2); NaN; Finite (-1)]).1
  ≫= (fun data => decodeAudioData false (fun _ _ _ => true) data 24000 1)
  = Some (mkAudioBuffer 24000
            [[Finite (16384 # 32768); Finite (0 # 32768);
              Finite (-32768 # 32768)]]).
Proof.
  apply (onaudioprocess_round_trip false (fun _ _ _ => true)
           [Finite (1 # 2); NaN; Finite (-1)]); [reflexivity|reflexivity].
Defined.

End LiveProofs.

(* ================================================================== *)
(** * Properties of image synthesis and of the visual studio *)
(* ================================================================== *)

Module VisualProofs.
Import Visual.

(** ** The request *)

Lemma extends_refl b : extends b b [].
Proof.
  split; [by rewrite app_nil_r|]. exists "". by rewrite string_app_nil_r.
Qed.

Lemma extends_trans b1 b2 b3 imgs1 imgs2 :
  extends b1 b2 imgs1 -> extends b2 b3 imgs2 ->
  extends b1 b3 (imgs1 ++ imgs2).
Proof.
  intros [H1 [t1 Ht1]] [H2 [t2 Ht2]]. split.
  - by rewrite H2, H1, map_app, app_assoc.
  - exists (t1 +:+ t2). by rewrite Ht2, Ht1, string_app_assoc.
Qed.

Lemma extends_append line b : extends b (append line b) [].
Proof. split; [by rewrite app_nil_r|]. by exists line. Qed.

Lemma extends_push d b : extends b (push_image d b) [d].
Proof. split; [done|]. exists "". by rewrite string_app_nil_r. Qed.

Lemma extends_push_append d line b :
  extends b (append line (push_image d b)) [d].
Proof.
  apply (extends_trans b (push_image d b) _ [d] []);
    [apply extends_push|apply extends_append].
Qed.

Lemma forEach_subject_extends refs : forall idx b,
  extends b (forEach_subject idx refs b) (omap image_of refs).
Proof.
  induction refs as [|ref refs IH]; intros idx b; [apply extends_refl|].
  destruct ref as [[|] d]; cbn [forEach_subject type data].
  - change (omap image_of (mkRefItem image d :: refs))
      with ([d] ++ omap image_of refs).
    eapply extends_trans; [apply extends_push_append|apply IH].
  - change (omap image_of (mkRefItem text d :: refs))
      with ([] ++ omap image_of refs).
    eapply extends_trans; [apply extends_append|apply IH].
Qed.

Lemma add_ref_extends (add : option RefItem -> Builder -> Builder) ref b :
  add = add_style \/ add = add_scene ->
  extends b (add ref b)
          (from_option (fun ref => option_list (image_of ref)) [] ref).
Proof.
  intros [-> | ->]; destruct ref as [ref|]; cbn; try apply extends_refl;
    unfold image_of; destruct (type ref); cbn;
    try apply extends_push_append; apply extends_append.
Qed.

Lemma add_main_extends mainImage b :
  extends b (add_main mainImage b)
          match mainImage with
          | Some d => if truthy d then [d] else []
          | None => []
          end.
Proof.
  unfold add_main. destruct mainImage as [d|]; [|apply extends_refl].
  destruct (truthy d); [apply extends_push_append|apply extends_refl].
Qed.

Lemma add_subjects_extends refs b :
  extends b (add_subjects refs b) (omap image_of refs).
Proof.
  unfold add_subjects. destruct refs as [|ref refs]; [apply extends_refl|].
  change (omap image_of (ref :: refs))
    with ([] ++ omap image_of (ref :: refs)).
  eapply extends_trans; [apply extends_append|apply forEach_subject_extends].
Qed.

Lemma request_extends prompt r :
  extends (start prompt)
    (add_scene (scene r)
       (add_style (style r)
          (add_subjects (subjects r) (add_main (mainImage r) (start prompt)))))
    (images_of r).
Proof.
  unfold images_of.
  set (b0 := start prompt).
  set (b1 := add_main (mainImage r) b0).
  set (b2 := add_subjects (subjects r) b1).
  set (b3 := add_style (style r) b2).
  apply (extends_trans b0 b1); [apply add_main_extends|].
  apply (extends_trans b1 b2); [apply add_subjects_extends|].
  apply (extends_trans b2 b3); apply add_ref_extends; auto.
Qed.

Lemma omap_image_of_length refs :
  (length (omap image_of refs) <= length refs)%nat.
Proof.
  induction refs as [|ref refs IH]; [done|]. cbn.
  destruct (image_of ref); cbn; lia.
Qed.

Lemma attached_images mimeType l :
  attached (map (InlineData mimeType) l) = l.
Proof.
  induction l as [|d l IH]; [done|].
  change (attached (map (InlineData mimeType) (d :: l)))
    with (d :: attached (map (InlineData mimeType) l)).
  by rewrite IH.
Qed.

Lemma request_shape (prompt : string) (r : ImageReferences) :
  exists tail,
    request prompt (Some r)
    = Text ((start prompt).2 +:+ tail)
      :: map (InlineData "image/png") (images_of r).
Proof.
  destruct (request_extends prompt r) as [H1 [tail H2]].
  unfold request. cbv zeta. rewrite H1, H2. cbn [start fst app]. eauto.
Qed.

(** X24: the request built from references: first the text part, whose text
    opens with the instructions made from the prompt (or with the
    standard sentence for an empty prompt), then one [image/png] part for
    every image among the references, in the order main image, subjects,
    style, scene; text references add no part. *)
Theorem request_parts (prompt : string) (r : ImageReferences) :
  exists complexPrompt tail,
    request prompt (Some r)
    = Text complexPrompt :: map (InlineData "image/png") (images_of r)
    /\ complexPrompt = (start prompt).2 +:+ tail
    /\ attached (request prompt (Some r)) = images_of r
    /\ (length (request prompt (Some r)) <= 4 + length (subjects r))%nat.
Proof.
  destruct (request_shape prompt r) as [tail ->].
  eexists _, tail. split; [reflexivity|]. split; [reflexivity|].
  split.
  - change (attached (Text ?p :: ?l)) with (attached l).
    apply attached_images.
  - cbn [length]. rewrite length_map. unfold images_of.
    rewrite !length_app.
    pose proof (omap_image_of_length (subjects r)).
    assert (forall x : option RefItem,
              length (from_option (fun ref => option_list (image_of ref)) [] x)
              <= 1)%nat.
    { intros [ref|]; cbn; [|lia]. destruct (image_of ref); cbn; lia. }
    assert (length match mainImage r with
                   | Some d => if truthy d then [d] else []
                   | None => []
                   end <= 1)%nat.
    { destruct (mainImage r) as [d|]; [destruct (truthy d)|]; cbn; lia. }
    pose proof (H0 (style r)). pose proof (H0 (scene r)). lia.
Qed.

Section Host.

Variable apiKey : string.
Variable typeError : string.

(** ** [generateImage] *)

Lemma first_inline_Some parts base64 :
  first_inline parts = Some base64
  <-> exists skipped rest,
        parts = skipped ++ Inline base64 :: rest
        /\ Forall (fun p => p = NoInlineData) skipped.
Proof.
  induction parts as [|p parts IH]; cbn [first_inline].
  - split; [done|]. intros (skipped & rest & H & _). by destruct skipped.
  - destruct p as [|d].
    + rewrite IH. split.
      * intros (skipped & rest & -> & Hs).
        exists (NoInlineData :: skipped), rest. split; [done|].
        by constructor.
      * intros (skipped & rest & H & Hs).
        destruct skipped as [|q skipped]; [discriminate H|].
        injection H as <- ->. apply Forall_cons in Hs as [_ Hs]. eauto.
    + split.
      * intros [= ->]. exists [], parts. split; [done|constructor].
      * intros (skipped & rest & H & Hs).
        destruct skipped as [|q skipped]; [by injection H as ->|].
        injection H as <- _. by apply Forall_cons in Hs as [? _].
Qed.

(** X25: [generateImage] succeeds exactly when a key is configured and the
    response has parts of which one carries inline data; it asks the
    backend once, with the parts of [request] and the aspect ratio, and
    returns the data of the first such part together with the data URL
    made from it. *)
Theorem generateImage_result
    (generateContent : list Part -> string -> Reply)
    (prompt aspectRatio : string) (references : option ImageReferences)
    (result : ImageResult) :
  let r := generateImage apiKey generateContent prompt aspectRatio
                         references in
  r.1 = inr result
  <-> apiKey <> ""%string
      /\ requests_sent r.2 = [(request prompt references, aspectRatio)]
      /\ exists skipped rest,
           generateContent (request prompt references) aspectRatio
           = Response (Some (skipped ++ Inline (base64 result) :: rest))
           /\ Forall (fun p => p = NoInlineData) skipped
           /\ url result
              = "data:image/png;base64," +:+ template (base64 result).
Proof.
  cbv zeta. unfold generateImage.
  destruct (String.eqb_spec apiKey "") as [Hk|Hk]; cbn [fst snd].
  { split; [done|]. by intros [? _]. }
  destruct (generateContent _ _) as [message|[parts|]] eqn:E; cbn [fst snd].
  - split; [done|]. by intros (_ & _ & ? & ? & ? & _).
  - destruct (first_inline parts) as [b|] eqn:F; cbn [fst snd].
    + apply first_inline_Some in F as (skipped & rest & -> & Hs). split.
      * intros [= <-]. cbn. split; [done|]. split; [done|].
        by exists skipped, rest.
      * intros (_ & _ & skipped' & rest' & [= H] & Hs' & Hu).
        assert (Hb : first_inline (skipped ++ Inline b :: rest)
                     = first_inline (skipped' ++ Inline (base64 result) :: rest')).
        { by rewrite H. }
        rewrite (proj2 (first_inline_Some _ b)) in Hb by eauto.
        rewrite (proj2 (first_inline_Some _ (base64 result))) in Hb by eauto.
        injection Hb as ->. destruct result as [b u]. cbn in *. by rewrite Hu.
    + split; [done|].
      intros (_ & _ & skipped & rest & [= ->] & Hs & _).
      rewrite (proj2 (first_inline_Some _ (base64 result))) in F by eauto.
      done.
  - split; [done|]. by intros (_ & _ & ? & ? & ? & _).
Qed.

(** ** [handleGenerate] *)

Lemma nothing_given_spec s :
  String.eqb (Studio.trim (prompt s)) ""
  && negb (from_option truthy false (mainImageRef s))
  && (length (subjectRefs s) =? 0)%nat
  && negb (bool_decide (is_Some (styleRef s)))
  && negb (bool_decide (is_Some (sceneRef s)))
  = nothing_given s.
Proof.
  unfold nothing_given.
  assert (H1 : String.eqb (Studio.trim (prompt s)) ""
               = Studio.is_blank (prompt s)).
  { destruct (Studio.is_blank (prompt s)) eqn:E.
    - apply StudioProofs.trim_empty in E. by rewrite E.
    - apply String.eqb_neq. intros H.
      apply StudioProofs.trim_empty in H. congruence. }
  rewrite H1. f_equal; [f_equal; [f_equal|]|].
  - by destruct (subjectRefs s).
  - by destruct (styleRef s).
  - by destruct (sceneRef s).
Qed.

(** X26: with a blank prompt and no reference at all, [handleGenerate] only
    shows the blocking toast: the backend is not asked and the gallery is
    left alone. Otherwise, with a key configured, the backend is asked
    exactly once, with the aspect ratio of the state and a request that
    attaches exactly the images held in the reference buffers. In both
    cases one toast is shown. *)
Theorem handleGenerate_request (host : Fresh) (reply : Reply) (s : State) :
  let s' := handleGenerate apiKey typeError host reply s in
  length (toasts s') = S (length (toasts s))
  /\ if nothing_given s then
       s' = showToast
              "Generation Blocked: Please provide a prompt or any reference."
              Packager.error s
     else
       apiKey <> ""%string ->
       exists parts,
         requests_sent (calls s')
         = requests_sent (calls s) ++ [(parts, aspectRatio s)]
         /\ attached parts = images_of (references_of s).
Proof.
  cbv zeta. unfold handleGenerate. rewrite nothing_given_spec.
  destruct (nothing_given s).
  { split; [|done]. cbn. rewrite length_app. cbn. lia. }
  fold (references_of s). unfold generateImage.
  destruct (String.eqb_spec apiKey "") as [Hk|Hk].
  { split; [|done]. cbn. rewrite length_app. cbn. lia. }
  assert (Ha : attached (request (prompt s) (Some (references_of s)))
               = images_of (references_of s)).
  { destruct (request_shape (prompt s) (references_of s)) as [tail ->].
    change (attached (Text ?p :: ?l)) with (attached l).
    apply attached_images. }
  assert (Hlen : forall t x, length (toasts (showToast t x s))
                             = S (length (toasts s))).
  { intros. cbn. rewrite length_app. cbn. lia. }
  destruct reply as [message|[parts|]];
    [|destruct (first_inline parts)|];
    (split; [cbn; rewrite length_app; cbn; lia|]);
    intros _; eexists; (split; [|exact Ha]);
    cbn; unfold requests_sent; rewrite omap_app; reflexivity.
Qed.

(** ** Sequences of actions *)

Lemma take_5_length {A} (l : list A) : (length (take 5 l) <= 5)%nat.
Proof. rewrite length_take. lia. Qed.

Lemma remove_at_length {A} idx (l : list A) :
  (length (remove_at idx l) <= length l)%nat.
Proof.
  unfold remove_at. rewrite length_app, length_take, length_drop. lia.
Qed.

Lemma select_first_well_formed s :
  (length (subjectRefs s) <= 5)%nat ->
  match selectedImage s with
  | Some img => img ∈ images s
  | None => True
  end ->
  well_formed (select_first s).
Proof.
  intros Hs Hsel. unfold select_first, well_formed.
  destruct (images s) as [|img imgs] eqn:Ei,
           (selectedImage s) as [sel|] eqn:Es; cbn; rewrite ?Ei, ?Es;
    split; try done.
  left.
Qed.

Lemma react_well_formed s a :
  well_formed s -> well_formed (react apiKey typeError s a).
Proof.
  intros [Hs Hsel]. destruct a; cbn [react]; try (split; [done|exact Hsel]).
  - (* Upload *)
    unfold handleUpload. destruct files as [|first files]; [done|].
    destruct t.
    + destruct (mapM _ _); split; cbn; try done. apply take_5_length.
    + destruct first; by split.
    + destruct first; by split.
    + destruct first; by split.
  - (* AddTextRef *)
    unfold handleAddTextRef. destruct (textModal s) as [t|]; [|done].
    destruct (String.eqb _ _); [done|].
    destruct t; split; cbn; try done. apply take_5_length.
  - (* ResetSubjects *) split; [cbn; lia|exact Hsel].
  - (* RemoveSubject *)
    split; [|exact Hsel]. cbn.
    pose proof (remove_at_length idx (subjectRefs s)). lia.
  - (* Generate *)
    unfold handleGenerate. destruct (_ && _); [by split|].
    destruct (generateImage _ _ _ _ _) as [[e|result] effects]; [by split|].
    split; [done|]. cbn. left.
  - (* Upscale *)
    unfold handleUpscale. destruct (selectedImage s) as [sel|] eqn:Es;
      [|split; [done|by rewrite Es]].
    destruct outcome; split; try done; cbn; [by rewrite Es|left].
  - (* RemoveImage *)
    apply select_first_well_formed; [done|]. cbn.
    destruct (selectedImage s) as [sel|]; [|done].
    destruct (String.eqb_spec (id sel) id0) as [He|Hne].
    + destruct (List.filter _ _) as [|img imgs]; [done|]. left.
    + apply list_elem_of_In, filter_In. split; [by apply list_elem_of_In|].
      by apply negb_true_iff, String.eqb_neq.
  - (* Select *)
    destruct (images s !! i) as [img|] eqn:Ei; [|by split].
    split; [done|]. cbn. by eapply list_elem_of_lookup_2.
Qed.

(** X27: over any sequence of actions, the subject buffer never holds more
    than five references, and an image is selected exactly when the
    gallery has images, the selected one being among them. *)
Theorem studio_well_formed (s : State) (actions : list Action) :
  well_formed s -> well_formed (react_all apiKey typeError s actions).
Proof.
  revert s. induction actions as [|a actions IH]; intros s H; [done|].
  cbn [react_all fold_left]. by apply IH, react_well_formed.
Qed.

End Host.

Lemma take_5_prefix {A} (l newItems : list A) :
  (length l <= 5)%nat ->
  l `prefix_of` take 5 (l ++ newItems)
  /\ (length l = 5%nat -> take 5 (l ++ newItems) = l).
Proof.
  intros H. split.
  - exists (take (5 - length l) newItems).
    rewrite take_app. by rewrite take_ge by done.
  - intros H5. rewrite take_app, take_ge by lia.
    replace (5 - length l)%nat with 0%nat by lia. apply app_nil_r.
Qed.

(** X28: adding never displaces a subject: after an upload or a text
    reference, whatever the slot and whether or not the files could be
    read, the old subject buffer is the front of the new one; a full
    buffer of five stays as it is. *)
Theorem subjects_kept (s : State) (files : list (option string)) (t : Slot) :
  (length (subjectRefs s) <= 5)%nat ->
  subjectRefs s `prefix_of` subjectRefs (handleUpload files t s)
  /\ subjectRefs s `prefix_of` subjectRefs (handleAddTextRef s)
  /\ (length (subjectRefs s) = 5%nat ->
      subjectRefs (handleUpload files t s) = subjectRefs s
      /\ subjectRefs (handleAddTextRef s) = subjectRefs s).
Proof.
  intros H.
  assert (Hu : subjectRefs s `prefix_of` subjectRefs (handleUpload files t s)
               /\ (length (subjectRefs s) = 5%nat ->
                   subjectRefs (handleUpload files t s) = subjectRefs s)).
  { unfold handleUpload. destruct files as [|first files]; [done|].
    destruct t; [|by destruct first..].
    destruct (mapM _ _) as [newBase64s|]; [|done]. cbn.
    by apply take_5_prefix. }
  assert (Ha : subjectRefs s `prefix_of` subjectRefs (handleAddTextRef s)
               /\ (length (subjectRefs s) = 5%nat ->
                   subjectRefs (handleAddTextRef s) = subjectRefs s)).
  { unfold handleAddTextRef. destruct (textModal s) as [t'|]; [|done].
    destruct (String.eqb _ _); [done|].
    destruct t'; cbn; try done. by apply take_5_prefix. }
  destruct Hu as [Hu1 Hu2], Ha as [Ha1 Ha2]. auto.
Qed.

Lemma studio_well_formed_witness :
  well_formed
    (react_all "key" "TypeError" empty_studio
       [Upload [Some "a"; Some "b"; Some "c"] subject;
        Upload [Some "d"; Some "e"; Some "f"] subject;
        Generate (mkFresh "id-1" 0) (Response (Some [Inline (Some "AAAA")]));
        RemoveImage "id-1"]).
Proof. apply studio_well_formed. split; [cbn; lia|reflexivity]. Defined.

Lemma subjects_kept_witness :
  [mkRefItem image "a"]
  `prefix_of` subjectRefs
    (handleUpload [Some "b"; None] subject
       (set_refs [mkRefItem image "a"] None None None empty_studio)).
Proof.
  apply (subjects_kept (set_refs [mkRefItem image "a"] None None None empty_studio)
           [Some "b"; None] subject).
  cbn. lia.
Defined.

End VisualProofs.

(* ================================================================== *)
(** * Properties of the player's video download *)
(* ================================================================== *)

Module PlayerProofs.
Import Player.

Section Host.

Variable createObjectURL : Blob -> string.
Variable measureText : string -> Q.
Variable context2d_available mp4_supported : bool.

(** X29: whatever events the host delivers to the muxer: a file is offered
    exactly when the muxer's promise is resolved, one file, named after
    the first eight characters of the record's id with the extension of
    the host's container ([mp4] when supported, [webm] otherwise), from
    an object URL that is revoked right after the click; the busy flag,
    raised first, is lowered again exactly when the promise is settled,
    so a promise left pending leaves it raised. *)
Theorem download_video_outcome
    (generation : Packager.Generation) (events : list Mux.Event) :
  let settled :=
    Mux.promise
      (Mux.run mp4_supported
         (Mux.audioBlobToVideo measureText context2d_available
            (Packager.blob generation) (Packager.text generation)
            (Packager.voiceId generation))
         events) in
  let log := download_video createObjectURL measureText context2d_available
                            mp4_supported generation events in
  match settled with
  | Mux.Resolved mp4Blob =>
      log = [SetIsGeneratingMp4 true;
             CreateObjectURL mp4Blob;
             Click (createObjectURL mp4Blob)
                   ("voxgem-" +:+ substring 0 8 (Packager.id generation)
                    +:+ (if mp4_supported then ".mp4" else ".webm"));
             RevokeObjectURL (createObjectURL mp4Blob);
             SetIsGeneratingMp4 false]
  | Mux.Rejected _ =>
      log = [SetIsGeneratingMp4 true; ConsoleError; SetIsGeneratingMp4 false]
  | Mux.Pending => log = [SetIsGeneratingMp4 true]
  end.
Proof.
  cbv zeta. unfold download_video.
  destruct (Mux.promise _) as [|mp4Blob|reason] eqn:E; [done| |done].
  assert (Ht : blob_type mp4Blob = Views.container mp4_supported).
  { eapply (MuxMore.run_typed mp4_supported events); [|exact E].
    unfold Mux.audioBlobToVideo. destruct context2d_available; by split. }
  unfold handleDownloadMp4, Packager.video_ext. rewrite Ht.
  by destruct mp4_supported.
Qed.

End Host.

End PlayerProofs.
